(** * Auto Translate UI: the caching-and-dispatch pipeline of [main.js]

    A shallow embedding of the translation pipeline of the plugin
    ([LRU], [sha1], [TranslateQueue], [DiskCache], [translateMany], the
    cache-size handler of the settings tab) and the properties of it that
    the design document states.

    Conventions of the embedding.
    - JavaScript strings are [string]s; a string is identified with the
      byte sequence [crypto] hashes.
    - The dynamically typed values that flow through the pipeline
      ([undefined], [null], strings) are the type [JS.val]; values of
      other types, which only a hand-written cache file could bring in,
      are left out.
    - A [Map] is an association list in insertion order with unique keys;
      the plain object used by [DiskCache] is a [gmap].
    - Integer-valued JavaScript numbers are [Z]; the rate [rps] is a [Q].
    - [async] code is cut at its [await]s: the segments between two
      [await]s run to completion and are the steps of the model. *)

From Stdlib Require Import ZArith QArith Qround Qminmax String Ascii List Lia.
From stdpp Require Import base list strings gmap.

Local Open Scope string_scope.
Local Open Scope list_scope.
Local Open Scope Z_scope.

(* ===================================================================== *)
(** ** JavaScript values *)
(* ===================================================================== *)

Module JS.

Inductive val : Type :=
| undefined
| null
| str (s : string).

#[global] Instance val_eq_dec : EqDecision val.
Proof. solve_decision. Defined.

#[global] Instance val_inhabited : Inhabited val := populate undefined.

(** [ToBoolean]: [undefined], [null] and the empty string are falsy. *)
Definition truthy (v : val) : bool :=
  match v with
  | str s => negb (String.eqb s "")
  | _ => false
  end.

(** [a || b] *)
Definition or (a b : val) : val := if truthy a then a else b.

(** [a ?? b] *)
Definition nullish (a b : val) : val :=
  match a with
  | undefined | null => b
  | _ => a
  end.

(** [s || d] on strings, as in [this.settings.sourceLang || 'auto']. *)
Definition str_or (s d : string) : string :=
  if String.eqb s "" then d else s.

(** [arr[i]]: reading past the end of an array yields [undefined]. *)
Definition index (arr : list val) (i : nat) : val :=
  default undefined (arr !! i).

(** [arr[i] = v]: writing past the end extends the array with holes. *)
Definition assign (arr : list val) (i : nat) (v : val) : list val :=
  if decide (i < length arr)%nat then <[i := v]> arr
  else arr ++ replicate (i - length arr) undefined ++ [v].

(** [Array.prototype.join] on an array of strings. *)
Fixpoint join (sep : string) (l : list string) : string :=
  match l with
  | [] => ""
  | [x] => x
  | x :: l' => x +:+ sep +:+ join sep l'
  end.

End JS.

(* ===================================================================== *)
(** ** [sha1]: [crypto.createHash('sha1').update(s).digest('hex')] *)
(* ===================================================================== *)

Module Sha1.

Definition mask32 (x : Z) : Z := Z.land x 0xFFFFFFFF.

Definition add32 (x y : Z) : Z := mask32 (x + y).

Definition rotl (n x : Z) : Z :=
  mask32 (Z.lor (Z.shiftl x n) (Z.shiftr x (32 - n))).

Definition bytes_of (s : string) : list Z :=
  (fun a => Z.of_N (N_of_ascii a)) <$> list_ascii_of_string s.

(** The 64-bit big-endian encoding of the message length in bits. *)
Definition length_bytes (bits : Z) : list Z :=
  (fun i => Z.land (Z.shiftr bits (8 * (7 - Z.of_nat i))) 0xFF) <$> seq 0 8.

Definition pad (msg : list Z) : list Z :=
  let n := Z.of_nat (length msg) in
  let zeros := Z.to_nat ((55 - n) mod 64) in
  msg ++ [0x80] ++ replicate zeros 0 ++ length_bytes (8 * n).

Fixpoint words (fuel : nat) (bs : list Z) : list Z :=
  match fuel, bs with
  | S f, b0 :: b1 :: b2 :: b3 :: rest =>
      Z.lor (Z.shiftl b0 24) (Z.lor (Z.shiftl b1 16) (Z.lor (Z.shiftl b2 8) b3))
      :: words f rest
  | _, _ => []
  end.

(** The message schedule, most recent word first. *)
Fixpoint expand (n : nat) (rev_w : list Z) : list Z :=
  match n with
  | O => rev_w
  | S n' =>
      let w := rotl 1 (Z.lxor (Z.lxor (nth 2 rev_w 0) (nth 7 rev_w 0))
                              (Z.lxor (nth 13 rev_w 0) (nth 15 rev_w 0))) in
      expand n' (w :: rev_w)
  end.

Definition schedule (block : list Z) : list Z :=
  rev (expand 64 (rev block)).

Record regs := Regs { ra : Z; rb : Z; rc : Z; rd : Z; re : Z }.

Definition round (t : nat) (w : Z) (r : regs) : regs :=
  let '(Regs a b c d e) := r in
  let '(f, k) :=
    if (t <? 20)%nat then
      (Z.lor (Z.land b c) (Z.land (Z.lxor b 0xFFFFFFFF) d), 0x5A827999)
    else if (t <? 40)%nat then
      (Z.lxor b (Z.lxor c d), 0x6ED9EBA1)
    else if (t <? 60)%nat then
      (Z.lor (Z.land b c) (Z.lor (Z.land b d) (Z.land c d)), 0x8F1BBCDC)
    else
      (Z.lxor b (Z.lxor c d), 0xCA62C1D6) in
  let temp := add32 (add32 (add32 (add32 (rotl 5 a) f) e) k) w in
  Regs temp a (rotl 30 b) c d.

Fixpoint rounds (t : nat) (ws : list Z) (r : regs) : regs :=
  match ws with
  | [] => r
  | w :: ws' => rounds (S t) ws' (round t w r)
  end.

Definition compress (h : regs) (block : list Z) : regs :=
  let r := rounds 0 (schedule block) h in
  Regs (add32 (ra h) (ra r)) (add32 (rb h) (rb r)) (add32 (rc h) (rc r))
       (add32 (rd h) (rd r)) (add32 (re h) (re r)).

Fixpoint blocks (fuel : nat) (ws : list Z) (h : regs) : regs :=
  match fuel, ws with
  | S f, _ :: _ => blocks f (drop 16 ws) (compress h (take 16 ws))
  | _, _ => h
  end.

Definition init : regs :=
  Regs 0x67452301 0xEFCDAB89 0x98BADCFE 0x10325476 0xC3D2E1F0.

Definition hex_digit (d : Z) : ascii :=
  if d <? 10 then ascii_of_N (Z.to_N (48 + d)) else ascii_of_N (Z.to_N (87 + d)).

Definition hex32 (x : Z) : string :=
  string_of_list_ascii
    ((fun i => hex_digit (Z.land (Z.shiftr x (4 * (7 - Z.of_nat i))) 0xF)) <$> seq 0 8).

Definition digest_hex (r : regs) : string :=
  hex32 (ra r) +:+ hex32 (rb r) +:+ hex32 (rc r) +:+ hex32 (rd r) +:+ hex32 (re r).

Definition sha1 (s : string) : string :=
  let bs := pad (bytes_of s) in
  let ws := words (length bs) bs in
  digest_hex (blocks (length ws) ws init).

End Sha1.

Definition sha1 : string -> string := Sha1.sha1.

Arguments sha1 : simpl never.

(* ===================================================================== *)
(** ** [class LRU]: the memory cache *)
(* ===================================================================== *)

Module LRU.

(** A [Map]: the entries in insertion order, oldest first. *)
Abbreviation entries := (list (string * JS.val)).

Definition Map_has (k : string) (m : entries) : bool :=
  bool_decide (k ∈ m.*1).

Fixpoint Map_get (k : string) (m : entries) : JS.val :=
  match m with
  | [] => JS.undefined
  | (k', v) :: m' => if decide (k' = k) then v else Map_get k m'
  end.

Definition Map_delete (k : string) (m : entries) : entries :=
  filter (fun p => p.1 ≠ k) m.

(** [Map.prototype.set] keeps the position of a key that is present and
    appends a new key at the end. *)
Fixpoint Map_set (k : string) (v : JS.val) (m : entries) : entries :=
  match m with
  | [] => [(k, v)]
  | (k', v') :: m' =>
      if decide (k' = k) then (k', v) :: m' else (k', v') :: Map_set k v m'
  end.

Record t : Type := mk { limit : Z; map : entries }.

(** [constructor(limit = 5000)] *)
Definition new (l : option Z) : t := mk (default 5000 l) [].

(** [get(k)]: returns the new cache and the value ([undefined] when the
    key is absent). *)
Definition get (k : string) (c : t) : t * JS.val :=
  if Map_has k (map c) then
    let v := Map_get k (map c) in
    (mk (limit c) (Map_set k v (Map_delete k (map c))), v)
  else (c, JS.undefined).

Definition set (k : string) (v : JS.val) (c : t) : t :=
  let m1 := if Map_has k (map c) then Map_delete k (map c) else map c in
  let m2 := Map_set k v m1 in
  if Z.of_nat (length m2) >? limit c then
    match head (m2.*1) with
    | Some f => mk (limit c) (Map_delete f m2)
    | None => mk (limit c) m2
    end
  else mk (limit c) m2.

Definition has (k : string) (c : t) : bool := Map_has k (map c).

(** Keys are unique, as in every [Map]. *)
Definition wf (c : t) : Prop := NoDup (map c).*1.

End LRU.

(* ===================================================================== *)
(** ** [class DiskCache]: the persistent cache *)
(* ===================================================================== *)

Module DiskCache.

(** [pending] records that [this._t] holds a timer that has not fired. *)
Record t : Type := mk {
  map : gmap string JS.val;
  dirty : bool;
  path : string;
  pending : bool
}.

Definition new : t := mk ∅ false "" false.

Definition get (k : string) (d : t) : JS.val :=
  default JS.undefined (map d !! k).

(** [clearTimeout(this._t); this._t = setTimeout(() => this.flush(), 1000)] *)
Definition scheduleSave (d : t) : t :=
  mk (map d) (dirty d) (path d) true.

Definition set (k : string) (v : JS.val) (d : t) : t :=
  scheduleSave (mk (<[k := v]> (map d)) true (path d) (pending d)).

(** What [flush] does to the outside world. *)
Inductive io : Type :=
| Write (path : string) (content : gmap string JS.val)
| ConsoleError (msg : string).

(** [flush()]; [write_ok] tells whether [adapter.write] fulfils or
    rejects. *)
Definition flush (write_ok : bool) (d : t) : t * list io :=
  if negb (dirty d) then (d, [])
  else
    let d' := mk (map d) false (path d) (pending d) in
    (d', Write (path d) (map d)
           :: if write_ok then [] else [ConsoleError "cache write fail"]).

(** The debounce timer fires: [() => this.flush()]. *)
Definition timer_fires (write_ok : bool) (d : t) : t * list io :=
  flush write_ok (mk (map d) (dirty d) (path d) false).

End DiskCache.

(* ===================================================================== *)
(** ** Settings and the plugin object *)
(* ===================================================================== *)

Record RateLimit : Type := { rps : Q; batchSize : Z }.

Module Settings.
Record t : Type := mk {
  provider : string;
  sourceLang : string;
  targetLang : string;
  offlineOnly : bool;
  rateLimit : RateLimit;
  cacheLimit : Z
}.
End Settings.

Definition DEFAULT_SETTINGS : Settings.t :=
  Settings.mk "azure" "auto" "ko" false {| rps := 4; batchSize := 20 |} 5000.

(** The Provider capability: [translateMany(texts, source, target)] either
    throws or returns an array.  The first argument is the number of
    Provider invocations made before this one, so that two invocations
    with equal arguments may answer differently.  A provider name that
    [setProvider] does not know leaves [this.provider] undefined; the call
    then throws inside the [try] of [translateMany], as a Provider that
    throws does. *)
Inductive outcome : Type :=
| Throws (e : string)
| Returns (translated : list JS.val).

Definition Provider : Type := nat -> list JS.val -> string -> string -> outcome.

Record call : Type := Call {
  call_texts : list JS.val;
  call_source : string;
  call_target : string
}.

(** The plugin instance: the fields the pipeline reads and writes, and the
    log [calls] of the Provider invocations made so far. *)
Record Plugin : Type := mkPlugin {
  settings : Settings.t;
  providerName : string;
  provider : Provider;
  lru : LRU.t;
  diskCache : DiskCache.t;
  calls : list call
}.

(* ===================================================================== *)
(** ** [translateMany] *)
(* ===================================================================== *)

(** The string that is hashed: [[providerName, src, tgt, t].join('|')]. *)
Definition encode (providerName src tgt t : string) : string :=
  JS.join "|" [providerName; src; tgt; t].

Definition fingerprint (providerName src tgt t : string) : string :=
  sha1 (encode providerName src tgt t).

(** The state of the lookup loop. *)
Record scan_state : Type := ScanState {
  s_lru : LRU.t;
  s_out : list JS.val;
  s_missIdx : list nat
}.

(** One iteration of [for (let i = 0; i < texts.length; i++)]. *)
Definition scan_step (disk : DiskCache.t) (i : nat) (k : string)
    (s : scan_state) : scan_state :=
  let '(lru1, a) := LRU.get k (s_lru s) in
  let cached := JS.or a (DiskCache.get k disk) in
  if JS.truthy cached then
    ScanState (LRU.set k cached lru1) (JS.assign (s_out s) i cached) (s_missIdx s)
  else
    ScanState lru1 (s_out s) (s_missIdx s ++ [i]).

Fixpoint scan (disk : DiskCache.t) (i : nat) (keys : list string)
    (s : scan_state) : scan_state :=
  match keys with
  | [] => s
  | k :: keys' => scan disk (S i) keys' (scan_step disk i k s)
  end.

(** [missIdx.forEach((idx, j) => out[idx] = missTexts[j])] *)
Fixpoint fill_originals (missIdx : list nat) (j : nat) (missTexts : list JS.val)
    (out : list JS.val) : list JS.val :=
  match missIdx with
  | [] => out
  | idx :: rest =>
      fill_originals rest (S j) missTexts (JS.assign out idx (JS.index missTexts j))
  end.

(** The state of the write-back loop. *)
Record store_state : Type := StoreState {
  w_lru : LRU.t;
  w_disk : DiskCache.t;
  w_out : list JS.val
}.

(** The value stored for miss [j]: [translated[j] ?? missTexts[j]]. *)
Definition dst_of (translated missTexts : list JS.val) (j : nat) : JS.val :=
  JS.nullish (JS.index translated j) (JS.index missTexts j).

(** [missIdx.forEach((idx, j) => { const dst = ...; out[idx] = dst;
    const k = keys[idx]; this.lru.set(k, dst); this.diskCache.set(k, dst); })].
    [keys[idx]] is a string for every index the loop meets; an index that
    is out of range would make the key [undefined], which the model reads
    as the empty key. *)
Fixpoint store (keys : list string) (translated missTexts : list JS.val)
    (missIdx : list nat) (j : nat) (s : store_state) : store_state :=
  match missIdx with
  | [] => s
  | idx :: rest =>
      let dst := dst_of translated missTexts j in
      let k := default "" (keys !! idx) in
      store keys translated missTexts rest (S j)
        (StoreState (LRU.set k dst (w_lru s)) (DiskCache.set k dst (w_disk s))
                    (JS.assign (w_out s) idx dst))
  end.

Definition with_caches (P : Plugin) (l : LRU.t) (d : DiskCache.t)
    (cs : list call) : Plugin :=
  mkPlugin (settings P) (providerName P) (provider P) l d cs.

(** [async translateMany(texts)].  Its one [await] is the Provider call;
    nothing else writes the caches while it is pending, so the call is one
    step from the plugin before it to the plugin after it and the array
    it fulfils with.  It has no [throw] of its own and catches those of
    the Provider. *)
Definition translateMany (texts : list string) (P : Plugin)
    : Plugin * list JS.val :=
  let src := JS.str_or (Settings.sourceLang (settings P)) "auto" in
  let tgt := JS.str_or (Settings.targetLang (settings P)) "ko" in
  let keys := fingerprint (providerName P) src tgt <$> texts in
  let out := replicate (length texts) JS.undefined in
  let s := scan (diskCache P) 0 keys (ScanState (lru P) out []) in
  let missIdx := s_missIdx s in
  if decide (length missIdx = 0%nat) then
    (with_caches P (s_lru s) (diskCache P) (calls P), s_out s)
  else
    let missTexts := (fun i => JS.index (JS.str <$> texts) i) <$> missIdx in
    if Settings.offlineOnly (settings P) then
      (with_caches P (s_lru s) (diskCache P) (calls P),
       fill_originals missIdx 0 missTexts (s_out s))
    else
      let cs := calls P ++ [Call missTexts src tgt] in
      match provider P (length (calls P)) missTexts src tgt with
      | Throws e =>
          (with_caches P (s_lru s) (diskCache P) cs,
           fill_originals missIdx 0 missTexts (s_out s))
      | Returns translated =>
          let w := store keys translated missTexts missIdx 0
                     (StoreState (s_lru s) (diskCache P) (s_out s)) in
          (with_caches P (w_lru w) (w_disk w) cs, w_out w)
      end.

(* ===================================================================== *)
(** ** [class TranslateQueue]: the rate-limited dispatcher *)
(* ===================================================================== *)

Module TranslateQueue.

(** A queued task [{ text, resolve, reject }]; [resolve] and [reject]
    settle the promise [pid]. *)
Record task : Type := Task { text : string; pid : nat }.

(** What a run of the dispatcher does, in order. *)
Inductive event : Type :=
| Invoke (texts : list string)      (* this.plugin.translateMany(texts) *)
| Resolve (p : nat) (v : JS.val)    (* tasks[i].resolve(dst) *)
| Reject (p : nat) (e : string)     (* t.reject(e) *)
| ConsoleError (e : string)
| Sleep (ms : Z).                   (* await sleep(interval) *)

(** The suspended activation of [run()], if there is one, with its
    local constants [interval] and [batchSize]. *)
Inductive frame : Type :=
| NoFrame
| AwaitTranslate (interval bsize : Z) (tasks : list task)
| AwaitSleep (interval bsize : Z).

Record t : Type := mk {
  plugin : Plugin;
  queue : list task;
  running : bool;
  suspended : frame
}.

Definition new (P : Plugin) : t := mk P [] false NoFrame.

(** [Math.max(250, Math.floor(1000 / Math.max(1, rps)))] *)
Definition interval (r : Q) : Z :=
  Z.max 250 (Qfloor (1000 / Qmax 1 r)%Q).

(** [this.queue.splice(0, batchSize)]: the removed prefix and the rest. *)
Definition splice0 (n : Z) (q : list task) : list task * list task :=
  let c := Z.to_nat (Z.max 0 n) in (take c q, drop c q).

(** [translated.forEach((dst, i) => tasks[i].resolve(dst))]: the calls
    made, and whether [tasks[i]] was [undefined] at some [i], which
    throws a [TypeError]. *)
Fixpoint resolve_each (translated : list JS.val) (tasks : list task)
    : list event * bool :=
  match translated, tasks with
  | [], _ => ([], false)
  | dst :: tr, tk :: ts =>
      let '(evs, threw) := resolve_each tr ts in (Resolve (pid tk) dst :: evs, threw)
  | _ :: _, [] => ([], true)
  end.

(** [tasks.forEach(t => t.reject(e))] after [console.error]. *)
Definition reject_all (e : string) (tasks : list task) : list event :=
  ConsoleError e :: ((fun tk => Reject (pid tk) e) <$> tasks).

Definition TypeError : string := "TypeError".

Section Run.

(** [this.plugin.translateMany]: the asynchronous callee of the loop,
    which rejects with an error or fulfils with an array. *)
Variable translate : list string -> Plugin -> Plugin * (string + list JS.val).

(** The test of the [while] and the body up to the first [await]. *)
Definition loop_top (iv bs : Z) (d : t) : t * list event :=
  match queue d with
  | [] => (mk (plugin d) (queue d) false NoFrame, [])
  | _ :: _ =>
      let '(tasks, rest) := splice0 bs (queue d) in
      (mk (plugin d) rest (running d) (AwaitTranslate iv bs tasks),
       [Invoke (text <$> tasks)])
  end.

Definition run (d : t) : t * list event :=
  if running d then (d, [])
  else
    let rl := Settings.rateLimit (settings (plugin d)) in
    loop_top (interval (rps rl)) (batchSize rl)
             (mk (plugin d) (queue d) true (suspended d)).

Definition enqueue (tk : task) (d : t) : t * list event :=
  run (mk (plugin d) (queue d ++ [tk]) (running d) (suspended d)).

(** The pending [await] settles and [run()] continues to its next
    [await] or to its end. *)
Definition resume (d : t) : t * list event :=
  match suspended d with
  | NoFrame => (d, [])
  | AwaitTranslate iv bs tasks =>
      let '(P', r) := translate (text <$> tasks) (plugin d) in
      let evs :=
        match r with
        | inr translated =>
            let '(evs, threw) := resolve_each translated tasks in
            if threw : bool then evs ++ reject_all TypeError tasks else evs
        | inl e => reject_all e tasks
        end in
      (mk P' (queue d) (running d) (AwaitSleep iv bs), evs ++ [Sleep iv])
  | AwaitSleep iv bs => loop_top iv bs d
  end.

(** What happens to a dispatcher: a task arrives, or its pending
    [await] settles. *)
Inductive input : Type :=
| Enqueue (tk : task)
| Resume.

Definition step (i : input) (d : t) : t * list event :=
  match i with
  | Enqueue tk => enqueue tk d
  | Resume => resume d
  end.

Fixpoint exec (ins : list input) (d : t) : t * list event :=
  match ins with
  | [] => (d, [])
  | i :: ins' =>
      let '(d1, e1) := step i d in
      let '(d2, e2) := exec ins' d1 in
      (d2, e1 ++ e2)
  end.

End Run.

(** The first settlement of promise [p] in a trace decides it. *)
Fixpoint settled (p : nat) (tr : list event) : option (string + JS.val) :=
  match tr with
  | [] => None
  | Resolve q v :: tr' => if decide (q = p) then Some (inr v) else settled p tr'
  | Reject q e :: tr' => if decide (q = p) then Some (inl e) else settled p tr'
  | _ :: tr' => settled p tr'
  end.

Definition is_sleep (e : event) : bool :=
  match e with Sleep _ => true | _ => false end.

Definition is_invoke (e : event) : bool :=
  match e with Invoke _ => true | _ => false end.

End TranslateQueue.

(** The callee of the dispatcher in the plugin: the [translateMany] above,
    which has no [throw] of its own and catches those of the Provider. *)
Definition plugin_translate (texts : list string) (P : Plugin)
    : Plugin * (string + list JS.val) :=
  let '(P', out) := translateMany texts P in (P', inr out).

(** [batch(texts)]: one promise and one [enqueue] per text, in order;
    promise ids are taken from [next] on. *)
Fixpoint batch (texts : list string) (next : nat) (d : TranslateQueue.t)
    : TranslateQueue.t * list TranslateQueue.event :=
  match texts with
  | [] => (d, [])
  | t :: texts' =>
      let '(d1, e1) :=
        TranslateQueue.enqueue (TranslateQueue.Task t next) d in
      let '(d2, e2) := batch texts' (S next) d1 in
      (d2, e1 ++ e2)
  end.

(* ===================================================================== *)
(** ** The cache-size field of the settings tab *)
(* ===================================================================== *)

Module Num.

(** The numbers the handler meets: [NaN] or an integer. *)
Inductive num : Type :=
| NaN
| Int (z : Z).

Definition is_space (a : ascii) : bool :=
  let n := nat_of_ascii a in
  ((9 <=? n) && (n <=? 13) || (n =? 32))%nat.

Definition is_digit (a : ascii) : bool :=
  let n := nat_of_ascii a in ((48 <=? n) && (n <=? 57))%nat.

Fixpoint trim_left (s : list ascii) : list ascii :=
  match s with
  | a :: s' => if is_space a then trim_left s' else s
  | [] => []
  end.

Definition trim (s : list ascii) : list ascii :=
  rev (trim_left (rev (trim_left s))).

Definition digits_value (ds : list ascii) : Z :=
  foldl (fun acc a => 10 * acc + (Z.of_nat (nat_of_ascii a) - 48)) 0 ds.

Definition unsigned (ds : list ascii) : option num :=
  match ds with
  | [] => None
  | _ => if forallb is_digit ds then Some (Int (digits_value ds)) else None
  end.

(** No numeric literal of JavaScript lacks a digit, except [Infinity]. *)
Definition surely_not_numeric (s : list ascii) : bool :=
  forallb (fun a => negb (is_digit a) && negb (Ascii.eqb a "I")
                    && (nat_of_ascii a <? 128)%nat) s.

(** [Number(v)] on the strings whose conversion is an integer or [NaN]
    for certain: blank strings, signed decimal integers, and ASCII
    strings with no digit and no [I].  [None] on the others (fractions,
    exponents, hexadecimal, [Infinity]), which the model leaves out. *)
Definition Number (v : string) : option num :=
  let s := trim (list_ascii_of_string v) in
  match s with
  | [] => Some (Int 0)
  | a :: s' =>
      let signed :=
        if Ascii.eqb a "-" then
          match unsigned s' with Some (Int z) => Some (Int (- z)) | _ => None end
        else if Ascii.eqb a "+" then unsigned s'
        else unsigned s in
      match signed with
      | Some n => Some n
      | None => if surely_not_numeric s then Some NaN else None
      end
  end.

(** [n || d]: [NaN] and [0] are falsy. *)
Definition or (n : num) (d : Z) : Z :=
  match n with
  | NaN => d
  | Int z => if z =? 0 then d else z
  end.

End Num.

Definition with_cacheLimit (s : Settings.t) (n : Z) : Settings.t :=
  Settings.mk (Settings.provider s) (Settings.sourceLang s) (Settings.targetLang s)
              (Settings.offlineOnly s) (Settings.rateLimit s) n.

(** [onChange(async v => { const n = Number(v)||5000;
    this.plugin.settings.cacheLimit = n; this.plugin.lru = new LRU(n); ... })] *)
Definition cacheLimit_onChange (v : string) (P : Plugin) : option Plugin :=
  match Num.Number v with
  | None => None
  | Some n0 =>
      let n := Num.or n0 5000 in
      Some (mkPlugin (with_cacheLimit (settings P) n) (providerName P) (provider P)
                     (LRU.new (Some n)) (diskCache P) (calls P))
  end.

(** The sibling fields: [Math.max(1, Number(v)||4)] and
    [Math.max(1, Number(v)||20)]. *)
Definition rps_onChange_value (v : string) : option Z :=
  match Num.Number v with
  | None => None
  | Some n0 => Some (Z.max 1 (Num.or n0 4))
  end.

Definition batchSize_onChange_value (v : string) : option Z :=
  match Num.Number v with
  | None => None
  | Some n0 => Some (Z.max 1 (Num.or n0 20))
  end.

(** [onload]: [this.lru = new LRU(this.settings.cacheLimit || 5000)] *)
Definition onload_lru (s : Settings.t) : LRU.t :=
  LRU.new (Some (Num.or (Num.Int (Settings.cacheLimit s)) 5000)).

(** A plugin as [onload] leaves it, with empty caches. *)
Definition fresh (s : Settings.t) (pr : Provider) : Plugin :=
  mkPlugin s (Settings.provider s) pr (onload_lru s) DiskCache.new [].

(** Inserting a list of entries one [set] at a time. *)
Definition set_all (kvs : list (string * JS.val)) (c : LRU.t) : LRU.t :=
  foldl (fun c kv => LRU.set kv.1 kv.2 c) c kvs.

(** What [set] does once its new entry is in place: it drops the oldest
    entry when the size exceeds the limit. *)
Definition evict (l : Z) (m : LRU.entries) : LRU.entries :=
  if Z.of_nat (length m) >? l then tail m else m.

(* ===================================================================== *)
(** ** [DiskCache.load] and the import of a cache file *)
(* ===================================================================== *)

Module Vault.


End Vault.





(* ===================================================================== *)
(** ** [bumpGeneration] *)
(* ===================================================================== *)

(** [g | 0] on an integer. *)
Definition ToInt32 (g : Z) : Z := (g + 2 ^ 31) mod 2 ^ 32 - 2 ^ 31.

(** [this.generation = (this.generation|0) + 1] *)
Definition bumpGeneration (generation : Z) : Z := ToInt32 generation + 1.

(* ===================================================================== *)
(** ** [snapshotElement], [restoreElement] and [render] *)
(* ===================================================================== *)

Module Dom.

(** An element as these methods see it: its [innerText] and its
    attributes. *)
Record element : Type := Element {
  innerText : string;
  attributes : gmap string string
}.

Definition setInnerText (s : string) (el : element) : element :=
  Element s (attributes el).

Definition hasAttribute (a : string) (el : element) : bool :=
  bool_decide (is_Some (attributes el !! a)).

Definition getAttribute (a : string) (el : element) : option string :=
  attributes el !! a.

Definition setAttribute (a v : string) (el : element) : element :=
  Element (innerText el) (<[a := v]> (attributes el)).

Definition removeAttribute (a : string) (el : element) : element :=
  Element (innerText el) (delete a (attributes el)).

(** [{ text, attr: { title, ariaLabel } }]; a field of [attr] that is not
    set is [None]. *)
Record snapshot : Type := Snapshot {
  text : string;
  title : option string;
  ariaLabel : option string
}.

End Dom.

(** [snapshotElement(el)] on the entry of [el] in [this.originalText]. *)
Definition snapshotElement (el : Dom.element) (entry : option Dom.snapshot)
    : option Dom.snapshot :=
  match entry with
  | Some snap => Some snap
  | None =>
      Some (Dom.Snapshot (Dom.innerText el)
              (if Dom.hasAttribute "title" el then Dom.getAttribute "title" el else None)
              (if Dom.hasAttribute "aria-label" el
               then Dom.getAttribute "aria-label" el else None))
  end.

(** [restoreElement(el)] *)
Definition restoreElement (el : Dom.element) (entry : option Dom.snapshot)
    : Dom.element :=
  match entry with
  | None => el
  | Some snap =>
      let el1 := Dom.setInnerText (Dom.text snap) el in
      let el2 := match Dom.title snap with
                 | Some v => Dom.setAttribute "title" v el1
                 | None => el1
                 end in
      let el3 := match Dom.ariaLabel snap with
                 | Some v => Dom.setAttribute "aria-label" v el2
                 | None => el2
                 end in
      Dom.removeAttribute "data-autotranslated" el3
  end.

(** [render(el, src, dst, mode)] *)
Definition render (el : Dom.element) (src dst mode : string) : Dom.element :=
  let el1 :=
    if String.eqb mode "inline" then
      Dom.setInnerText (src +:+ " (" +:+ dst +:+ ")") el
    else if String.eqb mode "tooltip" then Dom.setAttribute "title" dst el
    else Dom.setInnerText dst el in
  Dom.setAttribute "data-autotranslated" "true" el1.

(* ===================================================================== *)
(** ** [translateAndCache] and [prebuildCacheAllSettings] *)
(* ===================================================================== *)

(** [for (let i = 0; i < texts.length; i++) { const k = keys[i];
    const dst = translated[i] ?? texts[i]; this.lru.set(k, dst);
    this.diskCache.set(k, dst); }], from index [i] on. *)
Fixpoint cache_all (texts : list string) (translated : list JS.val) (i : nat)
    (keys : list string) (c : LRU.t) (d : DiskCache.t) : LRU.t * DiskCache.t :=
  match keys with
  | [] => (c, d)
  | k :: keys' =>
      let dst := JS.nullish (JS.index translated i) (JS.index (JS.str <$> texts) i) in
      cache_all texts translated (S i) keys' (LRU.set k dst c) (DiskCache.set k dst d)
  end.

(** [async translateAndCache(texts)]: the Provider is called with all the
    texts, and its throw is not caught here. *)
Definition translateAndCache (write_ok : bool) (texts : list string) (P : Plugin)
    : Plugin * (string + list JS.val) * list DiskCache.io :=
  let src := JS.str_or (Settings.sourceLang (settings P)) "auto" in
  let tgt := JS.str_or (Settings.targetLang (settings P)) "ko" in
  let keys := fingerprint (providerName P) src tgt <$> texts in
  let cs := calls P ++ [Call (JS.str <$> texts) src tgt] in
  match provider P (length (calls P)) (JS.str <$> texts) src tgt with
  | Throws e => (with_caches P (lru P) (diskCache P) cs, inl e, [])
  | Returns translated =>
      let '(c, d) := cache_all texts translated 0 keys (lru P) (diskCache P) in
      let '(d', io) := DiskCache.flush write_ok d in
      (with_caches P c d' cs, inr translated, io)
  end.








(* ===================================================================== *)
(** ** Vocabulary of the statements, and the states of the examples *)
(* ===================================================================== *)

(** Two entries that fill a memory cache of capacity 2. *)
Definition c7_entries : list (string * JS.val) :=
  [("a", JS.str "A"); ("b", JS.str "B")].

(** A persistent cache after one [set]: dirty, with a flush scheduled. *)
Definition c2_store : DiskCache.t :=
  DiskCache.set "k" (JS.str "v") DiskCache.new.

(** A plugin as [onload] leaves it under the default settings. *)
Definition c3_plugin : Plugin :=
  fresh DEFAULT_SETTINGS (fun _ _ _ _ => Throws "offline").

(** The string holds no ['|'], the separator of the encoding. *)
Fixpoint no_bar (s : string) : bool :=
  match s with
  | EmptyString => true
  | String a s' => negb (Ascii.eqb a "|") && no_bar s'
  end.

(** The value the memory cache holds for a key ([undefined] if none). *)
Definition mem (c : LRU.t) (k : string) : JS.val := LRU.Map_get k (LRU.map c).

(** Every value in the memory cache [c] comes from the memory cache [lru0]
    or from the persistent cache [disk]. *)
Definition provenance (lru0 : LRU.t) (disk : DiskCache.t) (c : LRU.t) : Prop :=
  forall k,
    mem c k = JS.undefined
    ∨ mem c k = mem lru0 k
    ∨ (mem c k = DiskCache.get k disk ∧ JS.truthy (DiskCache.get k disk) = true).

(** What the lookup loop maintains of the memory cache. *)
Definition scan_inv (lru0 : LRU.t) (disk : DiskCache.t) (s : scan_state) : Prop :=
  LRU.wf (s_lru s)
  ∧ LRU.limit (s_lru s) = LRU.limit lru0
  ∧ provenance lru0 disk (s_lru s).

(** [this.settings.sourceLang || 'auto'] *)
Definition src_of (P : Plugin) : string :=
  JS.str_or (Settings.sourceLang (settings P)) "auto".

(** [this.settings.targetLang || 'ko'] *)
Definition tgt_of (P : Plugin) : string :=
  JS.str_or (Settings.targetLang (settings P)) "ko".

(** The fingerprint [translateMany] computes for a text. *)
Definition key_of (P : Plugin) (t : string) : string :=
  fingerprint (providerName P) (src_of P) (tgt_of P) t.

(** The state in which [translateMany] leaves its lookup loop. *)
Definition lookup_of (P : Plugin) (texts : list string) : scan_state :=
  scan (diskCache P) 0 (key_of P <$> texts)
       (ScanState (lru P) (replicate (length texts) JS.undefined) []).

(** [missIdx.map(i => texts[i])] *)
Definition missTexts_of (texts : list string) (missIdx : list nat) : list JS.val :=
  (fun i => JS.index (JS.str <$> texts) i) <$> missIdx.

(** Neither tier maps the key to a truthy value: each holds nothing for
    it, or [null], or the empty string. *)
Definition uncached (P : Plugin) (k : string) : Prop :=
  JS.truthy (mem (lru P) k) = false
  ∧ JS.truthy (DiskCache.get k (diskCache P)) = false.

(** Empty caches and a Provider that answers one translation. *)
Definition c1_plugin : Plugin :=
  fresh DEFAULT_SETTINGS (fun _ _ _ _ => Returns [JS.str "annyeong"]).

(** The state of the lookup loop of [translateMany] after [n] iterations. *)
Definition lookup_after (P : Plugin) (texts : list string) (n : nat) : scan_state :=
  scan (diskCache P) 0 (take n (key_of P <$> texts))
       (ScanState (lru P) (replicate (length texts) JS.undefined) []).

(** The memory cache can take every text without evicting. *)
Definition has_room (P : Plugin) (texts : list string) : Prop :=
  Z.of_nat (length (LRU.map (lru P)) + length texts) <= LRU.limit (lru P).

(** The value the two tiers hold for a key, memory first. *)
Definition cached_value (P : Plugin) (k : string) : JS.val :=
  JS.or (mem (lru P) k) (DiskCache.get k (diskCache P)).

(** The fingerprint of [Hello] under the default settings. *)
Definition hello_key : string :=
  Eval vm_compute in fingerprint "azure" "auto" "ko" "Hello".

(** The fingerprint of [World] under the default settings. *)
Definition world_key : string :=
  Eval vm_compute in fingerprint "azure" "auto" "ko" "World".

(** A Provider that translates every text. *)
Definition answering : Provider :=
  fun _ texts _ _ => Returns ((fun _ => JS.str "translated") <$> texts).

(** The persistent cache maps the fingerprint of [Hello] to the empty
    string. *)
Definition c6_plugin_empty : Plugin :=
  mkPlugin DEFAULT_SETTINGS "azure" answering (LRU.new None)
           (DiskCache.mk {[ hello_key := JS.str "" ]} false "" false) [].

(** The memory cache, of capacity 1, holds [World]; the persistent cache
    holds [Hello]. *)
Definition c6_plugin_full : Plugin :=
  mkPlugin DEFAULT_SETTINGS "azure" answering
           (LRU.mk 1 [(world_key, JS.str "segye")])
           (DiskCache.mk {[ hello_key := JS.str "annyeong" ]} false "" false) [].

(** The persistent cache holds a translation of [Hello]. *)
Definition c6_plugin_hit : Plugin :=
  mkPlugin DEFAULT_SETTINGS "azure" answering (LRU.new None)
           (DiskCache.mk {[ hello_key := JS.str "annyeong" ]} false "" false) [].

(** The memory cache maps the fingerprint of [Hello] to the empty string
    and the persistent cache maps it to a translation. *)
Definition c10_plugin : Plugin :=
  mkPlugin DEFAULT_SETTINGS "azure" answering
           (LRU.mk 5000 [(hello_key, JS.str "")])
           (DiskCache.mk {[ hello_key := JS.str "annyeong" ]} false "" false) [].

(** [keys[idx]] as the write-back loop reads it. *)
Definition key_at (keys : list string) (idx : nat) : string :=
  default "" (keys !! idx).

(** The entry [(k, v)] is in the memory cache with at most [r] entries
    more recent than it. *)
Definition recent (r : nat) (k : string) (v : JS.val) (c : LRU.t) : Prop :=
  exists pre post, LRU.map c = pre ++ (k, v) :: post ∧ (length post <= r)%nat.

(** Empty caches and a Provider that answers the empty string. *)
Definition c4_plugin : Plugin :=
  fresh DEFAULT_SETTINGS (fun _ _ _ _ => Returns [JS.str ""]).

(** Empty caches and a Provider that answers [null] for the first text. *)
Definition c4_answer : Plugin :=
  fresh DEFAULT_SETTINGS (fun _ _ _ _ => Returns [JS.null; JS.str "segye"]).

(** The number of events of a trace that satisfy [f]. *)
Fixpoint count (f : TranslateQueue.event -> bool) (tr : list TranslateQueue.event)
    : nat :=
  match tr with
  | [] => 0
  | e :: tr' => (if f e then 1 else 0) + count f tr'
  end.

(** A call of [translateMany] is in flight. *)
Definition in_flight (d : TranslateQueue.t) : nat :=
  match TranslateQueue.suspended d with
  | TranslateQueue.AwaitTranslate _ _ _ => 1
  | _ => 0
  end.

(** The dispatcher is idle with an empty queue, or its suspended loop
    carries the interval and the batch size of the settings [st]. *)
Definition dispatcher_ok (st : Settings.t) (d : TranslateQueue.t) : Prop :=
  settings (TranslateQueue.plugin d) = st
  ∧ match TranslateQueue.suspended d with
    | TranslateQueue.NoFrame =>
        TranslateQueue.running d = false ∧ TranslateQueue.queue d = []
    | TranslateQueue.AwaitTranslate iv bs _
    | TranslateQueue.AwaitSleep iv bs =>
        TranslateQueue.running d = true
        ∧ iv = TranslateQueue.interval (rps (Settings.rateLimit st))
        ∧ bs = batchSize (Settings.rateLimit st)
    end.

(** The events by which a batch settles its requests. *)
Definition settle_event (e : TranslateQueue.event) : bool :=
  match e with
  | TranslateQueue.Resolve _ _ | TranslateQueue.Reject _ _
  | TranslateQueue.ConsoleError _ => true
  | _ => false
  end.

(** Request [i] resolved with result [i]. *)
Definition resolutions (translated : list JS.val) (tasks : list TranslateQueue.task)
    : list TranslateQueue.event :=
  zip_with (fun dst tk => TranslateQueue.Resolve (TranslateQueue.pid tk) dst)
           translated tasks.

(** A Provider whose every call fails. *)
Definition failing : Provider := fun _ _ _ _ => Throws "Azure 500".

(** Two queued requests. *)
Definition c8_tasks : list TranslateQueue.task :=
  [TranslateQueue.Task "World" 1; TranslateQueue.Task "Again" 2].

(** A dispatcher suspended on a batch of two whose Provider fails. *)
Definition c8_dispatcher : TranslateQueue.t :=
  TranslateQueue.mk (fresh DEFAULT_SETTINGS failing) [] true
    (TranslateQueue.AwaitTranslate 250 20 c8_tasks).

(** A callee that rejects. *)
Definition rejecting (texts : list string) (P : Plugin)
    : Plugin * (string + list JS.val) := (P, inl "boom").

(** Every wait of the trace lasts [ms] milliseconds. *)
Definition sleeps_for (ms : Z) (tr : list TranslateQueue.event) : Prop :=
  Forall (fun e => match e with TranslateQueue.Sleep x => x = ms | _ => True end) tr.

(** Half a request per second. *)
Definition slow_settings : Settings.t :=
  Settings.mk "azure" "auto" "ko" false {| rps := 1 # 2; batchSize := 20 |} 5000.


(** The operations of the memory cache. *)
Inductive lru_op : Type :=
| OpGet (k : string)
| OpSet (k : string) (v : JS.val).

Definition apply_op (c : LRU.t) (o : lru_op) : LRU.t :=
  match o with
  | OpGet k => (LRU.get k c).1
  | OpSet k v => LRU.set k v c
  end.

(** The memory cache after a sequence of [get]s and [set]s. *)
Definition run_ops (ops : list lru_op) (c : LRU.t) : LRU.t := foldl apply_op c ops.

(** A burst of [set]s on the persistent cache. *)
Definition disk_sets (kvs : list (string * JS.val)) (d : DiskCache.t) : DiskCache.t :=
  foldl (fun d kv => DiskCache.set kv.1 kv.2 d) d kvs.





(** The memory cache holds no more entries than its limit allows. *)
Definition within_limit (c : LRU.t) : Prop :=
  Z.of_nat (length (LRU.map c)) <= Z.max 0 (LRU.limit c).

(** The plugin after a sequence of [translateMany] calls. *)
Definition run_translations (batches : list (list string)) (P : Plugin) : Plugin :=
  foldl (fun P texts => (translateMany texts P).1) P batches.


(** Empty caches and a Provider whose every call fails. *)
Definition c8_plugin_failing : Plugin := fresh DEFAULT_SETTINGS failing.





(** The tasks that arrive in a run, in order. *)
Definition enqueued (ins : list TranslateQueue.input) : list TranslateQueue.task :=
  omap (fun i => match i with
                 | TranslateQueue.Enqueue tk => Some tk
                 | TranslateQueue.Resume => None
                 end) ins.

(** The texts handed to [translateMany] in a trace, in order. *)
Definition invoked (tr : list TranslateQueue.event) : list string :=
  tr ≫= (fun e => match e with TranslateQueue.Invoke ts => ts | _ => [] end).

(** The promises resolved in a trace, in order. *)
Definition resolved (tr : list TranslateQueue.event) : list nat :=
  omap (fun e => match e with TranslateQueue.Resolve p _ => Some p | _ => None end) tr.

(** The event is no rejection and no error report. *)
Definition quiet (e : TranslateQueue.event) : bool :=
  match e with
  | TranslateQueue.Reject _ _ | TranslateQueue.ConsoleError _ => false
  | _ => true
  end.

(** The event is no call of more than [max(0, bs)] texts. *)
Definition batch_within (bs : Z) (e : TranslateQueue.event) : Prop :=
  match e with
  | TranslateQueue.Invoke ts => (length ts <= Z.to_nat (Z.max 0 bs))%nat
  | _ => True
  end.

(** The tasks of the batch whose call is in flight. *)
Definition awaiting (d : TranslateQueue.t) : list TranslateQueue.task :=
  match TranslateQueue.suspended d with
  | TranslateQueue.AwaitTranslate _ _ tasks => tasks
  | _ => []
  end.

(** How far the loop is from its end when no task arrives any more. *)
Definition remaining (d : TranslateQueue.t) : nat :=
  match TranslateQueue.suspended d with
  | TranslateQueue.NoFrame => 0
  | TranslateQueue.AwaitSleep _ _ => 2 * length (TranslateQueue.queue d) + 1
  | TranslateQueue.AwaitTranslate _ _ _ => 2 * length (TranslateQueue.queue d) + 2
  end.

(** The default settings with a batch size of zero, as a hand-edited
    [data.json] can give. *)
Definition zero_batch_settings : Settings.t :=
  Settings.mk "azure" "auto" "ko" false {| rps := 4; batchSize := 0 |} 5000.

(** Three requests arrive at once, as [batch] enqueues them. *)
Definition three_requests : list TranslateQueue.input :=
  [TranslateQueue.Enqueue (TranslateQueue.Task "Hello" 0);
   TranslateQueue.Enqueue (TranslateQueue.Task "World" 1);
   TranslateQueue.Enqueue (TranslateQueue.Task "Again" 2)].


(* ===================================================================== *)
(** ** The writes of a translation pass on one element *)
(* ===================================================================== *)

(** The attributes [translateAttributes] translates: [attrPairs] holds
    [[el, 'title']] and [[el, 'aria-label']] only. *)
Inductive attr_name : Type :=
| Title
| AriaLabel.

Definition attr_string (a : attr_name) : string :=
  match a with
  | Title => "title"
  | AriaLabel => "aria-label"
  end.

(** [if (mode === 'tooltip') { if (attr === 'title')
    el.setAttribute('title', dst); if (attr === 'aria-label')
    el.setAttribute('aria-label', dst); } else { el.setAttribute(attr, dst); }
    el.setAttribute('data-autotranslated', 'true');] of
    [translateAttributes]. *)
Definition write_attribute (el : Dom.element) (attr : attr_name) (dst mode : string)
    : Dom.element :=
  let el1 :=
    if String.eqb mode "tooltip" then
      let e1 := if String.eqb (attr_string attr) "title"
                then Dom.setAttribute "title" dst el else el in
      if String.eqb (attr_string attr) "aria-label"
      then Dom.setAttribute "aria-label" dst e1 else e1
    else Dom.setAttribute (attr_string attr) dst el in
  Dom.setAttribute "data-autotranslated" "true" el1.

(** What a pass writes on an element: [render] of [translateElements], or
    the attribute write of [translateAttributes]. *)
Inductive dom_write : Type :=
| RenderText (src dst mode : string)
| RenderAttribute (attr : attr_name) (dst mode : string).

Definition apply_write (w : dom_write) (el : Dom.element) : Dom.element :=
  match w with
  | RenderText src dst mode => render el src dst mode
  | RenderAttribute attr dst mode => write_attribute el attr dst mode
  end.

(** One pass over an element: [this.snapshotElement(el)] when its text is
    collected, then the write when the translation is back.  The state is
    the element and its entry in [this.originalText]. *)
Definition pass (st : Dom.element * option Dom.snapshot) (w : dom_write)
    : Dom.element * option Dom.snapshot :=
  (apply_write w st.1, snapshotElement st.1 st.2).

(** The value a write gives to the attribute [a], if it sets it. *)
Definition writes (w : dom_write) (a : string) : option string :=
  match w with
  | RenderText _ dst mode =>
      if String.eqb mode "tooltip" && String.eqb a "title" then Some dst else None
  | RenderAttribute attr dst _ =>
      if String.eqb a (attr_string attr) then Some dst else None
  end.

(** The last value the writes [ws] give to the attribute [a]. *)
Definition written (ws : list dom_write) (a : string) : option string :=
  foldl (fun acc w => match writes w a with Some v => Some v | None => acc end) None ws.

(** [const dst = out[i] || src] *)
Definition dst_text (out_i : JS.val) (src : string) : string :=
  match JS.or out_i (JS.str src) with
  | JS.str s => s
  | _ => src
  end.

(** A target of [translateElements] when the translations are back: the
    element, whether it now lies under [data-autotrans-ignore], its
    collected text and its result [out[i]]. *)
Record target : Type := Target {
  t_el : Dom.element;
  t_ignored : bool;
  t_src : string;
  t_out : JS.val
}.

(** [for (let i = 0; i < targets.length; i++) { if (gen !==
    this.generation) return; const el = targets[i]; if
    (el.closest('[data-autotrans-ignore]')) continue; const src = texts[i];
    const dst = out[i] || src; this.render(el, src, dst, mode); }]: the
    elements afterwards. *)
Fixpoint render_results (gen generation : Z) (mode : string) (targets : list target)
    : list Dom.element :=
  match targets with
  | [] => []
  | t :: ts =>
      if negb (gen =? generation) then t_el <$> targets
      else (if t_ignored t then t_el t
            else render (t_el t) (t_src t) (dst_text (t_out t) (t_src t)) mode)
           :: render_results gen generation mode ts
  end.

(** A button with a label and no tooltip of its own. *)
Definition plain_button : Dom.element :=
  Dom.Element "Save" {[ "class" := "mod-cta" ]}.






(* ===================================================================== *)
(** * Properties *)
(* ===================================================================== *)

(** ** The [Map] primitives *)

Section MapFacts.

Implicit Types (k : string) (v : JS.val) (m : LRU.entries).

Lemma Map_has_true k m : LRU.Map_has k m = true <-> k ∈ m.*1.
Proof. unfold LRU.Map_has. apply bool_decide_eq_true. Qed.

Lemma Map_has_false k m : LRU.Map_has k m = false <-> k ∉ m.*1.
Proof. unfold LRU.Map_has. apply bool_decide_eq_false. Qed.

Lemma Map_delete_notin k m : k ∉ m.*1 -> LRU.Map_delete k m = m.
Proof.
  unfold LRU.Map_delete. induction m as [|[k' v'] m IH]; intros Hk; [done|].
  rewrite fmap_cons, not_elem_of_cons in Hk. simpl in Hk. destruct Hk as [Hne Hk].
  rewrite filter_cons_True by (simpl; congruence). by rewrite IH.
Qed.

Lemma Map_delete_keys k m :
  (LRU.Map_delete k m).*1 = filter (fun k' => k' ≠ k) m.*1.
Proof.
  unfold LRU.Map_delete. induction m as [|[k' v'] m IH]; [done|].
  rewrite filter_cons, fmap_cons, filter_cons. simpl.
  destruct (decide (k' ≠ k)); [|exact IH].
  rewrite fmap_cons. simpl. by rewrite IH.
Qed.

Lemma Map_delete_gone k m : k ∉ (LRU.Map_delete k m).*1.
Proof. rewrite Map_delete_keys, list_elem_of_filter. tauto. Qed.

Lemma Map_delete_elem k k' m :
  k' ∈ (LRU.Map_delete k m).*1 <-> k' ≠ k ∧ k' ∈ m.*1.
Proof. by rewrite Map_delete_keys, list_elem_of_filter. Qed.

Lemma Map_delete_NoDup k m : NoDup m.*1 -> NoDup (LRU.Map_delete k m).*1.
Proof. intros H. rewrite Map_delete_keys. by apply NoDup_filter. Qed.

Lemma Map_delete_length k m : (length (LRU.Map_delete k m) <= length m)%nat.
Proof. apply length_filter. Qed.

Lemma Map_delete_head k v m :
  k ∉ m.*1 -> LRU.Map_delete k ((k, v) :: m) = m.
Proof.
  intros Hk. unfold LRU.Map_delete. rewrite filter_cons_False by (simpl; tauto).
  by apply Map_delete_notin.
Qed.

Lemma Map_set_notin k v m : k ∉ m.*1 -> LRU.Map_set k v m = m ++ [(k, v)].
Proof.
  induction m as [|[k' v'] m IH]; intros Hk; [done|].
  rewrite fmap_cons, not_elem_of_cons in Hk. simpl in Hk. destruct Hk as [Hne Hk].
  simpl. destruct (decide (k' = k)); [congruence|]. by rewrite IH.
Qed.

Lemma Map_get_app_notin k m m' : k ∉ m.*1 -> LRU.Map_get k (m ++ m') = LRU.Map_get k m'.
Proof.
  induction m as [|[k' v'] m IH]; intros Hk; [done|].
  rewrite fmap_cons, not_elem_of_cons in Hk. simpl in Hk. destruct Hk as [Hne Hk].
  simpl. destruct (decide (k' = k)); [congruence|]. by apply IH.
Qed.

Lemma Map_get_app_in k m m' : k ∈ m.*1 -> LRU.Map_get k (m ++ m') = LRU.Map_get k m.
Proof.
  induction m as [|[k' v'] m IH]; intros Hk; [by apply elem_of_nil in Hk|].
  simpl. destruct (decide (k' = k)); [done|].
  rewrite fmap_cons, elem_of_cons in Hk. destruct Hk as [Hk|Hk]; [simpl in Hk; congruence|].
  by apply IH.
Qed.

Lemma Map_get_notin k m : k ∉ m.*1 -> LRU.Map_get k m = JS.undefined.
Proof.
  induction m as [|[k' v'] m IH]; intros Hk; [done|].
  rewrite fmap_cons, not_elem_of_cons in Hk. simpl in Hk. destruct Hk as [Hne Hk].
  simpl. destruct (decide (k' = k)); [congruence|]. by apply IH.
Qed.

Lemma Map_get_elem k v m : NoDup m.*1 -> (k, v) ∈ m -> LRU.Map_get k m = v.
Proof.
  induction m as [|[k' v'] m IH]; intros Hnd Hin; [by apply elem_of_nil in Hin|].
  rewrite fmap_cons in Hnd. apply NoDup_cons in Hnd as [Hk' Hnd].
  simpl. apply elem_of_cons in Hin as [Heq|Hin].
  - inversion Heq; subst. by rewrite decide_True.
  - destruct (decide (k' = k)) as [->|]; [|by apply IH].
    exfalso. apply Hk'. simpl. apply list_elem_of_fmap. by exists (k, v).
Qed.

Lemma Map_get_delete_ne k k' m :
  k' ≠ k -> LRU.Map_get k' (LRU.Map_delete k m) = LRU.Map_get k' m.
Proof.
  intros Hne. unfold LRU.Map_delete. induction m as [|[k0 v0] m IH]; [done|].
  destruct (decide (k0 = k)) as [->|Hk0].
  - rewrite filter_cons_False by (simpl; tauto). simpl.
    destruct (decide (k = k')); [congruence|]. exact IH.
  - rewrite filter_cons_True by (simpl; congruence). simpl.
    destruct (decide (k0 = k')); [done|]. exact IH.
Qed.

End MapFacts.

(** ** [LRU.get] and [LRU.set] in closed form *)

Section LRUFacts.

Implicit Types (k : string) (v : JS.val) (c : LRU.t).

Lemma set_limit k v c : LRU.limit (LRU.set k v c) = LRU.limit c.
Proof.
  unfold LRU.set. destruct (_ >? _); [|done]. by destruct (head _).
Qed.

Lemma get_limit k c : LRU.limit (LRU.get k c).1 = LRU.limit c.
Proof. unfold LRU.get. by destruct (LRU.Map_has _ _). Qed.

Lemma set_map k v c :
  LRU.wf c ->
  LRU.map (LRU.set k v c)
  = evict (LRU.limit c) (LRU.Map_delete k (LRU.map c) ++ [(k, v)]).
Proof.
  intros Hwf. unfold LRU.set, evict.
  assert (Hm2 : LRU.Map_set k v
            (if LRU.Map_has k (LRU.map c) then LRU.Map_delete k (LRU.map c)
             else LRU.map c)
          = LRU.Map_delete k (LRU.map c) ++ [(k, v)]).
  { destruct (LRU.Map_has k (LRU.map c)) eqn:Hh.
    - apply Map_set_notin, Map_delete_gone.
    - apply Map_has_false in Hh. rewrite (Map_delete_notin _ _ Hh).
      by apply Map_set_notin. }
  rewrite Hm2. destruct (_ >? _); [|done].
  assert (Hnd : NoDup (LRU.Map_delete k (LRU.map c) ++ [(k, v)]).*1).
  { rewrite fmap_app. apply NoDup_app. split; [by apply Map_delete_NoDup|].
    split; [|apply NoDup_singleton].
    intros x Hx Hx'. apply list_elem_of_singleton in Hx'. simpl in Hx'. subst x.
    by apply Map_delete_gone in Hx. }
  destruct (LRU.Map_delete k (LRU.map c) ++ [(k, v)]) as [|[f vf] m2]; [done|].
  simpl. rewrite fmap_cons in Hnd. apply NoDup_cons in Hnd as [Hf _].
  by rewrite Map_delete_head.
Qed.

Lemma get_hit k c :
  k ∈ (LRU.map c).*1 ->
  LRU.get k c
  = (LRU.mk (LRU.limit c)
       (LRU.Map_delete k (LRU.map c) ++ [(k, LRU.Map_get k (LRU.map c))]),
     LRU.Map_get k (LRU.map c)).
Proof.
  intros Hk. unfold LRU.get. apply Map_has_true in Hk. rewrite Hk.
  by rewrite Map_set_notin by apply Map_delete_gone.
Qed.

Lemma get_miss k c : k ∉ (LRU.map c).*1 -> LRU.get k c = (c, JS.undefined).
Proof. intros Hk. unfold LRU.get. apply Map_has_false in Hk. by rewrite Hk. Qed.

Lemma evict_NoDup l (m : LRU.entries) : NoDup m.*1 -> NoDup (evict l m).*1.
Proof.
  intros H. unfold evict. destruct (_ >? _); [|done].
  destruct m; [done|]. rewrite fmap_cons in H. by apply NoDup_cons in H as [_ H].
Qed.

Lemma fresh_entry_NoDup k v (m : LRU.entries) :
  NoDup m.*1 -> NoDup (LRU.Map_delete k m ++ [(k, v)]).*1.
Proof.
  intros H. rewrite fmap_app. apply NoDup_app. split; [by apply Map_delete_NoDup|].
  split; [|apply NoDup_singleton].
  intros x Hx Hx'. apply list_elem_of_singleton in Hx'. simpl in Hx'. subst x.
  by apply Map_delete_gone in Hx.
Qed.

Lemma set_wf k v c : LRU.wf c -> LRU.wf (LRU.set k v c).
Proof.
  intros H. unfold LRU.wf. rewrite set_map by done.
  by apply evict_NoDup, fresh_entry_NoDup.
Qed.

Lemma get_wf k c : LRU.wf c -> LRU.wf (LRU.get k c).1.
Proof.
  intros H. destruct (decide (k ∈ (LRU.map c).*1)) as [Hk|Hk].
  - rewrite get_hit by done. simpl. unfold LRU.wf. simpl. by apply fresh_entry_NoDup.
  - by rewrite get_miss.
Qed.

Lemma new_wf l : LRU.wf (LRU.new l).
Proof. unfold LRU.wf, LRU.new. simpl. constructor. Qed.

(** Inserting fresh, distinct keys while there is room appends them. *)
Lemma set_all_room (kvs : list (string * JS.val)) c :
  LRU.wf c ->
  NoDup kvs.*1 ->
  (forall k, k ∈ kvs.*1 -> k ∉ (LRU.map c).*1) ->
  Z.of_nat (length (LRU.map c) + length kvs) <= LRU.limit c ->
  LRU.map (set_all kvs c) = LRU.map c ++ kvs
  ∧ LRU.limit (set_all kvs c) = LRU.limit c.
Proof.
  revert c. induction kvs as [|[k v] kvs IH]; intros c Hwf Hnd Hdisj Hroom.
  { simpl. by rewrite app_nil_r. }
  rewrite fmap_cons in Hnd. apply NoDup_cons in Hnd as [Hk Hnd]. simpl in Hk.
  assert (Hkc : k ∉ (LRU.map c).*1) by (apply Hdisj; rewrite fmap_cons; left).
  assert (Hstep : LRU.map (LRU.set k v c) = LRU.map c ++ [(k, v)]).
  { rewrite set_map by done. rewrite Map_delete_notin by done. unfold evict.
    rewrite length_app. simpl in *.
    destruct (Z.gtb_spec (Z.of_nat (length (LRU.map c) + 1)) (LRU.limit c)); [lia|done]. }
  unfold set_all. simpl. fold (set_all kvs (LRU.set k v c)).
  destruct (IH (LRU.set k v c)) as [IH1 IH2].
  - by apply set_wf.
  - done.
  - intros k' Hk'. rewrite Hstep, fmap_app, elem_of_app. intros [Hin|Hin].
    + revert Hin. apply Hdisj. rewrite fmap_cons. by right.
    + apply list_elem_of_singleton in Hin. simpl in Hin. by subst k'.
  - rewrite Hstep, set_limit, length_app. simpl in *. lia.
  - rewrite IH1, IH2, Hstep, set_limit. by rewrite <- app_assoc.
Qed.

End LRUFacts.

(** Closes a decidable, closed proposition by evaluation. *)
Ltac by_evaluation :=
  match goal with |- ?P => apply (bool_decide_unpack P); vm_compute; exact I end.

(** ** The memory cache evicts the least recently used key *)

Section Eviction.

Implicit Types (k : string) (v : JS.val) (c : LRU.t).

Lemma Map_delete_length_in k (m : LRU.entries) :
  NoDup m.*1 -> k ∈ m.*1 -> S (length (LRU.Map_delete k m)) = length m.
Proof.
  unfold LRU.Map_delete. induction m as [|[k' v'] m IH]; intros Hnd Hk.
  { by apply elem_of_nil in Hk. }
  rewrite fmap_cons in Hnd, Hk. simpl in *. apply NoDup_cons in Hnd as [Hk' Hnd].
  destruct (decide (k' = k)) as [->|Hne].
  - rewrite filter_cons_False by (simpl; tauto).
    fold (LRU.Map_delete k m). by rewrite Map_delete_notin.
  - rewrite filter_cons_True by (simpl; congruence). simpl. f_equal.
    apply IH; [done|]. apply elem_of_cons in Hk as [Hk|Hk]; [congruence|done].
Qed.

(** A cache at capacity loses exactly its oldest entry to a new key. *)
Lemma set_at_capacity k v c :
  LRU.wf c ->
  0 < LRU.limit c ->
  Z.of_nat (length (LRU.map c)) = LRU.limit c ->
  k ∉ (LRU.map c).*1 ->
  LRU.map (LRU.set k v c) = tail (LRU.map c) ++ [(k, v)].
Proof.
  intros Hwf Hpos Hfull Hk. rewrite set_map by done.
  rewrite Map_delete_notin by done. unfold evict. rewrite length_app. simpl.
  destruct (Z.gtb_spec (Z.of_nat (length (LRU.map c) + 1)) (LRU.limit c)); [|lia].
  destruct (LRU.map c); [simpl in *; lia|done].
Qed.

End Eviction.

(** C7 (amended). From a fresh memory cache of capacity [c > 0], inserting
    [c] distinct keys evicts nothing, and the [(c+1)]-th distinct key evicts
    exactly one entry, the oldest.  A [get] of a cached key returns its
    value and moves it to the most recent position; when [c >= 2] that key
    survives the [(c+1)]-th insert, which then evicts the oldest of the
    others. *)
Theorem lru_evicts_least_recent (c : Z) (kvs : list (string * JS.val))
    (k : string) (v : JS.val) :
  0 < c ->
  Z.of_nat (length kvs) = c ->
  NoDup kvs.*1 ->
  k ∉ kvs.*1 ->
  LRU.map (set_all kvs (LRU.new (Some c))) = kvs
  ∧ LRU.map (LRU.set k v (set_all kvs (LRU.new (Some c)))) = tail kvs ++ [(k, v)]
  ∧ forall k' v', (k', v') ∈ kvs ->
      (LRU.get k' (set_all kvs (LRU.new (Some c)))).2 = v'
      ∧ LRU.map (LRU.get k' (set_all kvs (LRU.new (Some c)))).1
        = LRU.Map_delete k' kvs ++ [(k', v')]
      ∧ (2 <= c ->
         LRU.map (LRU.set k v (LRU.get k' (set_all kvs (LRU.new (Some c)))).1)
         = tail (LRU.Map_delete k' kvs ++ [(k', v')]) ++ [(k, v)]
         ∧ LRU.has k' (LRU.set k v (LRU.get k' (set_all kvs (LRU.new (Some c)))).1)
           = true).
Proof.
  intros Hpos Hlen Hnd Hk.
  destruct (set_all_room kvs (LRU.new (Some c))) as [Hmap Hlim].
  { apply new_wf. }
  { done. }
  { intros k' _ Hin. by apply elem_of_nil in Hin. }
  { simpl. lia. }
  simpl in Hmap, Hlim.
  set (full := set_all kvs (LRU.new (Some c))) in *.
  assert (Hwf : LRU.wf full) by (unfold LRU.wf; by rewrite Hmap).
  split; [done|]. split.
  { rewrite set_at_capacity; rewrite ?Hmap, ?Hlim; done || lia. }
  intros k' v' Hin.
  assert (Hk' : k' ∈ kvs.*1) by (apply list_elem_of_fmap; by exists (k', v')).
  rewrite get_hit by (by rewrite Hmap). simpl. rewrite Hmap.
  rewrite (Map_get_elem k' v' kvs) by done.
  split; [done|]. split; [done|]. intros Hc2.
  pose proof (Map_delete_length_in k' kvs Hnd Hk') as Hdl.
  set (c' := LRU.mk (LRU.limit full)
               (LRU.Map_delete k' kvs ++ [(k', v')])).
  assert (Hwf' : LRU.wf c') by (unfold LRU.wf; simpl; by apply fresh_entry_NoDup).
  assert (Hkc' : k ∉ (LRU.map c').*1).
  { simpl. rewrite fmap_app, elem_of_app, Map_delete_elem. simpl.
    intros [[_ H]|H]; [done|]. apply list_elem_of_singleton in H. subst k.
    by apply Hk. }
  assert (Hmap' : LRU.map (LRU.set k v c')
                  = tail (LRU.Map_delete k' kvs ++ [(k', v')]) ++ [(k, v)]).
  { rewrite set_at_capacity; try done; simpl; rewrite ?Hlim; [lia|].
    rewrite length_app. simpl. lia. }
  split; [done|].
  unfold LRU.has. rewrite Hmap'. apply Map_has_true.
  destruct (LRU.Map_delete k' kvs) as [|e rest] eqn:Hd; [simpl in Hdl; lia|].
  simpl. rewrite !fmap_app, !elem_of_app. left. right. simpl.
  by apply list_elem_of_singleton.
Qed.

(** The theorem at capacity 2 with keys [a], [b] and the new key [c]. *)
Lemma lru_evicts_least_recent_witness :
  LRU.map (LRU.set "c" (JS.str "C") (set_all c7_entries (LRU.new (Some 2))))
  = [("b", JS.str "B"); ("c", JS.str "C")]
  ∧ LRU.has "a"
      (LRU.set "c" (JS.str "C")
         (LRU.get "a" (set_all c7_entries (LRU.new (Some 2)))).1) = true.
Proof.
  destruct (lru_evicts_least_recent 2 c7_entries "c" (JS.str "C"))
    as (_ & Hset & Hget).
  - lia.
  - reflexivity.
  - by_evaluation.
  - by_evaluation.
  - split; [exact Hset|].
    destruct (Hget "a" (JS.str "A")) as (_ & _ & Hkeep).
    + by_evaluation.
    + apply Hkeep. lia.
Defined.

(** C7 as stated fails at capacity 1: the only key is read with [get] and
    is evicted all the same by the second insert. *)
Lemma lru_capacity_one_get_does_not_protect :
  LRU.limit (LRU.new (Some 1)) = 1
  ∧ (LRU.get "a" (LRU.set "a" (JS.str "A") (LRU.new (Some 1)))).2 = JS.str "A"
  ∧ LRU.has "a"
      (LRU.set "b" (JS.str "B")
         (LRU.get "a" (LRU.set "a" (JS.str "A") (LRU.new (Some 1)))).1) = false
  ∧ LRU.map
      (LRU.set "b" (JS.str "B")
         (LRU.get "a" (LRU.set "a" (JS.str "A") (LRU.new (Some 1)))).1)
    = [("b", JS.str "B")].
Proof. repeat split; vm_compute; reflexivity. Qed.

(** ** [DiskCache.flush] and the dirty flag *)

(** C2 as stated fails: the store is dirty, the write fails, and the flag
    is clear afterwards; the next flush, whose write would succeed, writes
    nothing. *)
Lemma flush_failure_clears_dirty :
  DiskCache.dirty c2_store = true
  ∧ (DiskCache.flush false c2_store).2
    = [DiskCache.Write "" {[ "k" := JS.str "v" ]};
       DiskCache.ConsoleError "cache write fail"]
  ∧ DiskCache.dirty (DiskCache.flush false c2_store).1 = false
  ∧ (DiskCache.flush true (DiskCache.flush false c2_store).1).2 = []
  ∧ (DiskCache.timer_fires true (DiskCache.flush false c2_store).1).2 = [].
Proof. repeat split; reflexivity. Qed.

(** C2 (amended). [flush()] does nothing when the store is not dirty.
    When the store is dirty it clears the flag and attempts one write of
    the whole mapping; the flag is clear afterwards whether the write
    succeeds or fails (a failure is only logged), so that a flush that
    follows writes nothing until a [set] marks the store dirty again. *)
Theorem flush_clears_dirty_before_write (write_ok : bool) (d : DiskCache.t) :
  (DiskCache.dirty d = false -> DiskCache.flush write_ok d = (d, []))
  ∧ (DiskCache.dirty d = true ->
     (DiskCache.flush write_ok d).2
     = DiskCache.Write (DiskCache.path d) (DiskCache.map d)
         :: (if write_ok then [] else [DiskCache.ConsoleError "cache write fail"]))
  ∧ DiskCache.dirty (DiskCache.flush write_ok d).1 = false
  ∧ DiskCache.map (DiskCache.flush write_ok d).1 = DiskCache.map d
  ∧ (forall write_ok',
       DiskCache.flush write_ok' (DiskCache.flush write_ok d).1
       = ((DiskCache.flush write_ok d).1, []))
  ∧ (forall k v,
       DiskCache.dirty (DiskCache.set k v (DiskCache.flush write_ok d).1) = true).
Proof.
  unfold DiskCache.flush. destruct d as [m [|] p t]; simpl; repeat split; intros; try done.
Qed.

Lemma flush_clears_dirty_before_write_witness :
  DiskCache.flush true DiskCache.new = (DiskCache.new, [])
  ∧ (DiskCache.flush false c2_store).2
    = [DiskCache.Write "" (DiskCache.map c2_store);
       DiskCache.ConsoleError "cache write fail"].
Proof.
  split.
  - destruct (flush_clears_dirty_before_write true DiskCache.new) as [Hclean _].
    apply Hclean. reflexivity.
  - destruct (flush_clears_dirty_before_write false c2_store) as (_ & Hdirty & _).
    apply Hdirty. reflexivity.
Defined.

(** ** The cache-size field *)

(** C3, the code at a negative input.  Whatever [Number(v)] yields, the
    handler installs [Number(v) || 5000]: [NaN] and [0] become [5000], and
    a negative number is installed as it is, after which every [set]
    leaves the memory cache empty.  The fields next to it clamp the same
    input to [1]. *)
Theorem cacheLimit_onChange_keeps_negative (v : string) (n0 : Num.num) (P : Plugin) :
  Num.Number v = Some n0 ->
  exists P',
    cacheLimit_onChange v P = Some P'
    ∧ LRU.limit (lru P') = Num.or n0 5000
    ∧ Settings.cacheLimit (settings P') = Num.or n0 5000
    ∧ LRU.map (lru P') = []
    ∧ (n0 = Num.NaN ∨ n0 = Num.Int 0 -> LRU.limit (lru P') = 5000)
    ∧ (forall z, n0 = Num.Int z -> z < 0 ->
         LRU.limit (lru P') = z
         ∧ (forall k x, LRU.map (LRU.set k x (lru P')) = [])
         ∧ rps_onChange_value v = Some 1
         ∧ batchSize_onChange_value v = Some 1).
Proof.
  intros Hn. unfold cacheLimit_onChange, rps_onChange_value, batchSize_onChange_value.
  rewrite Hn. eexists. split; [reflexivity|]. simpl.
  split; [done|]. split; [done|]. split; [done|]. split.
  - intros [->| ->]; reflexivity.
  - intros z -> Hz. simpl.
    destruct (Z.eqb_spec z 0) as [->|_]; [lia|].
    rewrite !Z.max_l by lia. split; [done|]. split; [|done].
    intros k x. rewrite set_map by apply new_wf. simpl. unfold evict. simpl.
    destruct (Z.gtb_spec (Z.of_nat 1) z); [done|lia].
Qed.

Lemma cacheLimit_onChange_keeps_negative_witness :
  Num.Number "-5" = Some (Num.Int (-5))
  ∧ exists P',
      cacheLimit_onChange "-5" c3_plugin = Some P'
      ∧ LRU.limit (lru P') = -5
      ∧ LRU.map (LRU.set "k" (JS.str "v") (lru P')) = []
      ∧ rps_onChange_value "-5" = Some 1.
Proof.
  split; [reflexivity|].
  destruct (cacheLimit_onChange_keeps_negative "-5" (Num.Int (-5)) c3_plugin)
    as (P' & HP' & _ & _ & _ & _ & Hneg).
  - reflexivity.
  - destruct (Hneg (-5)) as (Hl & Hempty & Hrps & _); [reflexivity|lia|].
    exists P'. split; [exact HP'|]. split; [exact Hl|].
    split; [apply Hempty|exact Hrps].
Defined.

(** ** Fingerprints *)

Section Fingerprint.

Lemma append_bar_inj (a a' r r' : string) :
  no_bar a = true -> no_bar a' = true ->
  a +:+ "|" +:+ r = a' +:+ "|" +:+ r' -> a = a' ∧ r = r'.
Proof.
  revert a'. induction a as [|x a IH]; intros [|x' a'] Ha Ha' Heq; simpl in *.
  - by inversion Heq.
  - inversion Heq; subst x'. by rewrite Ascii.eqb_refl in Ha'.
  - inversion Heq; subst x. by rewrite Ascii.eqb_refl in Ha.
  - inversion Heq; subst x'.
    apply andb_prop in Ha as [_ Ha]. apply andb_prop in Ha' as [_ Ha'].
    destruct (IH a' Ha Ha') as [-> ->]; done.
Qed.

Lemma encode_inj (p s t x p' s' t' x' : string) :
  no_bar p = true -> no_bar s = true -> no_bar t = true ->
  no_bar p' = true -> no_bar s' = true -> no_bar t' = true ->
  encode p s t x = encode p' s' t' x' ->
  (p, s, t, x) = (p', s', t', x').
Proof.
  intros Hp Hs Ht Hp' Hs' Ht' Heq. unfold encode in Heq. simpl in Heq.
  apply append_bar_inj in Heq as [-> Heq]; [|done..].
  apply append_bar_inj in Heq as [-> Heq]; [|done..].
  apply append_bar_inj in Heq as [-> ->]; done.
Qed.

End Fingerprint.

(** C5 as stated fails: the separator is not unambiguous.  Two tuples that
    differ in the target language and in the text have the same pre-hash
    encoding, hence the same fingerprint. *)
Lemma encode_not_injective :
  ("azure", "auto", "ko|x", "y") ≠ ("azure", "auto", "ko", "x|y")
  ∧ encode "azure" "auto" "ko|x" "y" = encode "azure" "auto" "ko" "x|y"
  ∧ fingerprint "azure" "auto" "ko|x" "y" = fingerprint "azure" "auto" "ko" "x|y".
Proof. split; [discriminate|]. split; reflexivity. Qed.

(** C5 (amended). The fingerprint is a function of the four fields.  For
    two tuples whose provider, source language and target language hold no
    ['|'] and that differ in at least one of the four fields, the pre-hash
    encodings are distinct, so equal fingerprints are a collision of
    [sha1]. *)
Theorem fingerprint_deterministic_and_separated (p s t x p' s' t' x' : string) :
  no_bar p = true -> no_bar s = true -> no_bar t = true ->
  no_bar p' = true -> no_bar s' = true -> no_bar t' = true ->
  ((p, s, t, x) = (p', s', t', x') -> fingerprint p s t x = fingerprint p' s' t' x')
  ∧ ((p, s, t, x) ≠ (p', s', t', x') ->
     encode p s t x ≠ encode p' s' t' x'
     ∧ (fingerprint p s t x = fingerprint p' s' t' x' ->
        encode p s t x ≠ encode p' s' t' x'
        ∧ sha1 (encode p s t x) = sha1 (encode p' s' t' x'))).
Proof.
  intros Hp Hs Ht Hp' Hs' Ht'. split.
  - intros Heq. by inversion Heq.
  - intros Hne.
    assert (Henc : encode p s t x ≠ encode p' s' t' x').
    { intros Heq. apply Hne. by apply encode_inj. }
    split; [done|]. intros Hfp. split; [done|exact Hfp].
Qed.

Lemma fingerprint_deterministic_and_separated_witness :
  encode "azure" "auto" "ko" "x|y" ≠ encode "azure" "auto" "ja" "x|y"
  ∧ fingerprint "azure" "auto" "ko" "x|y" ≠ fingerprint "azure" "auto" "ja" "x|y".
Proof.
  destruct (fingerprint_deterministic_and_separated
              "azure" "auto" "ko" "x|y" "azure" "auto" "ja" "x|y")
    as [_ Hsep]; try reflexivity.
  destruct Hsep as [Henc _]; [discriminate|].
  split; [exact Henc|]. vm_compute. discriminate.
Defined.

(** ** The lookup loop of [translateMany] *)

Section MemFacts.

Implicit Types (k : string) (v : JS.val) (c : LRU.t).

Lemma Map_get_refresh k v k' (m : LRU.entries) :
  LRU.Map_get k' (LRU.Map_delete k m ++ [(k, v)])
  = if decide (k' = k) then v else LRU.Map_get k' m.
Proof.
  destruct (decide (k' = k)) as [->|Hne].
  - rewrite Map_get_app_notin by apply Map_delete_gone. simpl. by rewrite decide_True.
  - destruct (decide (k' ∈ (LRU.Map_delete k m).*1)) as [Hin|Hnin].
    + rewrite Map_get_app_in by done. by apply Map_get_delete_ne.
    + rewrite Map_get_app_notin by done. simpl.
      rewrite decide_False by congruence.
      symmetry. apply Map_get_notin. intros Hin. apply Hnin.
      by apply Map_delete_elem.
Qed.

Lemma Map_get_tail k (m : LRU.entries) :
  NoDup m.*1 ->
  LRU.Map_get k (tail m) = LRU.Map_get k m ∨ LRU.Map_get k (tail m) = JS.undefined.
Proof.
  destruct m as [|[k0 v0] m]; [by left|]. intros Hnd.
  rewrite fmap_cons in Hnd. apply NoDup_cons in Hnd as [Hk0 _]. simpl in *.
  destruct (decide (k0 = k)) as [->|]; [|by left].
  right. by apply Map_get_notin.
Qed.

Lemma get_value k c : (LRU.get k c).2 = mem c k.
Proof.
  unfold mem. destruct (decide (k ∈ (LRU.map c).*1)).
  - by rewrite get_hit.
  - rewrite get_miss by done. simpl. symmetry. by apply Map_get_notin.
Qed.

Lemma get_mem k k' c : mem (LRU.get k c).1 k' = mem c k'.
Proof.
  unfold mem. destruct (decide (k ∈ (LRU.map c).*1)).
  - rewrite get_hit by done. simpl. rewrite Map_get_refresh.
    by destruct (decide (k' = k)) as [->|].
  - by rewrite get_miss.
Qed.

Lemma get_length k c :
  LRU.wf c -> length (LRU.map (LRU.get k c).1) = length (LRU.map c).
Proof.
  intros Hwf. destruct (decide (k ∈ (LRU.map c).*1)) as [Hk|Hk].
  - rewrite get_hit by done. simpl. rewrite length_app. simpl.
    pose proof (Map_delete_length_in k _ Hwf Hk). lia.
  - by rewrite get_miss.
Qed.

Lemma set_mem_cases k v k' c :
  LRU.wf c ->
  mem (LRU.set k v c) k' = JS.undefined
  ∨ mem (LRU.set k v c) k' = (if decide (k' = k) then v else mem c k').
Proof.
  intros Hwf. unfold mem. rewrite set_map by done. unfold evict.
  destruct (_ >? _).
  - destruct (Map_get_tail k' (LRU.Map_delete k (LRU.map c) ++ [(k, v)])) as [H|H].
    + by apply fresh_entry_NoDup.
    + right. by rewrite H, Map_get_refresh.
    + by left.
  - right. apply Map_get_refresh.
Qed.

Lemma set_mem_room k v k' c :
  LRU.wf c ->
  Z.of_nat (length (LRU.map c)) + 1 <= LRU.limit c ->
  mem (LRU.set k v c) k' = (if decide (k' = k) then v else mem c k').
Proof.
  intros Hwf Hroom. unfold mem. rewrite set_map by done. unfold evict.
  pose proof (Map_delete_length k (LRU.map c)).
  destruct (Z.gtb_spec (Z.of_nat (length (LRU.Map_delete k (LRU.map c) ++ [(k, v)])))
                       (LRU.limit c)) as [Hgt|_].
  - rewrite length_app in Hgt. simpl in Hgt. lia.
  - apply Map_get_refresh.
Qed.

Lemma set_length k v c :
  LRU.wf c -> (length (LRU.map (LRU.set k v c)) <= length (LRU.map c) + 1)%nat.
Proof.
  intros Hwf. rewrite set_map by done. unfold evict.
  pose proof (Map_delete_length k (LRU.map c)).
  destruct (_ >? _).
  - destruct (LRU.Map_delete k (LRU.map c)) as [|e rest]; simpl in *; [lia|].
    rewrite length_app. simpl. lia.
  - rewrite length_app. simpl. lia.
Qed.

(** With a positive limit the entry just set is the most recent one. *)
Lemma set_last k v c :
  LRU.wf c -> 0 < LRU.limit c -> last (LRU.map (LRU.set k v c)) = Some (k, v).
Proof.
  intros Hwf Hpos. rewrite set_map by done. unfold evict.
  destruct (Z.gtb_spec (Z.of_nat (length (LRU.Map_delete k (LRU.map c) ++ [(k, v)])))
                       (LRU.limit c)) as [Hgt|_].
  - destruct (LRU.Map_delete k (LRU.map c)) as [|e rest]; [simpl in Hgt; lia|].
    simpl. by rewrite last_snoc.
  - by rewrite last_snoc.
Qed.

Lemma truthy_or a b : JS.truthy (JS.or a b) = JS.truthy a || JS.truthy b.
Proof. unfold JS.or. by destruct (JS.truthy a) eqn:Ha; [rewrite Ha|]. Qed.

End MemFacts.

Section ScanFacts.

Variables (lru0 : LRU.t) (disk : DiskCache.t).

Implicit Types (k : string) (s : scan_state) (i : nat).

Lemma scan_step_eq i k s :
  scan_step disk i k s
  = let cached := JS.or (mem (s_lru s) k) (DiskCache.get k disk) in
    if JS.truthy cached then
      ScanState (LRU.set k cached (LRU.get k (s_lru s)).1)
                (JS.assign (s_out s) i cached) (s_missIdx s)
    else ScanState (LRU.get k (s_lru s)).1 (s_out s) (s_missIdx s ++ [i]).
Proof.
  unfold scan_step. rewrite <- get_value. by destruct (LRU.get k (s_lru s)).
Qed.

Lemma scan_step_inv i k s :
  scan_inv lru0 disk s -> scan_inv lru0 disk (scan_step disk i k s).
Proof.
  intros (Hwf & Hlim & Hprov). rewrite scan_step_eq. cbv zeta.
  destruct (JS.truthy (JS.or (mem (s_lru s) k) (DiskCache.get k disk))) eqn:Ht;
    unfold scan_inv; cbn [s_lru s_out s_missIdx].
  - split; [by apply set_wf, get_wf|]. split; [by rewrite set_limit, get_limit|].
    intros k'. simpl.
    destruct (set_mem_cases k (JS.or (mem (s_lru s) k) (DiskCache.get k disk)) k'
                (LRU.get k (s_lru s)).1) as [H|H]; [by apply get_wf|by left|].
    rewrite H. destruct (decide (k' = k)) as [->|_].
    + unfold JS.or in *. destruct (JS.truthy (mem (s_lru s) k)); [apply Hprov|].
      right. by right.
    + rewrite get_mem. apply Hprov.
  - split; [by apply get_wf|]. split; [by rewrite get_limit|].
    intros k'. simpl. rewrite get_mem. apply Hprov.
Qed.

Lemma scan_inv_preserved keys : forall i s,
  scan_inv lru0 disk s -> scan_inv lru0 disk (scan disk i keys s).
Proof.
  induction keys as [|k keys IH]; intros i s Hs; [done|].
  simpl. by apply IH, scan_step_inv.
Qed.

Lemma scan_inv_init out miss : LRU.wf lru0 -> scan_inv lru0 disk (ScanState lru0 out miss).
Proof. intros Hwf. split; [done|]. split; [done|]. intros k. right. by left. Qed.

Lemma scan_snoc keys k : forall i s,
  scan disk i (keys ++ [k]) s
  = scan_step disk (i + length keys) k (scan disk i keys s).
Proof.
  induction keys as [|k0 keys IH]; intros i s; simpl.
  - by rewrite Nat.add_0_r.
  - rewrite IH. f_equal. lia.
Qed.

(** The loop only appends to [missIdx]. *)
Lemma scan_missIdx_grows keys : forall i s,
  exists new, s_missIdx (scan disk i keys s) = s_missIdx s ++ new
              ∧ Forall (fun j => i <= j < i + length keys)%nat new.
Proof.
  induction keys as [|k keys IH]; intros i s; simpl.
  { exists []. by rewrite app_nil_r. }
  destruct (IH (S i) (scan_step disk i k s)) as (new & Hnew & Hrange).
  rewrite Hnew, scan_step_eq. simpl.
  destruct (JS.truthy _); simpl.
  - exists new. split; [done|]. eapply Forall_impl; [exact Hrange|]. simpl. lia.
  - exists (i :: new). rewrite <- app_assoc. split; [done|].
    constructor; [lia|]. eapply Forall_impl; [exact Hrange|]. simpl. lia.
Qed.

(** The loop keeps the length of [out] and the slots below [i]. *)
Lemma scan_out_length keys : forall i s,
  (i + length keys <= length (s_out s))%nat ->
  length (s_out (scan disk i keys s)) = length (s_out s).
Proof.
  induction keys as [|k keys IH]; intros i s Hlen; [done|].
  simpl in *. rewrite IH.
  - rewrite scan_step_eq. simpl. destruct (JS.truthy _); [|done].
    simpl. unfold JS.assign. rewrite decide_True by lia. apply length_insert.
  - rewrite scan_step_eq. simpl. destruct (JS.truthy _); [|simpl; lia].
    simpl. unfold JS.assign. rewrite decide_True by lia. rewrite length_insert. lia.
Qed.

Lemma scan_out_below keys : forall i s j,
  (i + length keys <= length (s_out s))%nat ->
  (j < i)%nat ->
  s_out (scan disk i keys s) !! j = s_out s !! j.
Proof.
  induction keys as [|k keys IH]; intros i s j Hlen Hj; [done|].
  simpl in *. rewrite IH; [| |lia].
  - rewrite scan_step_eq. simpl. destruct (JS.truthy _); [|done].
    simpl. unfold JS.assign. rewrite decide_True by lia.
    apply list_lookup_insert_ne. lia.
  - rewrite scan_step_eq. simpl. destruct (JS.truthy _); [|simpl; lia].
    simpl. unfold JS.assign. rewrite decide_True by lia. rewrite length_insert. lia.
Qed.

(** A key that neither tier maps to a truthy value is a miss. *)
Lemma scan_miss keys : forall i s j k,
  scan_inv lru0 disk s ->
  keys !! j = Some k ->
  JS.truthy (mem lru0 k) = false ->
  JS.truthy (DiskCache.get k disk) = false ->
  (i + j)%nat ∈ s_missIdx (scan disk i keys s).
Proof.
  induction keys as [|k0 keys IH]; intros i s j k Hinv Hj Hm Hd; [done|].
  destruct j as [|j]; simpl in *.
  - inversion Hj; subst k0.
    destruct (scan_missIdx_grows keys (S i) (scan_step disk i k s)) as (new & -> & _).
    rewrite scan_step_eq. simpl.
    assert (Hfalsy : JS.truthy (JS.or (mem (s_lru s) k) (DiskCache.get k disk)) = false).
    { rewrite truthy_or, Hd, orb_false_r.
      destruct Hinv as (_ & _ & Hprov).
      destruct (Hprov k) as [->|[->|[_ H]]]; [done|done|congruence]. }
    rewrite Hfalsy. simpl. rewrite Nat.add_0_r, !elem_of_app. left. right.
    by apply list_elem_of_singleton.
  - replace (i + S j)%nat with (S i + j)%nat by lia.
    eapply IH; eauto. by apply scan_step_inv.
Qed.

(** A miss is a key the persistent cache maps to no truthy value. *)
Lemma scan_miss_disk keys : forall i s idx,
  idx ∈ s_missIdx (scan disk i keys s) ->
  idx ∈ s_missIdx s
  ∨ exists k, keys !! (idx - i)%nat = Some k ∧ (i <= idx)%nat
              ∧ JS.truthy (DiskCache.get k disk) = false.
Proof.
  induction keys as [|k0 keys IH]; intros i s idx Hin; [by left|].
  simpl in Hin. apply IH in Hin as [Hin|(k & Hk & Hle & Hd)].
  - rewrite scan_step_eq in Hin. simpl in Hin.
    destruct (JS.truthy _) eqn:Ht; simpl in Hin; [by left|].
    apply elem_of_app in Hin as [Hin|Hin]; [by left|].
    apply list_elem_of_singleton in Hin. subst idx. right. exists k0.
    rewrite Nat.sub_diag. split; [done|]. split; [done|].
    rewrite truthy_or in Ht. by apply orb_false_elim in Ht as [_ Ht].
  - right. exists k. replace (idx - i)%nat with (S (idx - S i)) by lia.
    simpl. split; [done|]. split; [lia|done].
Qed.

End ScanFacts.

(** ** [translateMany] and the Provider *)

Section Orchestrator.

Implicit Types (P : Plugin) (texts : list string).

Lemma index_str texts i t :
  JS.index (JS.str <$> texts) i = JS.str t <-> texts !! i = Some t.
Proof.
  unfold JS.index. rewrite list_lookup_fmap.
  destruct (texts !! i); simpl; split; intros H; by inversion H.
Qed.

Lemma translateMany_calls texts P :
  calls (translateMany texts P).1
  = if decide (length (s_missIdx (lookup_of P texts)) = 0%nat) then calls P
    else if Settings.offlineOnly (settings P) then calls P
    else calls P ++ [Call (missTexts_of texts (s_missIdx (lookup_of P texts)))
                          (src_of P) (tgt_of P)].
Proof.
  unfold translateMany.
  change (scan (diskCache P) 0 _ _) with (lookup_of P texts).
  destruct (decide _); [done|].
  destruct (Settings.offlineOnly _); [done|].
  change (_ <$> s_missIdx (lookup_of P texts))
    with (missTexts_of texts (s_missIdx (lookup_of P texts))).
  by destruct (provider P _ _ _ _).
Qed.

(** The misses, read as texts, are a sublist of the texts. *)
Lemma scan_missTexts disk (f : string -> string) (ts : list string) :
  forall i s (pre : list string),
    length pre = i ->
    exists new ms,
      s_missIdx (scan disk i (f <$> ts) s) = s_missIdx s ++ new
      ∧ missTexts_of (pre ++ ts) new = JS.str <$> ms
      ∧ sublist ms ts.
Proof.
  induction ts as [|t ts IH]; intros i s pre Hpre.
  { exists [], []. simpl. by rewrite app_nil_r. }
  rewrite fmap_cons. cbn [scan].
  destruct (IH (S i) (scan_step disk i (f t) s) (pre ++ [t])) as (new & ms & Hnew & Hms & Hsub).
  { rewrite length_app. simpl. lia. }
  rewrite <- app_assoc in Hms. simpl in Hms.
  rewrite Hnew, scan_step_eq. cbv zeta.
  destruct (JS.truthy _); cbn [s_missIdx].
  - exists new, ms. split; [done|]. split; [done|]. by apply sublist_cons.
  - exists (i :: new), (t :: ms). rewrite <- app_assoc. split; [done|].
    split; [|by apply sublist_skip].
    unfold missTexts_of in *. rewrite !fmap_cons, Hms. f_equal.
    apply index_str. rewrite lookup_app_r by lia.
    by rewrite Hpre, Nat.sub_diag.
Qed.

Lemma lookup_missTexts P texts :
  exists ms,
    missTexts_of texts (s_missIdx (lookup_of P texts)) = JS.str <$> ms
    ∧ sublist ms texts
    ∧ length ms = length (s_missIdx (lookup_of P texts)).
Proof.
  destruct (scan_missTexts (diskCache P) (key_of P) texts 0
              (ScanState (lru P) (replicate (length texts) JS.undefined) []) [])
    as (new & ms & Hnew & Hms & Hsub); [done|].
  simpl in Hnew, Hms. exists ms. unfold lookup_of. rewrite Hnew.
  split; [done|]. split; [done|].
  apply (f_equal length) in Hms. unfold missTexts_of in Hms.
  by rewrite !length_fmap in Hms.
Qed.

Lemma lookup_inv P texts :
  LRU.wf (lru P) -> scan_inv (lru P) (diskCache P) (lookup_of P texts).
Proof. intros Hwf. by apply scan_inv_preserved, scan_inv_init. Qed.

(** An uncached text is among the misses. *)
Lemma uncached_is_miss P texts i t :
  LRU.wf (lru P) ->
  texts !! i = Some t ->
  uncached P (key_of P t) ->
  i ∈ s_missIdx (lookup_of P texts).
Proof.
  intros Hwf Ht [Hm Hd].
  apply (scan_miss (lru P) (diskCache P) (key_of P <$> texts) 0 _ i (key_of P t));
    [by apply scan_inv_init| |done|done].
  by rewrite list_lookup_fmap, Ht.
Qed.

(** A miss is a text the persistent cache has no truthy value for. *)
Lemma miss_not_on_disk P texts i :
  i ∈ s_missIdx (lookup_of P texts) ->
  exists t, texts !! i = Some t
            ∧ JS.truthy (DiskCache.get (key_of P t) (diskCache P)) = false.
Proof.
  intros Hin. apply scan_miss_disk in Hin as [Hin|(k & Hk & _ & Hd)].
  { by apply elem_of_nil in Hin. }
  rewrite Nat.sub_0_r, list_lookup_fmap in Hk.
  destruct (texts !! i) as [t|]; [|done]. inversion Hk; subst k. by exists t.
Qed.

End Orchestrator.

(** C1 as stated fails: [translateMany] hands the missing text to the
    Provider itself. *)
Lemma translateMany_invokes_provider :
  calls c1_plugin = []
  ∧ calls (translateMany ["Hello"] c1_plugin).1 = [Call [JS.str "Hello"] "auto" "ko"]
  ∧ (translateMany ["Hello"] c1_plugin).2 = [JS.str "annyeong"].
Proof. repeat split; vm_compute; reflexivity. Qed.

(** C1 (amended). [translateMany] makes no [batch()] call; it hands the
    texts that miss, in their relative order, to the Provider in one
    direct invocation (none when there is no miss or in offline mode).
    Every text that neither tier maps to a truthy value is among them, and
    none of them has a truthy value in the persistent cache.  The
    dispatcher is the caller: it invokes [translateMany] with the texts of
    each batch. *)
Theorem translateMany_calls_provider_once (texts : list string) (P : Plugin) :
  LRU.wf (lru P) ->
  exists missTexts : list string,
    sublist missTexts texts
    ∧ (forall t, t ∈ texts -> uncached P (key_of P t) -> t ∈ missTexts)
    ∧ (forall t, t ∈ missTexts ->
         JS.truthy (DiskCache.get (key_of P t) (diskCache P)) = false)
    ∧ calls (translateMany texts P).1
      = (if bool_decide (missTexts = []) || Settings.offlineOnly (settings P)
         then calls P
         else calls P ++ [Call (JS.str <$> missTexts) (src_of P) (tgt_of P)])
    ∧ (forall q r iv bs tasks,
         (TranslateQueue.resume plugin_translate
            (TranslateQueue.mk P q r (TranslateQueue.AwaitTranslate iv bs tasks))).1
         = TranslateQueue.mk (translateMany (TranslateQueue.text <$> tasks) P).1 q r
             (TranslateQueue.AwaitSleep iv bs)).
Proof.
  intros Hwf.
  destruct (lookup_missTexts P texts) as (ms & Hms & Hsub & Hlen).
  exists ms. split; [done|]. split; [|split; [|split]].
  - intros t Ht Hun. apply list_elem_of_lookup in Ht as [i Hi].
    pose proof (uncached_is_miss P texts i t Hwf Hi Hun) as Hin.
    assert (H : JS.str t ∈ JS.str <$> ms).
    { rewrite <- Hms. unfold missTexts_of. apply list_elem_of_fmap.
      exists i. split; [|done]. symmetry. by apply index_str. }
    apply list_elem_of_fmap in H as (t' & Heq & Hin'). by inversion Heq; subst.
  - intros t Ht.
    assert (H : JS.str t ∈ missTexts_of texts (s_missIdx (lookup_of P texts))).
    { rewrite Hms. apply list_elem_of_fmap. by exists t. }
    unfold missTexts_of in H. apply list_elem_of_fmap in H as (i & Heq & Hin).
    symmetry in Heq. apply index_str in Heq.
    destruct (miss_not_on_disk P texts i Hin) as (t' & Ht' & Hd). congruence.
  - rewrite translateMany_calls, Hms, <- Hlen.
    destruct ms; simpl; done.
  - intros q r iv bs tasks. unfold TranslateQueue.resume, plugin_translate. simpl.
    by destruct (translateMany _ P).
Qed.

Lemma translateMany_calls_provider_once_witness :
  exists missTexts : list string,
    sublist missTexts ["Hello"; "World"]
    ∧ calls (translateMany ["Hello"; "World"] c1_plugin).1
      = (if bool_decide (missTexts = []) || false then []
         else [Call (JS.str <$> missTexts) "auto" "ko"]).
Proof.
  destruct (translateMany_calls_provider_once ["Hello"; "World"] c1_plugin)
    as (ms & Hsub & _ & _ & Hcalls & _).
  - apply new_wf.
  - exists ms. split; [exact Hsub|exact Hcalls].
Defined.

(** ** Cache hits *)

Section Hits.

Variables (lru0 : LRU.t) (disk : DiskCache.t).

Implicit Types (k : string) (s : scan_state) (i : nat).

Lemma scan_app keys1 keys2 : forall i s,
  scan disk i (keys1 ++ keys2) s
  = scan disk (i + length keys1) keys2 (scan disk i keys1 s).
Proof.
  induction keys1 as [|k keys1 IH]; intros i s; simpl.
  - by rewrite Nat.add_0_r.
  - rewrite IH. f_equal. lia.
Qed.

(** What the loop does at a position whose cached value is truthy. *)
Lemma scan_position keys s0 i k :
  scan_inv lru0 disk s0 ->
  (length keys <= length (s_out s0))%nat ->
  keys !! i = Some k ->
  JS.truthy (JS.or (mem (s_lru (scan disk 0 (take i keys) s0)) k)
                   (DiskCache.get k disk)) = true ->
  s_out (scan disk 0 keys s0) !! i
  = Some (JS.or (mem (s_lru (scan disk 0 (take i keys) s0)) k) (DiskCache.get k disk))
  ∧ s_missIdx (scan disk 0 (take (S i) keys) s0)
    = s_missIdx (scan disk 0 (take i keys) s0)
  ∧ (0 < LRU.limit lru0 ->
     last (LRU.map (s_lru (scan disk 0 (take (S i) keys) s0)))
     = Some (k, JS.or (mem (s_lru (scan disk 0 (take i keys) s0)) k)
                      (DiskCache.get k disk))).
Proof.
  intros Hinv Hlen Hk Ht.
  pose proof (lookup_lt_Some _ _ _ Hk) as Hi.
  set (si := scan disk 0 (take i keys) s0) in *.
  assert (Hsi : scan_inv lru0 disk si) by by apply scan_inv_preserved.
  assert (Hlsi : length (s_out si) = length (s_out s0)).
  { apply scan_out_length. rewrite length_take. lia. }
  assert (Hstep : scan disk 0 (take (S i) keys) s0 = scan_step disk i k si).
  { rewrite (take_S_r _ _ _ Hk), scan_snoc. f_equal.
    rewrite length_take. lia. }
  rewrite Hstep, scan_step_eq. cbv zeta. rewrite Ht. cbn [s_lru s_out s_missIdx].
  split; [|split; [done|]].
  - rewrite <- (take_drop_middle keys i k Hk) at 1.
    rewrite scan_app. fold si. rewrite length_take, Nat.min_l by lia.
    cbn [Nat.add scan]. rewrite scan_out_below.
    + rewrite scan_step_eq. cbv zeta. rewrite Ht. cbn [s_out].
      unfold JS.assign. rewrite decide_True by lia.
      apply list_lookup_insert_eq. lia.
    + rewrite scan_step_eq. cbv zeta. rewrite Ht. cbn [s_out].
      unfold JS.assign. rewrite decide_True by lia.
      rewrite length_insert, length_drop. lia.
    + lia.
  - intros Hpos. destruct Hsi as (Hwf & Hlim & _).
    apply set_last; [by apply get_wf|]. rewrite get_limit. lia.
Qed.

(** If every position is a hit, the loop records no miss. *)
Lemma scan_no_miss keys s0 :
  (forall i k, keys !! i = Some k ->
     JS.truthy (JS.or (mem (s_lru (scan disk 0 (take i keys) s0)) k)
                      (DiskCache.get k disk)) = true) ->
  forall n, (n <= length keys)%nat ->
    s_missIdx (scan disk 0 (take n keys) s0) = s_missIdx s0.
Proof.
  intros Hall n. induction n as [|n IH]; intros Hn.
  { by rewrite take_0. }
  destruct (lookup_lt_is_Some_2 keys n) as [k Hk]; [lia|].
  rewrite (take_S_r _ _ _ Hk), scan_snoc, scan_step_eq. cbv zeta.
  rewrite (Hall n k Hk). cbn [s_missIdx]. apply IH. lia.
Qed.

(** With room for every key and every key cached, nothing is evicted:
    the memory cache ends with the cached value of every key. *)
Lemma scan_room keys : forall i s,
  LRU.wf (s_lru s) ->
  Z.of_nat (length (LRU.map (s_lru s)) + length keys) <= LRU.limit (s_lru s) ->
  (forall k, k ∈ keys ->
     JS.truthy (JS.or (mem (s_lru s) k) (DiskCache.get k disk)) = true) ->
  forall k',
    mem (s_lru (scan disk i keys s)) k'
    = if decide (k' ∈ keys) then JS.or (mem (s_lru s) k') (DiskCache.get k' disk)
      else mem (s_lru s) k'.
Proof.
  induction keys as [|k keys IH]; intros i s Hwf Hroom Hall k'.
  { cbn [scan]. destruct (decide (k' ∈ [])) as [H|]; [by apply elem_of_nil in H|done]. }
  cbn [scan]. cbn [length] in Hroom.
  assert (Ht : JS.truthy (JS.or (mem (s_lru s) k) (DiskCache.get k disk)) = true).
  { apply Hall. by left. }
  set (cached := JS.or (mem (s_lru s) k) (DiskCache.get k disk)) in *.
  set (s1 := scan_step disk i k s).
  assert (Hs1 : s_lru s1 = LRU.set k cached (LRU.get k (s_lru s)).1).
  { unfold s1. rewrite scan_step_eq. cbv zeta. fold cached. by rewrite Ht. }
  assert (Hmem1 : forall x, mem (s_lru s1) x
                            = if decide (x = k) then cached else mem (s_lru s) x).
  { intros x. rewrite Hs1, set_mem_room.
    - by rewrite get_mem.
    - by apply get_wf.
    - rewrite get_length, get_limit by done. lia. }
  assert (Hor1 : forall x, JS.or (mem (s_lru s1) x) (DiskCache.get x disk)
                           = JS.or (mem (s_lru s) x) (DiskCache.get x disk)).
  { intros x. rewrite Hmem1. destruct (decide (x = k)) as [->|]; [|done].
    fold cached. unfold JS.or at 1. by rewrite Ht. }
  rewrite IH.
  - destruct (decide (k' ∈ keys)) as [Hin|Hnin].
    + rewrite decide_True by (by right). apply Hor1.
    + rewrite Hmem1. destruct (decide (k' = k)) as [->|Hne].
      * by rewrite decide_True by (by left).
      * rewrite decide_False; [done|]. intros Hin.
        apply elem_of_cons in Hin as [?|?]; done.
  - rewrite Hs1. by apply set_wf, get_wf.
  - rewrite Hs1, set_limit, get_limit.
    pose proof (set_length k cached (LRU.get k (s_lru s)).1 (get_wf _ _ Hwf)) as Hl.
    rewrite get_length in Hl by done. lia.
  - intros x Hx. rewrite Hor1. apply Hall. by right.
Qed.

End Hits.

Section HitTheorem.

Implicit Types (P : Plugin) (texts : list string).

Lemma or_idem a b : JS.or (JS.or a b) b = JS.or a b.
Proof.
  unfold JS.or. destruct (JS.truthy a) eqn:Ha; [by rewrite Ha|].
  by destruct (JS.truthy b).
Qed.

Lemma translateMany_no_miss texts P :
  s_missIdx (lookup_of P texts) = [] ->
  translateMany texts P
  = (with_caches P (s_lru (lookup_of P texts)) (diskCache P) (calls P),
     s_out (lookup_of P texts)).
Proof.
  intros Hnil. unfold translateMany.
  change (scan (diskCache P) 0 _ _) with (lookup_of P texts).
  rewrite Hnil. by rewrite decide_True.
Qed.

Lemma lookup_after_all texts P :
  lookup_after P texts (length texts) = lookup_of P texts.
Proof.
  unfold lookup_after, lookup_of. rewrite firstn_all2; [done|].
  by rewrite length_fmap.
Qed.

(** Under the room hypothesis the value found at a position is the
    cached value of the key in the initial state. *)
Lemma room_cached texts P i k :
  LRU.wf (lru P) ->
  has_room P texts ->
  (forall t, t ∈ texts -> JS.truthy (cached_value P (key_of P t)) = true) ->
  (key_of P <$> texts) !! i = Some k ->
  JS.or (mem (s_lru (lookup_after P texts i)) k) (DiskCache.get k (diskCache P))
  = cached_value P k.
Proof.
  intros Hwf Hroom Hall Hk. unfold lookup_after.
  rewrite (scan_room (diskCache P)).
  - cbn [s_lru]. destruct (decide _); [apply or_idem|done].
  - done.
  - cbn [s_lru]. unfold has_room in Hroom.
    rewrite length_take, length_fmap. lia.
  - intros k0 Hk0. cbn [s_lru].
    assert (Hin : k0 ∈ key_of P <$> texts).
    { rewrite <- (take_drop i (key_of P <$> texts)). apply elem_of_app. by left. }
    apply list_elem_of_fmap in Hin as (t & -> & Ht). by apply Hall.
Qed.

End HitTheorem.

(** C6 as stated fails twice.  A fingerprint that is present with the
    empty string is not a hit: the Provider is invoked.  And a fingerprint
    present in the memory cache alone is evicted by the promotion of an
    earlier hit of the same call: the Provider is invoked for it. *)
Lemma present_fingerprints_reach_provider :
  (DiskCache.map (diskCache c6_plugin_empty) !! key_of c6_plugin_empty "Hello"
   = Some (JS.str "")
   ∧ calls (translateMany ["Hello"] c6_plugin_empty).1
     = [Call [JS.str "Hello"] "auto" "ko"])
  ∧ (LRU.has (key_of c6_plugin_full "World") (lru c6_plugin_full) = true
     ∧ DiskCache.map (diskCache c6_plugin_full) !! key_of c6_plugin_full "Hello"
       = Some (JS.str "annyeong")
     ∧ calls (translateMany ["Hello"; "World"] c6_plugin_full).1
       = [Call [JS.str "World"] "auto" "ko"]
     ∧ (translateMany ["Hello"; "World"] c6_plugin_full).2
       = [JS.str "annyeong"; JS.str "translated"]).
Proof. repeat split; vm_compute; reflexivity. Qed.

(** C6 (amended). Suppose every text's fingerprint has a non-empty value
    in the persistent cache, or the memory cache has room for every text
    and every fingerprint has a non-empty value in one of the tiers.  Then
    [translateMany] invokes no Provider and leaves the persistent cache as
    it is; the output has one non-empty value per text, in input order,
    which is the value of one of the tiers for its fingerprint; and the
    iteration that finds it makes it the most recent entry of the memory
    cache.  With room, the output is the cached value (memory first) and
    the memory cache ends holding it for every text. *)
Theorem all_hits_short_circuit (texts : list string) (P : Plugin) :
  LRU.wf (lru P) ->
  (forall t, t ∈ texts ->
     JS.truthy (DiskCache.get (key_of P t) (diskCache P)) = true)
  ∨ (has_room P texts
     ∧ forall t, t ∈ texts -> JS.truthy (cached_value P (key_of P t)) = true) ->
  calls (translateMany texts P).1 = calls P
  ∧ diskCache (translateMany texts P).1 = diskCache P
  ∧ length (translateMany texts P).2 = length texts
  ∧ (forall i t, texts !! i = Some t ->
       exists v,
         (translateMany texts P).2 !! i = Some v
         ∧ JS.truthy v = true
         ∧ (v = mem (lru P) (key_of P t)
            ∨ v = DiskCache.get (key_of P t) (diskCache P))
         ∧ (0 < LRU.limit (lru P) ->
            last (LRU.map (s_lru (lookup_after P texts (S i))))
            = Some (key_of P t, v)))
  ∧ (has_room P texts ->
     forall i t, texts !! i = Some t ->
       (translateMany texts P).2 !! i = Some (cached_value P (key_of P t))
       ∧ mem (lru (translateMany texts P).1) (key_of P t)
         = cached_value P (key_of P t)).
Proof.
  intros Hwf Hhit.
  set (s0 := ScanState (lru P) (replicate (length texts) JS.undefined) []).
  assert (Hinv0 : scan_inv (lru P) (diskCache P) s0) by by apply scan_inv_init.
  assert (Hlen0 : (length (key_of P <$> texts) <= length (s_out s0))%nat).
  { simpl. by rewrite length_fmap, length_replicate. }
  assert (Htruthy : forall i k, (key_of P <$> texts) !! i = Some k ->
            JS.truthy (JS.or (mem (s_lru (lookup_after P texts i)) k)
                             (DiskCache.get k (diskCache P))) = true).
  { intros i k Hk. destruct Hhit as [Hdisk|[Hroom Hall]].
    - rewrite truthy_or. rewrite list_lookup_fmap in Hk.
      destruct (texts !! i) as [t|] eqn:Ht; [|done]. inversion Hk; subst k.
      rewrite Hdisk; [apply orb_true_r|]. by eapply list_elem_of_lookup_2.
    - rewrite room_cached by done. rewrite list_lookup_fmap in Hk.
      destruct (texts !! i) as [t|] eqn:Ht; [|done]. inversion Hk; subst k.
      apply Hall. by eapply list_elem_of_lookup_2. }
  assert (Hnil : s_missIdx (lookup_of P texts) = []).
  { rewrite <- lookup_after_all. unfold lookup_after.
    rewrite (scan_no_miss (diskCache P) (key_of P <$> texts) s0); [done|exact Htruthy|].
    by rewrite length_fmap. }
  rewrite translateMany_no_miss by done. cbn [fst snd calls diskCache lru with_caches].
  split; [done|]. split; [done|]. split.
  { unfold lookup_of. rewrite scan_out_length; [apply length_replicate|].
    simpl. by rewrite length_fmap, length_replicate. }
  assert (Hpos : forall i t, texts !! i = Some t ->
            s_out (lookup_of P texts) !! i
            = Some (JS.or (mem (s_lru (lookup_after P texts i)) (key_of P t))
                          (DiskCache.get (key_of P t) (diskCache P)))
            ∧ (0 < LRU.limit (lru P) ->
               last (LRU.map (s_lru (lookup_after P texts (S i))))
               = Some (key_of P t,
                       JS.or (mem (s_lru (lookup_after P texts i)) (key_of P t))
                             (DiskCache.get (key_of P t) (diskCache P))))).
  { intros i t Ht.
    assert (Hk : (key_of P <$> texts) !! i = Some (key_of P t))
      by by rewrite list_lookup_fmap, Ht.
    destruct (scan_position (lru P) (diskCache P) (key_of P <$> texts) s0 i
                (key_of P t) Hinv0 Hlen0 Hk (Htruthy i _ Hk)) as (Hout & _ & Hlast).
    split; [exact Hout|exact Hlast]. }
  split.
  - intros i t Ht. destruct (Hpos i t Ht) as [Hout Hlast].
    assert (Hk : (key_of P <$> texts) !! i = Some (key_of P t))
      by by rewrite list_lookup_fmap, Ht.
    eexists. split; [exact Hout|]. split; [by apply Htruthy|]. split; [|exact Hlast].
    assert (Hsi : scan_inv (lru P) (diskCache P) (lookup_after P texts i))
      by by apply scan_inv_preserved.
    destruct Hsi as (_ & _ & Hprov). pose proof (Htruthy i _ Hk) as Ht'.
    unfold JS.or in *.
    destruct (JS.truthy (mem (s_lru (lookup_after P texts i)) (key_of P t))) eqn:Hm;
      [|by right].
    destruct (Hprov (key_of P t)) as [Hu|[Hl|[Hd _]]].
    + rewrite Hu in Hm. done.
    + by left.
    + by right.
  - intros Hroom i t Ht.
    assert (Hall : forall t, t ∈ texts -> JS.truthy (cached_value P (key_of P t)) = true).
    { destruct Hhit as [Hdisk|[_ Hall]]; [|done].
      intros t' Ht'. unfold cached_value. rewrite truthy_or, Hdisk by done.
      apply orb_true_r. }
    assert (Hk : (key_of P <$> texts) !! i = Some (key_of P t))
      by by rewrite list_lookup_fmap, Ht.
    destruct (Hpos i t Ht) as [Hout _].
    rewrite room_cached in Hout by done. split; [exact Hout|].
    unfold lookup_of. rewrite (scan_room (diskCache P)).
    + cbn [s_lru]. rewrite decide_True; [done|].
      by eapply list_elem_of_lookup_2.
    + done.
    + cbn [s_lru]. unfold has_room in Hroom. by rewrite length_fmap.
    + intros k0 Hk0. cbn [s_lru].
      apply list_elem_of_fmap in Hk0 as (t' & -> & Ht'). by apply Hall.
Qed.

Lemma all_hits_short_circuit_witness :
  calls (translateMany ["Hello"] c6_plugin_hit).1 = []
  ∧ (translateMany ["Hello"] c6_plugin_hit).2 !! 0%nat
    = Some (cached_value c6_plugin_hit (key_of c6_plugin_hit "Hello"))
  ∧ cached_value c6_plugin_hit (key_of c6_plugin_hit "Hello") = JS.str "annyeong".
Proof.
  destruct (all_hits_short_circuit ["Hello"] c6_plugin_hit)
    as (Hcalls & _ & _ & _ & Hroom).
  - apply new_wf.
  - left. intros t Ht. apply list_elem_of_singleton in Ht. subst t.
    vm_compute. reflexivity.
  - split; [exact Hcalls|]. split; [|vm_compute; reflexivity].
    apply (Hroom ltac:(unfold has_room; simpl; lia) 0%nat "Hello"). reflexivity.
Defined.

(** ** The write-back loop of [translateMany] *)

Section StoreFacts.

Variables (keys : list string) (translated missTexts : list JS.val).

Implicit Types (s : store_state) (missIdx : list nat) (j idx : nat).

Lemma store_out_length missIdx : forall j s,
  Forall (fun idx => idx < length (w_out s))%nat missIdx ->
  length (w_out (store keys translated missTexts missIdx j s)) = length (w_out s).
Proof.
  induction missIdx as [|idx rest IH]; intros j s Hr; [done|].
  apply Forall_cons in Hr as [Hidx Hr]. cbn [store].
  assert (Hl : length (JS.assign (w_out s) idx (dst_of translated missTexts j))
               = length (w_out s)).
  { unfold JS.assign. rewrite decide_True by done. apply length_insert. }
  rewrite IH; cbn [w_out]; [done|]. by rewrite Hl.
Qed.

Lemma store_out_other missIdx : forall j s i,
  Forall (fun idx => idx < length (w_out s))%nat missIdx ->
  i ∉ missIdx ->
  w_out (store keys translated missTexts missIdx j s) !! i = w_out s !! i.
Proof.
  induction missIdx as [|idx rest IH]; intros j s i Hr Hi; [done|].
  apply Forall_cons in Hr as [Hidx Hr]. apply not_elem_of_cons in Hi as [Hne Hi].
  cbn [store]. rewrite IH; cbn [w_out]; [| |done].
  - unfold JS.assign. rewrite decide_True by done.
    by apply list_lookup_insert_ne.
  - unfold JS.assign. rewrite decide_True by done. by rewrite length_insert.
Qed.

Lemma store_out missIdx : forall j s n idx,
  Forall (fun idx => idx < length (w_out s))%nat missIdx ->
  NoDup missIdx ->
  missIdx !! n = Some idx ->
  w_out (store keys translated missTexts missIdx j s) !! idx
  = Some (dst_of translated missTexts (j + n)).
Proof.
  induction missIdx as [|idx0 rest IH]; intros j s n idx Hr Hnd Hn; [done|].
  apply Forall_cons in Hr as [Hidx Hr]. apply NoDup_cons in Hnd as [Hnin Hnd].
  assert (Hl : length (JS.assign (w_out s) idx0 (dst_of translated missTexts j))
               = length (w_out s)).
  { unfold JS.assign. rewrite decide_True by done. apply length_insert. }
  cbn [store]. destruct n as [|n]; simpl in Hn.
  - inversion Hn; subst idx0. rewrite store_out_other; cbn [w_out].
    + rewrite Nat.add_0_r. unfold JS.assign. rewrite decide_True by done.
      by apply list_lookup_insert_eq.
    + by rewrite Hl.
    + done.
  - replace (j + S n)%nat with (S j + n)%nat by lia.
    apply IH; cbn [w_out]; [by rewrite Hl|done|done].
Qed.

Lemma store_disk_other missIdx : forall j s k,
  (forall idx, idx ∈ missIdx -> key_at keys idx ≠ k) ->
  DiskCache.get k (w_disk (store keys translated missTexts missIdx j s))
  = DiskCache.get k (w_disk s).
Proof.
  induction missIdx as [|idx rest IH]; intros j s k Hk; [done|].
  cbn [store]. rewrite IH; cbn [w_disk].
  - unfold DiskCache.get, DiskCache.set. simpl.
    rewrite lookup_insert_ne; [done|]. apply Hk. by left.
  - intros idx' Hin. apply Hk. by right.
Qed.

Lemma store_disk missIdx : forall j s n idx,
  missIdx !! n = Some idx ->
  (forall n' idx', (n < n')%nat -> missIdx !! n' = Some idx' ->
     key_at keys idx' ≠ key_at keys idx) ->
  DiskCache.get (key_at keys idx)
    (w_disk (store keys translated missTexts missIdx j s))
  = dst_of translated missTexts (j + n).
Proof.
  induction missIdx as [|idx0 rest IH]; intros j s n idx Hn Hlater; [done|].
  cbn [store]. destruct n as [|n]; simpl in Hn.
  - inversion Hn; subst idx0. rewrite store_disk_other; cbn [w_disk].
    + rewrite Nat.add_0_r. unfold DiskCache.get, DiskCache.set. simpl.
      fold (key_at keys idx). by rewrite lookup_insert_eq.
    + intros idx' Hin. apply list_elem_of_lookup in Hin as [n' Hn'].
      apply (Hlater (S n')); [lia|done].
  - replace (j + S n)%nat with (S j + n)%nat by lia.
    apply IH; [done|]. intros n' idx' Hlt Hn'.
    apply (Hlater (S n')); [lia|done].
Qed.

Lemma store_dirty missIdx : forall j s,
  DiskCache.dirty (w_disk s) = true ∨ missIdx ≠ [] ->
  DiskCache.dirty (w_disk (store keys translated missTexts missIdx j s)) = true.
Proof.
  induction missIdx as [|idx rest IH]; intros j s Hd.
  - by destruct Hd.
  - cbn [store]. apply IH. by left.
Qed.

Lemma store_lru_inv missIdx : forall j s,
  LRU.wf (w_lru s) ->
  LRU.wf (w_lru (store keys translated missTexts missIdx j s))
  ∧ LRU.limit (w_lru (store keys translated missTexts missIdx j s))
    = LRU.limit (w_lru s).
Proof.
  induction missIdx as [|idx rest IH]; intros j s Hwf; [done|].
  cbn [store]. destruct (IH (S j)
    (StoreState (LRU.set (default "" (keys !! idx)) (dst_of translated missTexts j) (w_lru s))
                (DiskCache.set (default "" (keys !! idx)) (dst_of translated missTexts j) (w_disk s))
                (JS.assign (w_out s) idx (dst_of translated missTexts j))))
    as [H1 H2]; [by apply set_wf|].
  split; [done|]. rewrite H2. cbn [w_lru]. apply set_limit.
Qed.

Lemma recent_mem r k v c : LRU.wf c -> recent r k v c -> mem c k = v.
Proof.
  intros Hwf (pre & post & Hmap & _). unfold mem, LRU.wf in *. rewrite Hmap in *.
  rewrite fmap_app, fmap_cons in Hwf. apply NoDup_app in Hwf as (_ & Hdisj & _).
  rewrite Map_get_app_notin.
  - simpl. by rewrite decide_True.
  - intros Hin. apply (Hdisj k Hin). by left.
Qed.

Lemma set_recent_self k v c :
  LRU.wf c -> 0 < LRU.limit c -> recent 0 k v (LRU.set k v c).
Proof.
  intros Hwf Hpos. pose proof (set_last k v c Hwf Hpos) as Hl.
  destruct (LRU.map (LRU.set k v c)) as [|e m] eqn:Hm using rev_ind; [done|].
  rewrite last_snoc in Hl. inversion Hl; subst e.
  exists m, []. split; [done|]. simpl. lia.
Qed.

Lemma set_recent_other r k v k' v' c :
  LRU.wf c ->
  recent r k v c ->
  k' ≠ k ->
  Z.of_nat r + 2 <= LRU.limit c ->
  recent (S r) k v (LRU.set k' v' c).
Proof.
  intros Hwf (pre & post & Hmap & Hr) Hne Hlim.
  unfold recent. rewrite set_map by done. rewrite Hmap.
  unfold LRU.Map_delete. rewrite filter_app, filter_cons_True by (simpl; congruence).
  fold (LRU.Map_delete k' pre). fold (LRU.Map_delete k' post).
  pose proof (Map_delete_length k' post) as Hp.
  rewrite <- app_assoc. simpl. unfold evict.
  destruct (Z.gtb_spec
    (Z.of_nat (length (LRU.Map_delete k' pre
                       ++ (k, v) :: LRU.Map_delete k' post ++ [(k', v')])))
    (LRU.limit c)) as [Hgt|_].
  - destruct (LRU.Map_delete k' pre) as [|e pre'].
    + simpl in Hgt. rewrite length_app in Hgt. simpl in Hgt. lia.
    + simpl. exists pre', (LRU.Map_delete k' post ++ [(k', v')]).
      split; [done|]. rewrite length_app. simpl. lia.
  - exists (LRU.Map_delete k' pre), (LRU.Map_delete k' post ++ [(k', v')]).
    split; [done|]. rewrite length_app. simpl. lia.
Qed.

Lemma store_recent missIdx : forall j s r k v,
  LRU.wf (w_lru s) ->
  recent r k v (w_lru s) ->
  (forall idx, idx ∈ missIdx -> key_at keys idx ≠ k) ->
  Z.of_nat (r + length missIdx) + 1 <= LRU.limit (w_lru s) ->
  recent (r + length missIdx) k v
         (w_lru (store keys translated missTexts missIdx j s)).
Proof.
  induction missIdx as [|idx rest IH]; intros j s r k v Hwf Hrec Hk Hlim.
  { simpl. by rewrite Nat.add_0_r. }
  cbn [store]. cbn [length] in *.
  replace (r + S (length rest))%nat with (S r + length rest)%nat by lia.
  apply IH; cbn [w_lru].
  - by apply set_wf.
  - apply set_recent_other; [done|done| |lia]. apply Hk. by left.
  - intros idx' Hin. apply Hk. by right.
  - rewrite set_limit. lia.
Qed.

Lemma store_lru missIdx : forall j s n idx,
  LRU.wf (w_lru s) ->
  missIdx !! n = Some idx ->
  (forall n' idx', (n < n')%nat -> missIdx !! n' = Some idx' ->
     key_at keys idx' ≠ key_at keys idx) ->
  Z.of_nat (length missIdx - n) <= LRU.limit (w_lru s) ->
  mem (w_lru (store keys translated missTexts missIdx j s)) (key_at keys idx)
  = dst_of translated missTexts (j + n).
Proof.
  induction missIdx as [|idx0 rest IH]; intros j s n idx Hwf Hn Hlater Hlim; [done|].
  cbn [store]. cbn [length] in Hlim. destruct n as [|n]; simpl in Hn.
  - inversion Hn; subst idx0. rewrite Nat.add_0_r.
    fold (key_at keys idx).
    set (s1 := StoreState _ _ _).
    assert (Hwf1 : LRU.wf (w_lru s1)) by by apply set_wf.
    apply (recent_mem (0 + length rest)).
    + by apply store_lru_inv.
    + apply store_recent; [done| | |].
      * apply set_recent_self; [done|lia].
      * intros idx' Hin. apply list_elem_of_lookup in Hin as [n' Hn'].
        apply (Hlater (S n')); [lia|done].
      * cbn [w_lru s1]. rewrite set_limit. lia.
  - replace (j + S n)%nat with (S j + n)%nat by lia.
    apply IH; cbn [w_lru].
    + by apply set_wf.
    + done.
    + intros n' idx' Hlt Hn'. apply (Hlater (S n')); [lia|done].
    + rewrite set_limit. simpl in Hlim. lia.
Qed.

(** Writing falsy values under a key that no tier maps to a truthy value
    leaves it so. *)
Lemma store_falsy missIdx : forall j s k,
  LRU.wf (w_lru s) ->
  JS.truthy (mem (w_lru s) k) = false ->
  JS.truthy (DiskCache.get k (w_disk s)) = false ->
  (forall n idx, missIdx !! n = Some idx -> key_at keys idx = k ->
     JS.truthy (dst_of translated missTexts (j + n)) = false) ->
  JS.truthy (mem (w_lru (store keys translated missTexts missIdx j s)) k) = false
  ∧ JS.truthy (DiskCache.get k (w_disk (store keys translated missTexts missIdx j s)))
    = false.
Proof.
  induction missIdx as [|idx rest IH]; intros j s k Hwf Hm Hd Hdst; [done|].
  cbn [store]. fold (key_at keys idx). apply IH; cbn [w_lru w_disk].
  - by apply set_wf.
  - destruct (set_mem_cases (key_at keys idx) (dst_of translated missTexts j) k
                (w_lru s) Hwf) as [->| ->]; [done|].
    destruct (decide (k = key_at keys idx)) as [->|_]; [|done].
    rewrite <- (Nat.add_0_r j). by apply (Hdst 0%nat idx).
  - unfold DiskCache.get, DiskCache.set. simpl.
    destruct (decide (key_at keys idx = k)) as [Heq|Hne].
    + rewrite Heq, lookup_insert_eq. simpl.
      rewrite <- (Nat.add_0_r j). by apply (Hdst 0%nat idx).
    + by rewrite lookup_insert_ne.
  - intros n idx' Hn Hk. replace (S j + n)%nat with (j + S n)%nat by lia.
    by apply (Hdst (S n) idx').
Qed.

End StoreFacts.

Section WriteBack.

Implicit Types (P : Plugin) (texts : list string).

Lemma scan_missIdx_NoDup disk keys : forall i s,
  NoDup (s_missIdx s) ->
  Forall (fun j => j < i)%nat (s_missIdx s) ->
  NoDup (s_missIdx (scan disk i keys s)).
Proof.
  induction keys as [|k keys IH]; intros i s Hnd Hlt; [done|].
  cbn [scan]. rewrite scan_step_eq. cbv zeta.
  destruct (JS.truthy _); apply IH; cbn [s_missIdx].
  - done.
  - eapply Forall_impl; [exact Hlt|]. simpl. lia.
  - apply NoDup_app. split; [done|]. split; [|apply NoDup_singleton].
    intros x Hx Hx'. apply list_elem_of_singleton in Hx'. subst x.
    rewrite Forall_forall in Hlt. specialize (Hlt _ Hx). lia.
  - apply Forall_app. split.
    + eapply Forall_impl; [exact Hlt|]. simpl. lia.
    + repeat constructor.
Qed.

Lemma lookup_missIdx_facts P texts :
  NoDup (s_missIdx (lookup_of P texts))
  ∧ Forall (fun idx => idx < length texts)%nat (s_missIdx (lookup_of P texts))
  ∧ length (s_out (lookup_of P texts)) = length texts.
Proof.
  unfold lookup_of. split; [|split].
  - apply scan_missIdx_NoDup; cbn [s_missIdx]; constructor.
  - destruct (scan_missIdx_grows (diskCache P) (key_of P <$> texts) 0
                (ScanState (lru P) (replicate (length texts) JS.undefined) []))
      as (new & -> & Hr).
    cbn [s_missIdx app]. eapply Forall_impl; [exact Hr|].
    simpl. intros x. rewrite length_fmap. lia.
  - rewrite scan_out_length; cbn [s_out]; [apply length_replicate|].
    by rewrite length_fmap, length_replicate.
Qed.

Lemma translateMany_returns texts P translated :
  s_missIdx (lookup_of P texts) ≠ [] ->
  Settings.offlineOnly (settings P) = false ->
  provider P (length (calls P))
           (missTexts_of texts (s_missIdx (lookup_of P texts)))
           (src_of P) (tgt_of P) = Returns translated ->
  translateMany texts P
  = let w := store (key_of P <$> texts) translated
               (missTexts_of texts (s_missIdx (lookup_of P texts)))
               (s_missIdx (lookup_of P texts)) 0
               (StoreState (s_lru (lookup_of P texts)) (diskCache P)
                           (s_out (lookup_of P texts))) in
    (with_caches P (w_lru w) (w_disk w)
       (calls P ++ [Call (missTexts_of texts (s_missIdx (lookup_of P texts)))
                         (src_of P) (tgt_of P)]),
     w_out w).
Proof.
  intros Hne Hoff Hret. unfold translateMany.
  change (scan (diskCache P) 0 _ _) with (lookup_of P texts).
  destruct (decide _) as [Hz|_]; [by apply nil_length_inv in Hz|].
  rewrite Hoff.
  change (_ <$> s_missIdx (lookup_of P texts))
    with (missTexts_of texts (s_missIdx (lookup_of P texts))).
  change (JS.str_or (Settings.sourceLang (settings P)) "auto") with (src_of P).
  change (JS.str_or (Settings.targetLang (settings P)) "ko") with (tgt_of P).
  by rewrite Hret.
Qed.

End WriteBack.

(** C4 as stated fails: the Provider answers the empty string, and the
    output slot, the memory cache and the persistent cache all receive the
    empty string, not the original text. *)
Lemma empty_answer_is_kept :
  (translateMany ["Hello"] c4_plugin).2 = [JS.str ""]
  ∧ mem (lru (translateMany ["Hello"] c4_plugin).1) (key_of c4_plugin "Hello")
    = JS.str ""
  ∧ DiskCache.get (key_of c4_plugin "Hello")
      (diskCache (translateMany ["Hello"] c4_plugin).1) = JS.str "".
Proof. repeat split; vm_compute; reflexivity. Qed.

(** C4 (amended). When the Provider returns, the value of miss [j] is
    [translated[j] ?? missTexts[j]]: the original text where the result is
    absent ([undefined] or [null]), and the result itself otherwise, the
    empty string included.  That value goes into the output slot of the
    miss and is written to both tiers under the fingerprint: the persistent
    cache, now dirty, maps the fingerprint to it unless a later miss of the
    call has the same fingerprint, and so does the memory cache when the
    misses from this one on number at most its limit. *)
Theorem writeback_stores_nullish_fallback (texts : list string) (P : Plugin)
    (translated : list JS.val) (j idx : nat) (t : string) :
  LRU.wf (lru P) ->
  Settings.offlineOnly (settings P) = false ->
  provider P (length (calls P))
           (missTexts_of texts (s_missIdx (lookup_of P texts)))
           (src_of P) (tgt_of P) = Returns translated ->
  s_missIdx (lookup_of P texts) !! j = Some idx ->
  texts !! idx = Some t ->
  (translateMany texts P).2 !! idx
  = Some (JS.nullish (JS.index translated j) (JS.str t))
  ∧ (JS.index translated j = JS.str "" ->
     (translateMany texts P).2 !! idx = Some (JS.str ""))
  ∧ DiskCache.dirty (diskCache (translateMany texts P).1) = true
  ∧ ((forall j' idx' t', (j < j')%nat ->
        s_missIdx (lookup_of P texts) !! j' = Some idx' ->
        texts !! idx' = Some t' -> key_of P t' ≠ key_of P t) ->
     DiskCache.get (key_of P t) (diskCache (translateMany texts P).1)
     = JS.nullish (JS.index translated j) (JS.str t)
     ∧ (Z.of_nat (length (s_missIdx (lookup_of P texts)) - j) <= LRU.limit (lru P) ->
        mem (lru (translateMany texts P).1) (key_of P t)
        = JS.nullish (JS.index translated j) (JS.str t))).
Proof.
  intros Hwf Hoff Hret Hj Ht.
  destruct (lookup_missIdx_facts P texts) as (Hnd & Hrange & Hlen).
  destruct (lookup_inv P texts Hwf) as (Hwfs & Hlims & _).
  assert (Hne : s_missIdx (lookup_of P texts) ≠ []).
  { intros Hnil. by rewrite Hnil in Hj. }
  rewrite (translateMany_returns texts P translated Hne Hoff Hret).
  cbv zeta. cbn [fst snd lru diskCache with_caches].
  set (missIdx := s_missIdx (lookup_of P texts)) in *.
  set (keys := key_of P <$> texts).
  set (s0 := StoreState _ _ _).
  assert (Hdst : dst_of translated (missTexts_of texts missIdx) (0 + j)
                 = JS.nullish (JS.index translated j) (JS.str t)).
  { unfold dst_of. simpl. f_equal. unfold missTexts_of, JS.index at 1.
    rewrite list_lookup_fmap, Hj. simpl. by apply index_str. }
  assert (Hkey : forall i x, texts !! i = Some x -> key_at keys i = key_of P x).
  { intros i x Hx. unfold key_at, keys. by rewrite list_lookup_fmap, Hx. }
  assert (Hout : w_out (store keys translated (missTexts_of texts missIdx) missIdx 0 s0)
                   !! idx = Some (JS.nullish (JS.index translated j) (JS.str t))).
  { rewrite <- Hdst. apply store_out; [|done|done].
    cbn [s0 w_out]. by rewrite Hlen. }
  split; [exact Hout|]. split.
  { intros He. rewrite Hout, He. done. }
  split.
  { apply store_dirty. by right. }
  intros Hlater.
  assert (Hlater' : forall n' idx', (j < n')%nat -> missIdx !! n' = Some idx' ->
                      key_at keys idx' ≠ key_at keys idx).
  { intros n' idx' Hlt Hn'.
    assert (Hin : (idx' < length texts)%nat).
    { rewrite Forall_forall in Hrange. apply Hrange.
      by eapply list_elem_of_lookup_2. }
    destruct (lookup_lt_is_Some_2 texts idx' Hin) as [t' Ht'].
    rewrite (Hkey _ _ Ht'), (Hkey _ _ Ht). by eapply Hlater. }
  rewrite <- (Hkey _ _ Ht), <- Hdst. split.
  - by apply store_disk.
  - intros Hroom. apply store_lru; [done|done|done|].
    cbn [s0 w_lru]. rewrite Hlims. done.
Qed.

Lemma writeback_stores_nullish_fallback_witness :
  (translateMany ["Hello"; "World"] c4_answer).2 !! 0%nat
  = Some (JS.nullish (JS.index [JS.null; JS.str "segye"] 0) (JS.str "Hello"))
  ∧ DiskCache.dirty (diskCache (translateMany ["Hello"; "World"] c4_answer).1) = true.
Proof.
  destruct (writeback_stores_nullish_fallback ["Hello"; "World"] c4_answer
              [JS.null; JS.str "segye"] 0 0 "Hello") as (Hout & _ & Hdirty & _).
  - apply new_wf.
  - reflexivity.
  - reflexivity.
  - vm_compute. reflexivity.
  - reflexivity.
  - split; [exact Hout|exact Hdirty].
Defined.

(** ** The dispatcher *)

Section DispatcherFacts.

Import TranslateQueue.

Implicit Types (d : t) (tr : list event) (tasks : list task).

Lemma count_app f tr1 tr2 : count f (tr1 ++ tr2) = (count f tr1 + count f tr2)%nat.
Proof. induction tr1 as [|e tr1 IH]; simpl; [done|]. rewrite IH. lia. Qed.

Lemma count_settle f tr :
  (forall e, settle_event e = true -> f e = false) ->
  Forall (fun e => settle_event e = true) tr -> count f tr = 0%nat.
Proof.
  intros Hf. induction 1 as [|e tr He _ IH]; simpl; [done|].
  by rewrite (Hf e He), IH.
Qed.

Lemma resolve_each_settle translated tasks :
  Forall (fun e => settle_event e = true) (resolve_each translated tasks).1.
Proof.
  revert tasks. induction translated as [|dst tr IH]; intros [|tk ts]; simpl;
    try constructor.
  specialize (IH ts). destruct (resolve_each tr ts). simpl in *. by constructor.
Qed.

Lemma reject_all_settle e tasks :
  Forall (fun ev => settle_event ev = true) (reject_all e tasks).
Proof.
  unfold reject_all. constructor; [done|].
  induction tasks; simpl; by constructor.
Qed.

Lemma resolve_each_same_length translated tasks :
  length translated = length tasks ->
  resolve_each translated tasks = (resolutions translated tasks, false).
Proof.
  revert tasks. induction translated as [|dst tr IH]; intros [|tk ts] Hlen;
    simpl in *; try done.
  rewrite IH by lia. done.
Qed.

Lemma settled_app_notin p tr1 tr2 :
  settled p tr1 = None -> settled p (tr1 ++ tr2) = settled p tr2.
Proof.
  induction tr1 as [|e tr1 IH]; intros H; [done|].
  destruct e; simpl in *; try (by apply IH); destruct (decide _); try done; by apply IH.
Qed.

Lemma settled_app_in p tr1 tr2 r :
  settled p tr1 = Some r -> settled p (tr1 ++ tr2) = Some r.
Proof.
  induction tr1 as [|e tr1 IH]; intros H; [done|].
  destruct e; simpl in *; try (by apply IH); destruct (decide _); try done; by apply IH.
Qed.

Lemma settled_rejections e tasks tk :
  tk ∈ tasks ->
  settled (pid tk) ((fun x => Reject (pid x) e) <$> tasks) = Some (inl e).
Proof.
  induction tasks as [|t0 tasks IH]; intros Hin; [by apply elem_of_nil in Hin|].
  simpl. destruct (decide (pid t0 = pid tk)); [done|].
  apply elem_of_cons in Hin as [->|Hin]; [done|]. by apply IH.
Qed.

Lemma settled_resolutions translated tasks i tk v :
  NoDup (pid <$> tasks) ->
  tasks !! i = Some tk ->
  translated !! i = Some v ->
  settled (pid tk) (resolutions translated tasks) = Some (inr v).
Proof.
  revert translated i. induction tasks as [|t0 tasks IH];
    intros translated i Hnd Htk Hv; [done|].
  rewrite fmap_cons in Hnd. apply NoDup_cons in Hnd as [Hnin Hnd].
  destruct translated as [|v0 translated]; [done|].
  destruct i as [|i]; simpl in *.
  - inversion Htk; inversion Hv; subst. by rewrite decide_True.
  - destruct (decide (pid t0 = pid tk)) as [Heq|_].
    + exfalso. apply Hnin. rewrite Heq. apply list_elem_of_fmap.
      exists tk. split; [done|]. by eapply list_elem_of_lookup_2.
    + by eapply IH.
Qed.

Lemma interval_bounds r : 250 <= interval r <= 1000.
Proof.
  unfold interval. split; [lia|]. apply Z.max_lub; [lia|].
  assert (H : (1000 / Qmax 1 r <= 1000)%Q).
  { assert (H1 : (1 <= Qmax 1 r)%Q) by apply Q.le_max_l.
    assert (Hpos : (0 < Qmax 1 r)%Q) by (eapply Qlt_le_trans; [|exact H1]; reflexivity).
    apply Qle_shift_div_r; [done|].
    apply Qle_trans with (1000 * 1)%Q; [unfold Qle; simpl; lia|].
    apply Qmult_le_l; [reflexivity|done]. }
  apply Qfloor_resp_le in H. exact H.
Qed.

End DispatcherFacts.

Section OrchestratorTotal.

Implicit Types (P : Plugin) (texts : list string).

Lemma fill_originals_length missIdx : forall j missTexts out,
  Forall (fun idx => idx < length out)%nat missIdx ->
  length (fill_originals missIdx j missTexts out) = length out.
Proof.
  induction missIdx as [|idx rest IH]; intros j missTexts out Hr; [done|].
  apply Forall_cons in Hr as [Hidx Hr]. cbn [fill_originals].
  assert (Hl : length (JS.assign out idx (JS.index missTexts j)) = length out).
  { unfold JS.assign. rewrite decide_True by done. apply length_insert. }
  rewrite IH; [done|]. by rewrite Hl.
Qed.

Lemma fill_originals_other missIdx : forall j missTexts out i,
  Forall (fun idx => idx < length out)%nat missIdx ->
  i ∉ missIdx ->
  fill_originals missIdx j missTexts out !! i = out !! i.
Proof.
  induction missIdx as [|idx rest IH]; intros j missTexts out i Hr Hi; [done|].
  apply Forall_cons in Hr as [Hidx Hr]. apply not_elem_of_cons in Hi as [Hne Hi].
  cbn [fill_originals]. rewrite IH; [| |done].
  - unfold JS.assign. rewrite decide_True by done. by apply list_lookup_insert_ne.
  - unfold JS.assign. rewrite decide_True by done. by rewrite length_insert.
Qed.

Lemma fill_originals_out missIdx : forall j missTexts out n idx,
  Forall (fun idx => idx < length out)%nat missIdx ->
  NoDup missIdx ->
  missIdx !! n = Some idx ->
  fill_originals missIdx j missTexts out !! idx
  = Some (JS.index missTexts (j + n)).
Proof.
  induction missIdx as [|idx0 rest IH]; intros j missTexts out n idx Hr Hnd Hn; [done|].
  apply Forall_cons in Hr as [Hidx Hr]. apply NoDup_cons in Hnd as [Hnin Hnd].
  assert (Hl : length (JS.assign out idx0 (JS.index missTexts j)) = length out).
  { unfold JS.assign. rewrite decide_True by done. apply length_insert. }
  cbn [fill_originals]. destruct n as [|n]; simpl in Hn.
  - inversion Hn; subst idx0. rewrite fill_originals_other; [| |done].
    + rewrite Nat.add_0_r. unfold JS.assign. rewrite decide_True by done.
      by apply list_lookup_insert_eq.
    + by rewrite Hl.
  - replace (j + S n)%nat with (S j + n)%nat by lia.
    apply IH; [by rewrite Hl|done|done].
Qed.

Lemma translateMany_settings texts P :
  settings (translateMany texts P).1 = settings P.
Proof.
  unfold translateMany. destruct (decide _); [done|].
  destruct (Settings.offlineOnly _); [done|]. by destruct (provider P _ _ _ _).
Qed.

(** [translateMany] fills every slot: one output per text. *)
Lemma translateMany_length texts P :
  length (translateMany texts P).2 = length texts.
Proof.
  destruct (lookup_missIdx_facts P texts) as (Hnd & Hrange & Hlen).
  unfold translateMany.
  change (scan (diskCache P) 0 _ _) with (lookup_of P texts).
  destruct (decide _); [done|].
  assert (Hfill : forall mt, length (fill_originals (s_missIdx (lookup_of P texts)) 0 mt
                                          (s_out (lookup_of P texts))) = length texts).
  { intros mt. rewrite fill_originals_length; [done|]. by rewrite Hlen. }
  destruct (Settings.offlineOnly _); [apply Hfill|].
  destruct (provider P _ _ _ _); [apply Hfill|].
  cbn [snd]. rewrite store_out_length; cbn [w_out]; [done|]. by rewrite Hlen.
Qed.

(** When the Provider throws, every miss slot holds its original text. *)
Lemma translateMany_throws texts P e i t :
  Settings.offlineOnly (settings P) = false ->
  provider P (length (calls P))
           (missTexts_of texts (s_missIdx (lookup_of P texts)))
           (src_of P) (tgt_of P) = Throws e ->
  i ∈ s_missIdx (lookup_of P texts) ->
  texts !! i = Some t ->
  (translateMany texts P).2 !! i = Some (JS.str t).
Proof.
  intros Hoff Hthrow Hin Ht.
  destruct (lookup_missIdx_facts P texts) as (Hnd & Hrange & Hlen).
  unfold translateMany.
  change (scan (diskCache P) 0 _ _) with (lookup_of P texts).
  destruct (decide _) as [Hz|_].
  { apply nil_length_inv in Hz. rewrite Hz in Hin. by apply elem_of_nil in Hin. }
  rewrite Hoff.
  change (_ <$> s_missIdx (lookup_of P texts))
    with (missTexts_of texts (s_missIdx (lookup_of P texts))).
  change (JS.str_or (Settings.sourceLang (settings P)) "auto") with (src_of P).
  change (JS.str_or (Settings.targetLang (settings P)) "ko") with (tgt_of P).
  rewrite Hthrow. cbn [snd].
  apply list_elem_of_lookup in Hin as [n Hn].
  rewrite (fill_originals_out _ 0 _ _ n i); [|by rewrite Hlen|done|done].
  change (0 + n)%nat with n.
  f_equal. unfold missTexts_of, JS.index at 1. rewrite list_lookup_fmap, Hn. simpl.
  by apply index_str.
Qed.

End OrchestratorTotal.

Section Unwritten.

Implicit Types (P : Plugin) (texts : list string).

(** Without a Provider answer the caches are as the lookup loop leaves
    them. *)
Lemma translateMany_caches_unwritten texts P :
  s_missIdx (lookup_of P texts) = []
  ∨ Settings.offlineOnly (settings P) = true
  ∨ (exists e,
       provider P (length (calls P))
         (missTexts_of texts (s_missIdx (lookup_of P texts)))
         (src_of P) (tgt_of P) = Throws e) ->
  lru (translateMany texts P).1 = s_lru (lookup_of P texts)
  ∧ diskCache (translateMany texts P).1 = diskCache P.
Proof.
  intros Hcase. unfold translateMany.
  change (scan (diskCache P) 0 _ _) with (lookup_of P texts).
  destruct (decide _) as [Hz|Hnz]; [done|].
  destruct Hcase as [Hnil|[Hoff|[e He]]].
  - by rewrite Hnil in Hnz.
  - by rewrite Hoff.
  - destruct (Settings.offlineOnly _); [done|].
    change (_ <$> s_missIdx (lookup_of P texts))
      with (missTexts_of texts (s_missIdx (lookup_of P texts))).
    change (JS.str_or (Settings.sourceLang (settings P)) "auto") with (src_of P).
    change (JS.str_or (Settings.targetLang (settings P)) "ko") with (tgt_of P).
    by rewrite He.
Qed.

End Unwritten.

(** ** Empty entries *)

(** C10 as stated fails: the fingerprint is mapped to the empty string in
    the memory cache, and the text is a hit all the same, served from the
    persistent cache with no Provider invocation. *)
Lemma empty_memory_entry_can_hit :
  mem (lru c10_plugin) (key_of c10_plugin "Hello") = JS.str ""
  ∧ s_missIdx (lookup_of c10_plugin ["Hello"]) = []
  ∧ (translateMany ["Hello"] c10_plugin).2 = [JS.str "annyeong"]
  ∧ calls (translateMany ["Hello"] c10_plugin).1 = [].
Proof. repeat split; vm_compute; reflexivity. Qed.

(** C10 (amended). A text whose fingerprint has a non-empty value in
    neither tier (each tier maps it to the empty string, to [null] or to
    nothing) is a miss: the empty-string entry is not returned as a hit,
    and when the plugin is not offline the text is among those handed to
    the Provider by this call.  In offline mode no Provider is invoked.
    The text is as uncached after the call as before when the plugin is
    offline, when the Provider throws, and when the Provider answers
    the empty string at every position of that fingerprint: the next call
    hands it to the Provider again. *)
Theorem uncached_text_is_resent (texts : list string) (P : Plugin)
    (i : nat) (t : string) :
  LRU.wf (lru P) ->
  texts !! i = Some t ->
  uncached P (key_of P t) ->
  i ∈ s_missIdx (lookup_of P texts)
  ∧ (Settings.offlineOnly (settings P) = false ->
     exists missTexts,
       calls (translateMany texts P).1
       = calls P ++ [Call missTexts (src_of P) (tgt_of P)]
       ∧ JS.str t ∈ missTexts)
  ∧ (Settings.offlineOnly (settings P) = true ->
     calls (translateMany texts P).1 = calls P)
  ∧ (Settings.offlineOnly (settings P) = true
     ∨ (exists e,
          provider P (length (calls P))
            (missTexts_of texts (s_missIdx (lookup_of P texts)))
            (src_of P) (tgt_of P) = Throws e) ->
     uncached (translateMany texts P).1 (key_of P t))
  ∧ (forall translated,
       Settings.offlineOnly (settings P) = false ->
       provider P (length (calls P))
         (missTexts_of texts (s_missIdx (lookup_of P texts)))
         (src_of P) (tgt_of P) = Returns translated ->
       (forall j idx t',
          s_missIdx (lookup_of P texts) !! j = Some idx ->
          texts !! idx = Some t' ->
          key_of P t' = key_of P t ->
          JS.truthy (JS.nullish (JS.index translated j) (JS.str t')) = false) ->
       uncached (translateMany texts P).1 (key_of P t)).
Proof.
  intros Hwf Ht Hun.
  pose proof (uncached_is_miss P texts i t Hwf Ht Hun) as Hin.
  assert (Hne : s_missIdx (lookup_of P texts) ≠ []).
  { intros Hnil. rewrite Hnil in Hin. by apply elem_of_nil in Hin. }
  assert (Hscan : JS.truthy (mem (s_lru (lookup_of P texts)) (key_of P t)) = false).
  { destruct Hun as [Hm Hd]. destruct (lookup_inv P texts Hwf) as (_ & _ & Hprov).
    destruct (Hprov (key_of P t)) as [->|[->|[_ H]]]; [done|done|congruence]. }
  split; [done|]. split; [|split; [|split]].
  - rewrite translateMany_calls.
    destruct (decide _) as [Hz|_]; [by apply nil_length_inv in Hz|].
    intros ->. eexists. split; [done|]. unfold missTexts_of. apply list_elem_of_fmap.
    exists i. split; [|done]. symmetry. by apply index_str.
  - rewrite translateMany_calls.
    destruct (decide _) as [Hz|_]; [by apply nil_length_inv in Hz|]. by intros ->.
  - intros Hcase.
    destruct (translateMany_caches_unwritten texts P) as [Hl Hd].
    { destruct Hcase as [Hoff|He]; [by right; left|by right; right]. }
    unfold uncached. rewrite Hl, Hd. split; [done|]. by destruct Hun.
  - intros translated Hoff Hret Hempty.
    rewrite (translateMany_returns texts P translated Hne Hoff Hret).
    cbv zeta. unfold uncached. cbn [fst lru diskCache with_caches].
    destruct (lookup_missIdx_facts P texts) as (_ & Hrange & _).
    apply store_falsy; cbn [w_lru w_disk].
    + by destruct (lookup_inv P texts Hwf).
    + done.
    + by destruct Hun.
    + intros n idx Hn Hk.
      assert (Hlt : (idx < length texts)%nat).
      { rewrite Forall_forall in Hrange. apply Hrange.
        by eapply list_elem_of_lookup_2. }
      destruct (lookup_lt_is_Some_2 texts idx Hlt) as [t' Ht'].
      unfold key_at in Hk. rewrite list_lookup_fmap, Ht' in Hk. simpl in Hk.
      unfold dst_of. simpl.
      replace (JS.index (missTexts_of texts (s_missIdx (lookup_of P texts))) n)
        with (JS.str t').
      * by eapply Hempty.
      * symmetry. unfold missTexts_of, JS.index at 1.
        rewrite list_lookup_fmap, Hn. simpl. by apply index_str.
Qed.

Lemma uncached_text_is_resent_witness :
  DiskCache.get (key_of c6_plugin_empty "Hello") (diskCache c6_plugin_empty)
  = JS.str ""
  ∧ exists missTexts,
      calls (translateMany ["Hello"] c6_plugin_empty).1
      = [Call missTexts "auto" "ko"]
      ∧ JS.str "Hello" ∈ missTexts.
Proof.
  split; [vm_compute; reflexivity|].
  destruct (uncached_text_is_resent ["Hello"] c6_plugin_empty 0 "Hello")
    as (_ & Hsent & _).
  - apply new_wf.
  - reflexivity.
  - split; vm_compute; reflexivity.
  - apply Hsent. reflexivity.
Defined.

(** ** Batch outcomes *)

(** C8 as stated fails: the Provider call of a batch of two fails, and
    both requests are resolved, with their original texts; none is
    rejected. *)
Lemma provider_failure_resolves_batch :
  provider (fresh DEFAULT_SETTINGS failing) 0%nat
           [JS.str "World"; JS.str "Again"] "auto" "ko"
  = Throws "Azure 500"
  ∧ calls (TranslateQueue.plugin
             (TranslateQueue.resume plugin_translate c8_dispatcher).1)
    = [Call [JS.str "World"; JS.str "Again"] "auto" "ko"]
  ∧ (TranslateQueue.resume plugin_translate c8_dispatcher).2
    = [TranslateQueue.Resolve 1 (JS.str "World");
       TranslateQueue.Resolve 2 (JS.str "Again");
       TranslateQueue.Sleep 250]
  ∧ TranslateQueue.settled 1 (TranslateQueue.resume plugin_translate c8_dispatcher).2
    = Some (inr (JS.str "World"))
  ∧ TranslateQueue.settled 2 (TranslateQueue.resume plugin_translate c8_dispatcher).2
    = Some (inr (JS.str "Again")).
Proof. repeat split; vm_compute; reflexivity. Qed.

(** C8 (amended). When the call [this.plugin.translateMany(texts)] of a
    batch rejects, every request of the batch is rejected with that error,
    none is resolved, none goes back to the queue, and the loop goes on to
    its wait as after a success.  When the call fulfils with one result
    per request, request [i] is resolved with result [i].  A failure of
    the Provider does not reject the call: [translateMany] catches it, so
    that in the plugin every request of a batch is resolved, a miss with
    its original text when the Provider has thrown. *)
Theorem batch_rejects_uniformly_or_zips
    (translate : list string -> Plugin -> Plugin * (string + list JS.val))
    (P : Plugin) (q : list TranslateQueue.task) (r : bool) (iv bs : Z)
    (tasks : list TranslateQueue.task) :
  NoDup (TranslateQueue.pid <$> tasks) ->
  (forall P' e,
     translate (TranslateQueue.text <$> tasks) P = (P', inl e) ->
     TranslateQueue.resume translate
       (TranslateQueue.mk P q r (TranslateQueue.AwaitTranslate iv bs tasks))
     = (TranslateQueue.mk P' q r (TranslateQueue.AwaitSleep iv bs),
        TranslateQueue.reject_all e tasks ++ [TranslateQueue.Sleep iv])
     ∧ forall tk, tk ∈ tasks ->
         TranslateQueue.settled (TranslateQueue.pid tk)
           (TranslateQueue.reject_all e tasks ++ [TranslateQueue.Sleep iv])
         = Some (inl e))
  ∧ (forall P' translated,
       translate (TranslateQueue.text <$> tasks) P = (P', inr translated) ->
       length translated = length tasks ->
       TranslateQueue.resume translate
         (TranslateQueue.mk P q r (TranslateQueue.AwaitTranslate iv bs tasks))
       = (TranslateQueue.mk P' q r (TranslateQueue.AwaitSleep iv bs),
          resolutions translated tasks ++ [TranslateQueue.Sleep iv])
       ∧ forall i tk v, tasks !! i = Some tk -> translated !! i = Some v ->
           TranslateQueue.settled (TranslateQueue.pid tk)
             (resolutions translated tasks ++ [TranslateQueue.Sleep iv])
           = Some (inr v))
  ∧ (forall i tk, tasks !! i = Some tk ->
       exists v,
         (translateMany (TranslateQueue.text <$> tasks) P).2 !! i = Some v
         ∧ TranslateQueue.settled (TranslateQueue.pid tk)
             (TranslateQueue.resume plugin_translate
                (TranslateQueue.mk P q r (TranslateQueue.AwaitTranslate iv bs tasks))).2
           = Some (inr v)
         ∧ (forall e,
              Settings.offlineOnly (settings P) = false ->
              provider P (length (calls P))
                (missTexts_of (TranslateQueue.text <$> tasks)
                   (s_missIdx (lookup_of P (TranslateQueue.text <$> tasks))))
                (src_of P) (tgt_of P) = Throws e ->
              i ∈ s_missIdx (lookup_of P (TranslateQueue.text <$> tasks)) ->
              v = JS.str (TranslateQueue.text tk))).
Proof.
  intros Hnd. split; [|split].
  - intros P' e Hcall. unfold TranslateQueue.resume. simpl. rewrite Hcall.
    split; [done|]. intros tk Htk. unfold TranslateQueue.reject_all. simpl.
    apply settled_app_in. by apply settled_rejections.
  - intros P' translated Hcall Hlen. unfold TranslateQueue.resume. simpl.
    rewrite Hcall, resolve_each_same_length by done.
    split; [done|]. intros i tk v Htk Hv.
    apply settled_app_in. by eapply settled_resolutions.
  - intros i tk Htk.
    pose proof (translateMany_length (TranslateQueue.text <$> tasks) P) as Hlen.
    rewrite length_fmap in Hlen.
    destruct (lookup_lt_is_Some_2 (translateMany (TranslateQueue.text <$> tasks) P).2 i)
      as [v Hv].
    { rewrite Hlen. by eapply lookup_lt_Some. }
    exists v. split; [done|]. split.
    + unfold TranslateQueue.resume, plugin_translate. simpl.
      destruct (translateMany (TranslateQueue.text <$> tasks) P) as [P' out] eqn:Hcall.
      simpl in *. rewrite resolve_each_same_length by done. simpl.
      apply settled_app_in. by eapply settled_resolutions.
    + intros e Hoff Hthrow Hin.
      assert (Ht : (TranslateQueue.text <$> tasks) !! i = Some (TranslateQueue.text tk))
        by by rewrite list_lookup_fmap, Htk.
      pose proof (translateMany_throws _ P e i _ Hoff Hthrow Hin Ht) as Hv'.
      congruence.
Qed.

Lemma batch_rejects_uniformly_or_zips_witness :
  TranslateQueue.resume rejecting c8_dispatcher
  = (TranslateQueue.mk (fresh DEFAULT_SETTINGS failing) [] true
       (TranslateQueue.AwaitSleep 250 20),
     [TranslateQueue.ConsoleError "boom"; TranslateQueue.Reject 1 "boom";
      TranslateQueue.Reject 2 "boom"; TranslateQueue.Sleep 250]).
Proof.
  destruct (batch_rejects_uniformly_or_zips rejecting (fresh DEFAULT_SETTINGS failing)
              [] true 250 20 c8_tasks) as (Hrej & _ & _).
  - by_evaluation.
  - destruct (Hrej (fresh DEFAULT_SETTINGS failing) "boom") as [Hres _].
    + reflexivity.
    + exact Hres.
Defined.

(** ** The wait of the running loop *)

Section Loop.

Import TranslateQueue.

Implicit Types (d : t) (tr : list event) (i : input) (st : Settings.t).

Lemma resume_await_translate translate d iv bs tasks :
  suspended d = AwaitTranslate iv bs tasks ->
  exists evs,
    (resume translate d).2 = evs ++ [Sleep iv]
    ∧ Forall (fun e => settle_event e = true) evs
    ∧ (resume translate d).1
      = mk (translate (text <$> tasks) (plugin d)).1 (queue d) (running d)
           (AwaitSleep iv bs).
Proof.
  intros Hs. unfold resume. rewrite Hs.
  destruct (translate (text <$> tasks) (plugin d)) as [P' [e|translated]];
    cbn [fst snd].
  - exists (reject_all e tasks). split; [done|].
    split; [apply reject_all_settle|done].
  - pose proof (resolve_each_settle translated tasks) as Hse.
    destruct (resolve_each translated tasks) as [evs [|]]; cbn [fst snd] in *.
    + exists (evs ++ reject_all TypeError tasks). split; [done|]. split; [|done].
      apply Forall_app. split; [done|apply reject_all_settle].
    + exists evs. split; [done|]. by split.
Qed.

Lemma loop_top_ok st iv bs d :
  settings (plugin d) = st ->
  running d = true ->
  iv = interval (rps (Settings.rateLimit st)) ->
  bs = batchSize (Settings.rateLimit st) ->
  dispatcher_ok st (loop_top iv bs d).1
  ∧ count is_invoke (loop_top iv bs d).2 = in_flight (loop_top iv bs d).1
  ∧ count is_sleep (loop_top iv bs d).2 = 0%nat
  ∧ sleeps_for (interval (rps (Settings.rateLimit st))) (loop_top iv bs d).2.
Proof.
  intros Hst Hrun Hiv Hbs. unfold loop_top, dispatcher_ok, in_flight, sleeps_for.
  destruct (queue d) as [|tk q] eqn:Hq; simpl;
    repeat split; first [done | by repeat constructor].
Qed.

Lemma step_ok st i d :
  dispatcher_ok st d ->
  dispatcher_ok st (step plugin_translate i d).1
  ∧ (count is_invoke (step plugin_translate i d).2 + in_flight d
     = count is_sleep (step plugin_translate i d).2
       + in_flight (step plugin_translate i d).1)%nat
  ∧ sleeps_for (interval (rps (Settings.rateLimit st))) (step plugin_translate i d).2.
Proof.
  intros [Hst Hd]. destruct i as [tk|]; cbn [step].
  - unfold enqueue, run. cbn [running plugin queue suspended].
    destruct (suspended d) as [|iv bs tasks|iv bs] eqn:Hs.
    + destruct Hd as [Hrun Hq]. rewrite Hrun, Hst.
      destruct (loop_top_ok st (interval (rps (Settings.rateLimit st)))
                  (batchSize (Settings.rateLimit st))
                  (mk (plugin d) (queue d ++ [tk]) true NoFrame))
        as (H1 & H2 & H3 & H4); try done.
      split; [done|]. split; [|done]. unfold in_flight at 1. rewrite Hs. lia.
    + destruct Hd as (Hrun & Hiv & Hbs). rewrite Hrun.
      unfold dispatcher_ok, in_flight, sleeps_for.
      cbn [plugin queue running suspended fst snd count]. rewrite ?Hs.
      repeat split; first [done | lia | constructor].
    + destruct Hd as (Hrun & Hiv & Hbs). rewrite Hrun.
      unfold dispatcher_ok, in_flight, sleeps_for.
      cbn [plugin queue running suspended fst snd count]. rewrite ?Hs.
      repeat split; first [done | lia | constructor].
  - destruct (suspended d) as [|iv bs tasks|iv bs] eqn:Hs.
    + unfold resume. rewrite Hs. destruct Hd as [Hrun Hq].
      unfold dispatcher_ok, in_flight, sleeps_for.
      cbn [plugin queue running suspended fst snd count]. rewrite ?Hs.
      repeat split; first [done | lia | constructor].
    + destruct Hd as (Hrun & Hiv & Hbs).
      destruct (resume_await_translate plugin_translate d iv bs tasks Hs)
        as (evs & Hev & Hsettle & Hd').
      rewrite Hev, Hd'. split; [|split].
      * split; simpl.
        -- unfold plugin_translate.
           pose proof (translateMany_settings (text <$> tasks) (plugin d)) as Hset.
           destruct (translateMany (text <$> tasks) (plugin d)). simpl in *. congruence.
        -- done.
      * rewrite !count_app.
        rewrite (count_settle is_invoke evs), (count_settle is_sleep evs);
          [|by intros []|done|by intros []|done].
        unfold in_flight. rewrite Hs. simpl. lia.
      * unfold sleeps_for. apply Forall_app. split.
        -- eapply Forall_impl; [exact Hsettle|]. by intros [].
        -- by repeat constructor.
    + destruct Hd as (Hrun & Hiv & Hbs). unfold resume. rewrite Hs.
      destruct (loop_top_ok st iv bs d) as (H1 & H2 & H3 & H4); try done.
      split; [done|]. split; [|done]. unfold in_flight at 1. rewrite Hs. lia.
Qed.

Lemma exec_ok st ins : forall d,
  dispatcher_ok st d ->
  dispatcher_ok st (exec plugin_translate ins d).1
  ∧ (count is_invoke (exec plugin_translate ins d).2 + in_flight d
     = count is_sleep (exec plugin_translate ins d).2
       + in_flight (exec plugin_translate ins d).1)%nat
  ∧ sleeps_for (interval (rps (Settings.rateLimit st))) (exec plugin_translate ins d).2.
Proof.
  induction ins as [|i ins IH]; intros d Hd.
  { simpl. split; [done|]. split; [lia|constructor]. }
  cbn [exec]. destruct (step_ok st i d Hd) as (H1 & H2 & H3).
  destruct (step plugin_translate i d) as [d1 e1]. simpl in *.
  destruct (IH d1 H1) as (H4 & H5 & H6).
  destruct (exec plugin_translate ins d1) as [d2 e2]. simpl in *.
  split; [done|]. split.
  - rewrite !count_app. lia.
  - by apply Forall_app.
Qed.

Lemma new_ok P : dispatcher_ok (settings P) (new P).
Proof. by split. Qed.

End Loop.

(** C9 as stated fails on the length of the wait: with [rps] one half the
    loop waits 1000 ms after its batch, where [max(250, 1000 / rps)] is
    2000 ms. *)
Lemma wait_is_capped_at_one_second :
  (TranslateQueue.exec plugin_translate
     [TranslateQueue.Enqueue (TranslateQueue.Task "Hello" 0); TranslateQueue.Resume]
     (TranslateQueue.new (fresh slow_settings answering))).2
  = [TranslateQueue.Invoke ["Hello"];
     TranslateQueue.Resolve 0 (JS.str "translated");
     TranslateQueue.Sleep 1000]
  ∧ (Qmax 250 (1000 / rps (Settings.rateLimit slow_settings)) == 2000)%Q.
Proof. split; vm_compute; reflexivity. Qed.

(** C9 (amended). In every run of the dispatcher of the plugin, each wait
    lasts [max(250, floor(1000 / max(1, rps)))] ms, which is
    [max(250, floor(1000 / rps))] when [rps >= 1] and lies between 250 and
    1000 ms for every [rps]; every completed batch
    call, fulfilled or rejected, is followed by one wait, whatever is left
    in the queue; and the loop stops running only at the top of an
    iteration, when it wakes from a wait and finds the queue empty, so
    that an idle dispatcher has an empty queue. *)
Theorem dispatcher_waits_after_every_batch (P0 : Plugin)
    (ins : list TranslateQueue.input) :
  sleeps_for
    (Z.max 250 (Qfloor (1000 / Qmax 1 (rps (Settings.rateLimit (settings P0))))%Q))
    (TranslateQueue.exec plugin_translate ins (TranslateQueue.new P0)).2
  ∧ ((1 <= rps (Settings.rateLimit (settings P0)))%Q ->
     TranslateQueue.interval (rps (Settings.rateLimit (settings P0)))
     = Z.max 250 (Qfloor (1000 / rps (Settings.rateLimit (settings P0)))%Q))
  ∧ 250 <= TranslateQueue.interval (rps (Settings.rateLimit (settings P0))) <= 1000
  ∧ count TranslateQueue.is_invoke
      (TranslateQueue.exec plugin_translate ins (TranslateQueue.new P0)).2
    = (count TranslateQueue.is_sleep
         (TranslateQueue.exec plugin_translate ins (TranslateQueue.new P0)).2
       + in_flight (TranslateQueue.exec plugin_translate ins (TranslateQueue.new P0)).1)%nat
  ∧ (TranslateQueue.running
       (TranslateQueue.exec plugin_translate ins (TranslateQueue.new P0)).1 = false ->
     TranslateQueue.queue
       (TranslateQueue.exec plugin_translate ins (TranslateQueue.new P0)).1 = [])
  ∧ (forall iv bs tasks,
       TranslateQueue.suspended
         (TranslateQueue.exec plugin_translate ins (TranslateQueue.new P0)).1
       = TranslateQueue.AwaitTranslate iv bs tasks ->
       TranslateQueue.suspended
         (TranslateQueue.resume plugin_translate
            (TranslateQueue.exec plugin_translate ins (TranslateQueue.new P0)).1).1
       = TranslateQueue.AwaitSleep iv bs
       ∧ TranslateQueue.running
           (TranslateQueue.resume plugin_translate
              (TranslateQueue.exec plugin_translate ins (TranslateQueue.new P0)).1).1
         = true
       ∧ last (TranslateQueue.resume plugin_translate
                 (TranslateQueue.exec plugin_translate ins (TranslateQueue.new P0)).1).2
         = Some (TranslateQueue.Sleep iv))
  ∧ (forall i,
       TranslateQueue.running
         (TranslateQueue.exec plugin_translate ins (TranslateQueue.new P0)).1 = true ->
       TranslateQueue.running
         (TranslateQueue.step plugin_translate i
            (TranslateQueue.exec plugin_translate ins (TranslateQueue.new P0)).1).1
       = false ->
       i = TranslateQueue.Resume
       ∧ TranslateQueue.queue
           (TranslateQueue.exec plugin_translate ins (TranslateQueue.new P0)).1 = []
       ∧ exists iv bs,
           TranslateQueue.suspended
             (TranslateQueue.exec plugin_translate ins (TranslateQueue.new P0)).1
           = TranslateQueue.AwaitSleep iv bs).
Proof.
  destruct (exec_ok (settings P0) ins (TranslateQueue.new P0) (new_ok P0))
    as ([Hst Hd] & Hcount & Hsleeps).
  set (d := (TranslateQueue.exec plugin_translate ins (TranslateQueue.new P0)).1) in *.
  split; [exact Hsleeps|]. split.
  { intros Hr. unfold TranslateQueue.interval. by rewrite (Q.max_r _ _ Hr). }
  split; [apply interval_bounds|].
  change (in_flight (TranslateQueue.new P0)) with 0%nat in Hcount.
  split; [lia|]. split; [|split].
  - intros Hrun. destruct (TranslateQueue.suspended d); [by destruct Hd|..];
      destruct Hd as [Hd _]; congruence.
  - intros iv bs tasks Hs.
    destruct (resume_await_translate plugin_translate d iv bs tasks Hs)
      as (evs & Hev & _ & Hd').
    rewrite Hev, Hd'. simpl. rewrite Hs in Hd. destruct Hd as [Hrun _].
    split; [done|]. split; [done|]. by rewrite last_snoc.
  - intros i Hrun Hstop. destruct i as [tk|]; cbn [TranslateQueue.step] in Hstop.
    + unfold TranslateQueue.enqueue, TranslateQueue.run in Hstop.
      cbn [TranslateQueue.running] in Hstop. rewrite Hrun in Hstop.
      simpl in Hstop. congruence.
    + destruct (TranslateQueue.suspended d) as [|iv bs tasks|iv bs] eqn:Hs.
      * destruct Hd as [Hd _]. congruence.
      * destruct (resume_await_translate plugin_translate d iv bs tasks Hs)
          as (_ & _ & _ & Hd').
        rewrite Hd' in Hstop. simpl in Hstop. congruence.
      * unfold TranslateQueue.resume, TranslateQueue.loop_top in Hstop.
        rewrite Hs in Hstop.
        destruct (TranslateQueue.queue d) as [|tk q] eqn:Hq.
        -- split; [done|]. split; [done|]. by exists iv, bs.
        -- simpl in Hstop. congruence.
Qed.

Lemma dispatcher_waits_after_every_batch_witness :
  TranslateQueue.interval 4 = Z.max 250 (Qfloor (1000 / 4)%Q)
  ∧ TranslateQueue.queue
      (TranslateQueue.exec plugin_translate
         [TranslateQueue.Enqueue (TranslateQueue.Task "Hello" 0);
          TranslateQueue.Resume; TranslateQueue.Resume]
         (TranslateQueue.new c1_plugin)).1 = [].
Proof.
  destruct (dispatcher_waits_after_every_batch c1_plugin
              [TranslateQueue.Enqueue (TranslateQueue.Task "Hello" 0);
               TranslateQueue.Resume; TranslateQueue.Resume])
    as (_ & Hformula & _ & _ & Hidle & _).
  split.
  - apply Hformula. vm_compute. discriminate.
  - apply Hidle. vm_compute. reflexivity.
Defined.

(** ** Who calls the dispatcher *)

(** [batch] is what the rendering methods call.  From an idle dispatcher
    its first [enqueue] starts the loop at once, so the first batch holds
    one request and the others wait in the queue. *)
Example batch_starts_with_one_request :
  batch ["Hello"; "World"; "Again"] 0 (TranslateQueue.new c1_plugin)
  = (TranslateQueue.mk c1_plugin
       [TranslateQueue.Task "World" 1; TranslateQueue.Task "Again" 2] true
       (TranslateQueue.AwaitTranslate 250 20 [TranslateQueue.Task "Hello" 0]),
     [TranslateQueue.Invoke ["Hello"]]).
Proof. vm_compute. reflexivity. Qed.


(* ===================================================================== *)
(** * Further properties of the code *)
(* ===================================================================== *)

(** ** The memory cache as a container *)

Section LRUContainer.

Implicit Types (k : string) (v : JS.val) (c : LRU.t).

Lemma evict_length l (m : LRU.entries) n :
  (length m <= S n)%nat -> Z.of_nat n <= Z.max 0 l ->
  Z.of_nat (length (evict l m)) <= Z.max 0 l.
Proof.
  intros Hm Hn. unfold evict.
  destruct (Z.gtb_spec (Z.of_nat (length m)) l) as [Hgt|Hle].
  - destruct m; simpl in *; lia.
  - lia.
Qed.

Lemma apply_op_bound c o :
  LRU.wf c ->
  Z.of_nat (length (LRU.map c)) <= Z.max 0 (LRU.limit c) ->
  LRU.wf (apply_op c o)
  ∧ LRU.limit (apply_op c o) = LRU.limit c
  ∧ Z.of_nat (length (LRU.map (apply_op c o))) <= Z.max 0 (LRU.limit c).
Proof.
  intros Hwf Hb. destruct o as [k|k v]; cbn [apply_op].
  - split; [by apply get_wf|]. split; [apply get_limit|]. by rewrite get_length.
  - split; [by apply set_wf|]. split; [apply set_limit|].
    rewrite set_map by done.
    pose proof (Map_delete_length k (LRU.map c)).
    apply (evict_length _ _ (length (LRU.Map_delete k (LRU.map c)))).
    + rewrite length_app. simpl. lia.
    + lia.
Qed.

Lemma set_others k v k' c :
  LRU.wf c -> k' ≠ k ->
  mem (LRU.set k v c) k' = mem c k' ∨ LRU.has k' (LRU.set k v c) = false.
Proof.
  intros Hwf Hne. unfold mem, LRU.has. rewrite set_map by done. unfold evict.
  pose proof (fresh_entry_NoDup k v (LRU.map c) Hwf) as Hnd.
  pose proof (Map_get_refresh k v k' (LRU.map c)) as Href.
  rewrite decide_False in Href by done.
  destruct (_ >? _); [|by left].
  destruct (LRU.Map_delete k (LRU.map c) ++ [(k, v)]) as [|[f vf] rest]; [by left|].
  rewrite fmap_cons in Hnd. apply NoDup_cons in Hnd as [Hf _]. simpl in *.
  destruct (decide (f = k')) as [->|_]; [|by left].
  right. by apply Map_has_false.
Qed.

Lemma set_all_recent (kvs : list (string * JS.val)) : forall c r k v,
  LRU.wf c ->
  recent r k v c ->
  Forall (fun kv => kv.1 ≠ k) kvs ->
  Z.of_nat (r + length kvs) + 1 <= LRU.limit c ->
  LRU.wf (set_all kvs c) ∧ recent (r + length kvs) k v (set_all kvs c).
Proof.
  induction kvs as [|[k' v'] kvs IH]; intros c r k v Hwf Hrec Hne Hlim.
  { simpl. by rewrite Nat.add_0_r. }
  apply Forall_cons in Hne as [Hk' Hne]. simpl in Hk'.
  unfold set_all. simpl. fold (set_all kvs (LRU.set k' v' c)).
  cbn [length] in *.
  replace (r + S (length kvs))%nat with (S r + length kvs)%nat by lia.
  apply IH.
  - by apply set_wf.
  - apply set_recent_other; [done|done|done|lia].
  - done.
  - rewrite set_limit. lia.
Qed.

End LRUContainer.

(** X1. Whatever [get]s and [set]s a memory cache created by [new LRU(l)]
    goes through, its keys stay distinct, its limit stays the one it was
    created with, and it never holds more entries than its limit; with a
    limit of zero or less it holds nothing. *)
Theorem lru_never_exceeds_limit (l : option Z) (ops : list lru_op) :
  LRU.wf (run_ops ops (LRU.new l))
  ∧ LRU.limit (run_ops ops (LRU.new l)) = default 5000 l
  ∧ Z.of_nat (length (LRU.map (run_ops ops (LRU.new l)))) <= Z.max 0 (default 5000 l)
  ∧ (default 5000 l <= 0 -> LRU.map (run_ops ops (LRU.new l)) = []).
Proof.
  assert (H : forall c, LRU.wf c ->
            Z.of_nat (length (LRU.map c)) <= Z.max 0 (LRU.limit c) ->
            LRU.wf (run_ops ops c)
            ∧ LRU.limit (run_ops ops c) = LRU.limit c
            ∧ Z.of_nat (length (LRU.map (run_ops ops c))) <= Z.max 0 (LRU.limit c)).
  { induction ops as [|o ops IH]; intros c Hwf Hb; [done|].
    destruct (apply_op_bound c o Hwf Hb) as (H1 & H2 & H3).
    unfold run_ops. simpl. fold (run_ops ops (apply_op c o)).
    destruct (IH (apply_op c o)) as (H4 & H5 & H6); [done|by rewrite H2|].
    rewrite H5, H2 in *. done. }
  destruct (H (LRU.new l)) as (H1 & H2 & H3); [apply new_wf|simpl; lia|].
  simpl in H2, H3. split; [done|]. split; [done|]. split; [done|].
  intros Hl. destruct (LRU.map (run_ops ops (LRU.new l))); [done|simpl in H3; lia].
Qed.

Lemma lru_never_exceeds_limit_witness :
  LRU.map (run_ops [OpSet "a" (JS.str "A"); OpGet "a"] (LRU.new (Some 0))) = [].
Proof.
  destruct (lru_never_exceeds_limit (Some 0) [OpSet "a" (JS.str "A"); OpGet "a"])
    as (_ & _ & _ & Hempty).
  apply Hempty. simpl. lia.
Defined.

(** X2. In a memory cache of positive limit, a [set] is read back by the
    next [get] and [has]; the [set] leaves every other key with the value
    it had or evicts it, and never alters it. *)
Theorem lru_set_then_get (c : LRU.t) (k : string) (v : JS.val) :
  LRU.wf c ->
  0 < LRU.limit c ->
  (LRU.get k (LRU.set k v c)).2 = v
  ∧ LRU.has k (LRU.set k v c) = true
  ∧ forall k', k' ≠ k ->
      mem (LRU.set k v c) k' = mem c k' ∨ LRU.has k' (LRU.set k v c) = false.
Proof.
  intros Hwf Hpos.
  pose proof (set_recent_self k v c Hwf Hpos) as Hrec.
  pose proof (set_wf k v c Hwf) as Hwf'.
  split; [|split].
  - rewrite get_value. by apply (recent_mem 0).
  - destruct Hrec as (pre & post & Hmap & _). unfold LRU.has. apply Map_has_true.
    rewrite Hmap, fmap_app, fmap_cons, elem_of_app. right. by left.
  - intros k' Hne. by apply set_others.
Qed.

Lemma lru_set_then_get_witness :
  (LRU.get "a" (LRU.set "a" (JS.str "A") (LRU.new None))).2 = JS.str "A".
Proof.
  destruct (lru_set_then_get (LRU.new None) "a" (JS.str "A")) as [Hget _].
  - apply new_wf.
  - simpl. lia.
  - exact Hget.
Defined.

(** X3. [get] only reorders: it returns the value held for the key
    ([undefined] for a missing key, which leaves the cache as it is),
    keeps the value of every key, the set of keys and the size, and makes
    a key that is present the most recent entry. *)
Theorem lru_get_only_reorders (c : LRU.t) (k : string) :
  LRU.wf c ->
  (LRU.get k c).2 = mem c k
  ∧ (forall k', mem (LRU.get k c).1 k' = mem c k')
  ∧ (forall k', LRU.has k' (LRU.get k c).1 = LRU.has k' c)
  ∧ length (LRU.map (LRU.get k c).1) = length (LRU.map c)
  ∧ (LRU.has k c = false -> LRU.get k c = (c, JS.undefined))
  ∧ (LRU.has k c = true -> last (LRU.map (LRU.get k c).1) = Some (k, mem c k)).
Proof.
  intros Hwf. split; [apply get_value|]. split; [intros k'; apply get_mem|].
  split; [|split; [by apply get_length|split]].
  - intros k'. unfold LRU.has.
    destruct (decide (k ∈ (LRU.map c).*1)) as [Hk|Hk]; [|by rewrite get_miss].
    rewrite get_hit by done. simpl. apply bool_decide_ext.
    rewrite fmap_app, elem_of_app, Map_delete_elem. simpl.
    rewrite list_elem_of_singleton. split.
    + intros [[_ H]| ->]; done.
    + intros H. destruct (decide (k' = k)) as [->|Hne]; [by right|by left].
  - intros Hh. apply Map_has_false in Hh. by apply get_miss.
  - intros Hh. apply Map_has_true in Hh. rewrite get_hit by done. simpl.
    by rewrite last_snoc.
Qed.

Lemma lru_get_only_reorders_witness :
  LRU.get "b" (LRU.set "a" (JS.str "A") (LRU.new None))
  = (LRU.set "a" (JS.str "A") (LRU.new None), JS.undefined).
Proof.
  destruct (lru_get_only_reorders (LRU.set "a" (JS.str "A") (LRU.new None)) "b")
    as (_ & _ & _ & _ & Hmiss & _).
  - apply set_wf, new_wf.
  - apply Hmiss. vm_compute. reflexivity.
Defined.

(** X4. An entry that has just been set survives the [set]s of other keys
    that follow as long as they number less than the limit: it is still
    read back with its value. *)
Theorem lru_entry_survives_fewer_sets_than_limit (c : LRU.t) (k : string)
    (v : JS.val) (kvs : list (string * JS.val)) :
  LRU.wf c ->
  Forall (fun kv => kv.1 ≠ k) kvs ->
  Z.of_nat (length kvs) < LRU.limit c ->
  mem (set_all kvs (LRU.set k v c)) k = v
  ∧ LRU.has k (set_all kvs (LRU.set k v c)) = true.
Proof.
  intros Hwf Hne Hlim.
  destruct (set_all_recent kvs (LRU.set k v c) 0 k v) as [Hwf' Hrec].
  - by apply set_wf.
  - apply set_recent_self; [done|lia].
  - done.
  - rewrite set_limit. simpl. lia.
  - split; [by eapply recent_mem|].
    destruct Hrec as (pre & post & Hmap & _). unfold LRU.has. apply Map_has_true.
    rewrite Hmap, fmap_app, fmap_cons, elem_of_app. right. by left.
Qed.

Lemma lru_entry_survives_fewer_sets_than_limit_witness :
  mem (set_all [("b", JS.str "B")] (LRU.set "a" (JS.str "A") (LRU.new (Some 2)))) "a"
  = JS.str "A".
Proof.
  destruct (lru_entry_survives_fewer_sets_than_limit (LRU.new (Some 2)) "a"
              (JS.str "A") [("b", JS.str "B")]) as [Hmem _].
  - apply new_wf.
  - repeat constructor. discriminate.
  - simpl. lia.
  - exact Hmem.
Defined.


(** ** The persistent cache: bursts of writes, loading, importing *)

Section DiskFacts.

Implicit Types (d : DiskCache.t) (kvs : list (string * JS.val)).

Lemma disk_sets_path kvs : forall d,
  DiskCache.path (disk_sets kvs d) = DiskCache.path d.
Proof.
  induction kvs as [|kv kvs IH]; intros d; [done|].
  unfold disk_sets. simpl. fold (disk_sets kvs (DiskCache.set kv.1 kv.2 d)).
  by rewrite IH.
Qed.

Lemma disk_sets_flags kvs : forall d,
  (DiskCache.dirty d = true ∧ DiskCache.pending d = true) ∨ kvs ≠ [] ->
  DiskCache.dirty (disk_sets kvs d) = true
  ∧ DiskCache.pending (disk_sets kvs d) = true.
Proof.
  induction kvs as [|kv kvs IH]; intros d Hd.
  - by destruct Hd.
  - unfold disk_sets. simpl. fold (disk_sets kvs (DiskCache.set kv.1 kv.2 d)).
    apply IH. by left.
Qed.

Lemma disk_sets_other kvs : forall d k,
  k ∉ kvs.*1 -> DiskCache.get k (disk_sets kvs d) = DiskCache.get k d.
Proof.
  induction kvs as [|[k0 v0] kvs IH]; intros d k Hk; [done|].
  rewrite fmap_cons in Hk. apply not_elem_of_cons in Hk as [Hne Hk]. simpl in Hne.
  unfold disk_sets. simpl. fold (disk_sets kvs (DiskCache.set k0 v0 d)).
  rewrite IH by done. unfold DiskCache.get, DiskCache.set. simpl.
  by rewrite lookup_insert_ne.
Qed.

Lemma disk_sets_last kvs : forall d i k v,
  kvs !! i = Some (k, v) ->
  (forall j kv, (i < j)%nat -> kvs !! j = Some kv -> kv.1 ≠ k) ->
  DiskCache.get k (disk_sets kvs d) = v.
Proof.
  induction kvs as [|[k0 v0] kvs IH]; intros d i k v Hi Hlater; [done|].
  unfold disk_sets. simpl. fold (disk_sets kvs (DiskCache.set k0 v0 d)).
  destruct i as [|i]; simpl in Hi.
  - inversion Hi; subst. rewrite disk_sets_other.
    + unfold DiskCache.get, DiskCache.set. simpl. by rewrite lookup_insert_eq.
    + intros Hin. apply list_elem_of_fmap in Hin as (kv & Hk & Hin).
      apply list_elem_of_lookup in Hin as [j Hj].
      by apply (Hlater (S j) kv ltac:(lia) Hj).
  - apply (IH _ i); [done|]. intros j kv Hlt Hj.
    apply (Hlater (S j) kv); [lia|done].
Qed.

End DiskFacts.

(** X5. A burst of [set]s on the persistent cache leaves one flush
    scheduled; when the timer fires there is exactly one write, of the
    whole mapping, in which every key of the burst has its last value and
    every other key the value it had; after it the store is clean and a
    further flush writes nothing. *)
Theorem burst_of_sets_makes_one_write (d : DiskCache.t)
    (kvs : list (string * JS.val)) (write_ok : bool) :
  kvs ≠ [] ->
  DiskCache.pending (disk_sets kvs d) = true
  ∧ (DiskCache.timer_fires write_ok (disk_sets kvs d)).2
    = DiskCache.Write (DiskCache.path d) (DiskCache.map (disk_sets kvs d))
        :: (if write_ok then [] else [DiskCache.ConsoleError "cache write fail"])
  ∧ (forall i k v, kvs !! i = Some (k, v) ->
       (forall j kv, (i < j)%nat -> kvs !! j = Some kv -> kv.1 ≠ k) ->
       DiskCache.get k (disk_sets kvs d) = v)
  ∧ (forall k, k ∉ kvs.*1 -> DiskCache.get k (disk_sets kvs d) = DiskCache.get k d)
  ∧ DiskCache.pending (DiskCache.timer_fires write_ok (disk_sets kvs d)).1 = false
  ∧ (forall write_ok',
       (DiskCache.flush write_ok'
          (DiskCache.timer_fires write_ok (disk_sets kvs d)).1).2 = []).
Proof.
  intros Hne.
  destruct (disk_sets_flags kvs d) as [Hdirty Hpending]; [by right|].
  pose proof (disk_sets_path kvs d) as Hpath.
  split; [done|]. split; [|split; [|split; [|split]]].
  - unfold DiskCache.timer_fires, DiskCache.flush. simpl.
    by rewrite Hdirty, Hpath.
  - intros i k v Hi Hlater. by eapply disk_sets_last.
  - intros k Hk. by apply disk_sets_other.
  - unfold DiskCache.timer_fires, DiskCache.flush. simpl. by rewrite Hdirty.
  - intros w'. unfold DiskCache.timer_fires, DiskCache.flush. simpl.
    by rewrite Hdirty.
Qed.

Lemma burst_of_sets_makes_one_write_witness :
  (DiskCache.timer_fires true
     (disk_sets [("a", JS.str "A"); ("a", JS.str "B")] DiskCache.new)).2
  = [DiskCache.Write ""
       (DiskCache.map (disk_sets [("a", JS.str "A"); ("a", JS.str "B")] DiskCache.new))]
  ∧ DiskCache.get "a" (disk_sets [("a", JS.str "A"); ("a", JS.str "B")] DiskCache.new)
    = JS.str "B".
Proof.
  destruct (burst_of_sets_makes_one_write DiskCache.new
              [("a", JS.str "A"); ("a", JS.str "B")] true) as (_ & Hw & Hlast & _).
  - discriminate.
  - split; [exact Hw|]. apply (Hlast 1%nat); [reflexivity|].
    intros [|[|j]] kv Hlt Hj; [lia|lia|done].
Defined.



Section ImportCache.

Implicit Types (P : Plugin).


End ImportCache.




(** ** More on [translateMany] *)

Section Slots.

Variables (lru0 : LRU.t) (disk : DiskCache.t).

Implicit Types (k : string) (s : scan_state) (i : nat).

(** The loop leaves the slots from [i + length keys] on as they are. *)
Lemma scan_out_above keys : forall i s j,
  (i + length keys <= length (s_out s))%nat ->
  (i + length keys <= j)%nat ->
  s_out (scan disk i keys s) !! j = s_out s !! j.
Proof.
  induction keys as [|k keys IH]; intros i s j Hlen Hj; [done|].
  simpl in *. rewrite IH; [| |lia].
  - rewrite scan_step_eq. simpl. destruct (JS.truthy _); [|done].
    simpl. unfold JS.assign. rewrite decide_True by lia.
    apply list_lookup_insert_ne. lia.
  - rewrite scan_step_eq. simpl. destruct (JS.truthy _); [|simpl; lia].
    simpl. unfold JS.assign. rewrite decide_True by lia. rewrite length_insert. lia.
Qed.

(** A position whose cached value is falsy is recorded as a miss. *)
Lemma scan_position_miss keys s0 i k :
  (length keys <= length (s_out s0))%nat ->
  keys !! i = Some k ->
  JS.truthy (JS.or (mem (s_lru (scan disk 0 (take i keys) s0)) k)
                   (DiskCache.get k disk)) = false ->
  i ∈ s_missIdx (scan disk 0 keys s0)
  ∧ s_out (scan disk 0 keys s0) !! i = s_out s0 !! i.
Proof.
  intros Hlen Hk Hf.
  pose proof (lookup_lt_Some _ _ _ Hk) as Hi.
  set (si := scan disk 0 (take i keys) s0) in *.
  assert (Hlsi : length (s_out si) = length (s_out s0)).
  { apply scan_out_length. rewrite length_take. lia. }
  assert (Hosi : s_out si !! i = s_out s0 !! i).
  { apply scan_out_above; rewrite length_take; lia. }
  rewrite <- (take_drop_middle keys i k Hk) at 1 2.
  rewrite scan_app. fold si. rewrite length_take, Nat.min_l by lia.
  cbn [Nat.add scan].
  assert (Hstep : scan_step disk i k si
                  = ScanState (LRU.get k (s_lru si)).1 (s_out si) (s_missIdx si ++ [i])).
  { rewrite scan_step_eq. cbv zeta. by rewrite Hf. }
  rewrite Hstep. split.
  - destruct (scan_missIdx_grows disk (drop (S i) keys) (S i)
                (ScanState (LRU.get k (s_lru si)).1 (s_out si) (s_missIdx si ++ [i])))
      as (new & -> & _).
    cbn [s_missIdx]. rewrite !elem_of_app. left. right. by apply list_elem_of_singleton.
  - rewrite scan_out_below; cbn [s_out]; [done| |lia].
    rewrite length_drop. lia.
Qed.

End Slots.


Section SlotsOfTranslateMany.

Implicit Types (P : Plugin) (texts : list string).

(** Every position is a miss or holds a truthy value of one of the tiers. *)
Lemma lookup_slot P texts i t :
  LRU.wf (lru P) ->
  texts !! i = Some t ->
  i ∈ s_missIdx (lookup_of P texts)
  ∨ ((i ∉ s_missIdx (lookup_of P texts))
     ∧ (exists v,
          s_out (lookup_of P texts) !! i = Some v
          ∧ JS.truthy v = true
          ∧ (v = mem (lru P) (key_of P t)
             ∨ v = DiskCache.get (key_of P t) (diskCache P)))).
Proof.
  intros Hwf Ht.
  destruct (decide (i ∈ s_missIdx (lookup_of P texts))) as [Hin|Hnin]; [by left|].
  right. split; [done|].
  set (s0 := ScanState (lru P) (replicate (length texts) JS.undefined) []).
  assert (Hinv0 : scan_inv (lru P) (diskCache P) s0) by by apply scan_inv_init.
  assert (Hlen0 : (length (key_of P <$> texts) <= length (s_out s0))%nat).
  { simpl. by rewrite length_fmap, length_replicate. }
  assert (Hk : (key_of P <$> texts) !! i = Some (key_of P t))
    by by rewrite list_lookup_fmap, Ht.
  destruct (JS.truthy (JS.or (mem (s_lru (scan (diskCache P) 0
                                           (take i (key_of P <$> texts)) s0))
                                  (key_of P t))
                             (DiskCache.get (key_of P t) (diskCache P)))) eqn:Hc.
  - destruct (scan_position (lru P) (diskCache P) _ s0 i _ Hinv0 Hlen0 Hk Hc)
      as (Hout & _ & _).
    eexists. split; [exact Hout|]. split; [done|].
    assert (Hsi : scan_inv (lru P) (diskCache P)
                    (scan (diskCache P) 0 (take i (key_of P <$> texts)) s0))
      by by apply scan_inv_preserved.
    destruct Hsi as (_ & _ & Hprov). unfold JS.or in *.
    destruct (JS.truthy (mem _ (key_of P t))) eqn:Hm; [|by right].
    destruct (Hprov (key_of P t)) as [Hu|[Hl|[Hd _]]].
    + rewrite Hu in Hm. done.
    + by left.
    + by right.
  - destruct (scan_position_miss (diskCache P) _ s0 i _ Hlen0 Hk Hc) as [Hin _].
    done.
Qed.

(** A position that is not a miss keeps the value the lookup loop found. *)
Lemma translateMany_hit_slot P texts i :
  i ∉ s_missIdx (lookup_of P texts) ->
  (translateMany texts P).2 !! i = s_out (lookup_of P texts) !! i.
Proof.
  intros Hnin. destruct (lookup_missIdx_facts P texts) as (Hnd & Hrange & Hlen).
  unfold translateMany.
  change (scan (diskCache P) 0 _ _) with (lookup_of P texts).
  destruct (decide _); [done|].
  assert (Hfill : forall mt, fill_originals (s_missIdx (lookup_of P texts)) 0 mt
                               (s_out (lookup_of P texts)) !! i
                             = s_out (lookup_of P texts) !! i).
  { intros mt. apply fill_originals_other; [by rewrite Hlen|done]. }
  destruct (Settings.offlineOnly _); [apply Hfill|].
  destruct (provider P _ _ _ _); [apply Hfill|].
  cbn [snd]. apply store_out_other; cbn [w_out]; [by rewrite Hlen|done].
Qed.

(** With no answer from the Provider a miss comes back as its text. *)
Lemma translateMany_unanswered P texts i t :
  Settings.offlineOnly (settings P) = true
  ∨ (exists e,
       provider P (length (calls P))
         (missTexts_of texts (s_missIdx (lookup_of P texts)))
         (src_of P) (tgt_of P) = Throws e) ->
  i ∈ s_missIdx (lookup_of P texts) ->
  texts !! i = Some t ->
  (translateMany texts P).2 !! i = Some (JS.str t).
Proof.
  intros Hcase Hin Ht.
  destruct Hcase as [Hoff|[e He]].
  - destruct (lookup_missIdx_facts P texts) as (Hnd & Hrange & Hlen).
    unfold translateMany.
    change (scan (diskCache P) 0 _ _) with (lookup_of P texts).
    destruct (decide _) as [Hz|_].
    { apply nil_length_inv in Hz. rewrite Hz in Hin. by apply elem_of_nil in Hin. }
    rewrite Hoff. cbn [snd].
    apply list_elem_of_lookup in Hin as [n Hn].
    rewrite (fill_originals_out _ 0 _ _ n i); [|by rewrite Hlen|done|done].
    change (0 + n)%nat with n. f_equal.
    change (_ <$> s_missIdx (lookup_of P texts))
      with (missTexts_of texts (s_missIdx (lookup_of P texts))).
    unfold missTexts_of, JS.index at 1. rewrite list_lookup_fmap, Hn. simpl.
    by apply index_str.
  - destruct (Settings.offlineOnly (settings P)) eqn:Hoff.
    + destruct (lookup_missIdx_facts P texts) as (Hnd & Hrange & Hlen).
      unfold translateMany.
      change (scan (diskCache P) 0 _ _) with (lookup_of P texts).
      destruct (decide _) as [Hz|_].
      { apply nil_length_inv in Hz. rewrite Hz in Hin. by apply elem_of_nil in Hin. }
      rewrite Hoff. cbn [snd].
      apply list_elem_of_lookup in Hin as [n Hn].
      rewrite (fill_originals_out _ 0 _ _ n i); [|by rewrite Hlen|done|done].
      change (0 + n)%nat with n. f_equal.
      change (_ <$> s_missIdx (lookup_of P texts))
        with (missTexts_of texts (s_missIdx (lookup_of P texts))).
      unfold missTexts_of, JS.index at 1. rewrite list_lookup_fmap, Hn. simpl.
      by apply index_str.
    + by eapply translateMany_throws.
Qed.




End SlotsOfTranslateMany.



(** X9. In offline mode, and when the Provider throws, nothing is written
    to the persistent cache and the failure does not reach the caller:
    each text that is a miss comes back as itself (in particular every
    text no tier has a non-empty value for), and each other text comes
    back as the non-empty value one of the tiers holds for it. *)
Theorem unanswered_misses_come_back_as_originals (texts : list string)
    (P : Plugin) (i : nat) (t : string) :
  LRU.wf (lru P) ->
  Settings.offlineOnly (settings P) = true
  ∨ (exists e,
       provider P (length (calls P))
         (missTexts_of texts (s_missIdx (lookup_of P texts)))
         (src_of P) (tgt_of P) = Throws e) ->
  texts !! i = Some t ->
  diskCache (translateMany texts P).1 = diskCache P
  ∧ (i ∈ s_missIdx (lookup_of P texts) ->
     (translateMany texts P).2 !! i = Some (JS.str t))
  ∧ (uncached P (key_of P t) ->
     (translateMany texts P).2 !! i = Some (JS.str t))
  ∧ (i ∉ s_missIdx (lookup_of P texts) ->
     exists v,
       (translateMany texts P).2 !! i = Some v
       ∧ JS.truthy v = true
       ∧ (v = mem (lru P) (key_of P t)
          ∨ v = DiskCache.get (key_of P t) (diskCache P))).
Proof.
  intros Hwf Hcase Ht.
  destruct (translateMany_caches_unwritten texts P) as [_ Hd].
  { by right. }
  split; [done|]. split; [|split].
  - intros Hin. by apply translateMany_unanswered.
  - intros Hun. apply translateMany_unanswered; [done| |done].
    by apply (uncached_is_miss P texts i t).
  - intros Hnin.
    destruct (lookup_slot P texts i t Hwf Ht) as [Hin|(_ & v & Hv & Htr & Hpr)]; [done|].
    exists v. by rewrite translateMany_hit_slot.
Qed.

Lemma unanswered_misses_come_back_as_originals_witness :
  (translateMany ["Hello"; "World"] c8_plugin_failing).2 !! 0%nat
  = Some (JS.str "Hello")
  ∧ diskCache (translateMany ["Hello"; "World"] c8_plugin_failing).1
    = diskCache c8_plugin_failing.
Proof.
  destruct (unanswered_misses_come_back_as_originals ["Hello"; "World"]
              c8_plugin_failing 0 "Hello") as (Hd & _ & Hun & _).
  - apply new_wf.
  - right. by exists "Azure 500".
  - reflexivity.
  - split; [|exact Hd]. apply Hun. split; vm_compute; reflexivity.
Defined.


Section Shape.

Implicit Types (P : Plugin) (texts : list string).

Lemma scan_bound disk keys : forall i s,
  LRU.wf (s_lru s) -> within_limit (s_lru s) ->
  LRU.wf (s_lru (scan disk i keys s))
  ∧ within_limit (s_lru (scan disk i keys s))
  ∧ LRU.limit (s_lru (scan disk i keys s)) = LRU.limit (s_lru s).
Proof.
  unfold within_limit.
  induction keys as [|k keys IH]; intros i s Hwf Hb; [done|].
  cbn [scan].
  destruct (apply_op_bound (s_lru s) (OpGet k) Hwf Hb) as (Hw1 & Hl1 & Hb1).
  cbn [apply_op] in *. rewrite <- Hl1 in Hb1.
  assert (Hstep : LRU.wf (s_lru (scan_step disk i k s))
                  ∧ Z.of_nat (length (LRU.map (s_lru (scan_step disk i k s))))
                    <= Z.max 0 (LRU.limit (s_lru (scan_step disk i k s)))
                  ∧ LRU.limit (s_lru (scan_step disk i k s)) = LRU.limit (s_lru s)).
  { rewrite scan_step_eq. cbv zeta. destruct (JS.truthy _); cbn [s_lru].
    - destruct (apply_op_bound (LRU.get k (s_lru s)).1
                  (OpSet k (JS.or (mem (s_lru s) k) (DiskCache.get k disk))) Hw1 Hb1)
        as (Hw2 & Hl2 & Hb2).
      cbn [apply_op] in *. rewrite Hl2. split; [done|]. split; [done|]. done.
    - done. }
  destruct Hstep as (Hw & Hb' & Hl).
  destruct (IH (S i) (scan_step disk i k s) Hw Hb') as (H1 & H2 & H3).
  split; [done|]. split; [done|]. by rewrite H3.
Qed.

Lemma store_bound keys translated missTexts missIdx : forall j s,
  LRU.wf (w_lru s) -> within_limit (w_lru s) ->
  within_limit (w_lru (store keys translated missTexts missIdx j s)).
Proof.
  unfold within_limit.
  induction missIdx as [|idx rest IH]; intros j s Hwf Hb; [done|].
  cbn [store].
  destruct (apply_op_bound (w_lru s)
              (OpSet (default "" (keys !! idx)) (dst_of translated missTexts j)) Hwf Hb)
    as (Hw & Hl & Hb').
  cbn [apply_op] in *. rewrite <- Hl in Hb'.
  by apply IH.
Qed.

(** What one call leaves of the plugin, whatever its branch. *)
Lemma translateMany_shape texts P :
  LRU.wf (lru P) -> within_limit (lru P) ->
  settings (translateMany texts P).1 = settings P
  ∧ providerName (translateMany texts P).1 = providerName P
  ∧ LRU.wf (lru (translateMany texts P).1)
  ∧ LRU.limit (lru (translateMany texts P).1) = LRU.limit (lru P)
  ∧ within_limit (lru (translateMany texts P).1)
  ∧ (exists cs, calls (translateMany texts P).1 = calls P ++ cs ∧ (length cs <= 1)%nat).
Proof.
  intros Hwf Hb.
  destruct (scan_bound (diskCache P) (key_of P <$> texts) 0
              (ScanState (lru P) (replicate (length texts) JS.undefined) []) Hwf Hb)
    as (Hw & Hb' & Hl).
  fold (lookup_of P texts) in Hw, Hb', Hl. cbn [s_lru] in Hl.
  split; [apply translateMany_settings|].
  unfold translateMany.
  change (scan (diskCache P) 0 _ _) with (lookup_of P texts).
  destruct (decide _).
  { cbn. repeat split; try done. exists []. split; [by rewrite app_nil_r|simpl; lia]. }
  destruct (Settings.offlineOnly _).
  { cbn. repeat split; try done. exists []. split; [by rewrite app_nil_r|simpl; lia]. }
  destruct (provider P _ _ _ _).
  { cbn. repeat split; try done. eexists. split; [done|]. simpl. lia. }
  cbn [fst lru providerName calls with_caches].
  split; [done|].
  destruct (store_lru_inv (key_of P <$> texts) translated
              ((fun i => JS.index (JS.str <$> texts) i) <$> s_missIdx (lookup_of P texts))
              (s_missIdx (lookup_of P texts)) 0
              (StoreState (s_lru (lookup_of P texts)) (diskCache P)
                          (s_out (lookup_of P texts))) Hw) as [Hw2 Hl2].
  split; [exact Hw2|]. split; [etransitivity; [exact Hl2|exact Hl]|]. split.
  - by apply store_bound.
  - eexists. split; [done|]. simpl. lia.
Qed.

(** Storing truthy values makes every key written truthy on disk and
    keeps the others truthy. *)
Lemma store_truthy keys translated missTexts missIdx : forall j s,
  (forall n, (n < length missIdx)%nat ->
     JS.truthy (dst_of translated missTexts (j + n)) = true) ->
  (forall k, JS.truthy (DiskCache.get k (w_disk s)) = true ->
     JS.truthy (DiskCache.get k (w_disk (store keys translated missTexts missIdx j s)))
     = true)
  ∧ (forall n idx, missIdx !! n = Some idx ->
       JS.truthy (DiskCache.get (key_at keys idx)
                    (w_disk (store keys translated missTexts missIdx j s))) = true).
Proof.
  induction missIdx as [|idx0 rest IH]; intros j s Hdst; [done|].
  cbn [store]. fold (key_at keys idx0).
  set (s1 := StoreState _ _ _).
  assert (Hd0 : JS.truthy (dst_of translated missTexts j) = true).
  { rewrite <- (Nat.add_0_r j). apply Hdst. simpl. lia. }
  assert (Hkeep : forall k, JS.truthy (DiskCache.get k (w_disk s)) = true ->
                    JS.truthy (DiskCache.get k (w_disk s1)) = true).
  { intros k Hk. unfold s1, DiskCache.get, DiskCache.set. simpl.
    destruct (decide (key_at keys idx0 = k)) as [->|Hne].
    - by rewrite lookup_insert_eq.
    - by rewrite lookup_insert_ne. }
  destruct (IH (S j) s1) as [IH1 IH2].
  { intros n Hn. replace (S j + n)%nat with (j + S n)%nat by lia.
    apply Hdst. simpl. lia. }
  split.
  - intros k Hk. by apply IH1, Hkeep.
  - intros [|n] idx Hn; simpl in Hn.
    + inversion Hn; subst idx0. apply IH1.
      unfold s1, DiskCache.get, DiskCache.set. simpl. by rewrite lookup_insert_eq.
    + by eapply IH2.
Qed.

(** Texts that all have a truthy value on disk make no miss. *)
Lemma disk_truthy_no_miss P texts :
  (forall t, t ∈ texts ->
     JS.truthy (DiskCache.get (key_of P t) (diskCache P)) = true) ->
  s_missIdx (lookup_of P texts) = [].
Proof.
  intros Hdisk. rewrite <- lookup_after_all. unfold lookup_after.
  rewrite (scan_no_miss (diskCache P)); [done| |by rewrite length_fmap].
  intros i k Hk. rewrite truthy_or. rewrite list_lookup_fmap in Hk.
  destruct (texts !! i) as [t|] eqn:Ht; [|done]. inversion Hk; subst k.
  rewrite Hdisk; [apply orb_true_r|]. by eapply list_elem_of_lookup_2.
Qed.

End Shape.

(** X10. Through any sequence of [translateMany] calls the plugin keeps
    its settings and provider name, its memory cache keeps distinct keys,
    its limit, and at most that many entries, and the log of Provider
    invocations only grows, by at most one invocation per call. *)
Theorem translations_keep_the_plugin_in_shape (batches : list (list string))
    (P : Plugin) :
  LRU.wf (lru P) ->
  within_limit (lru P) ->
  settings (run_translations batches P) = settings P
  ∧ providerName (run_translations batches P) = providerName P
  ∧ LRU.wf (lru (run_translations batches P))
  ∧ LRU.limit (lru (run_translations batches P)) = LRU.limit (lru P)
  ∧ within_limit (lru (run_translations batches P))
  ∧ (exists cs,
       calls (run_translations batches P) = calls P ++ cs
       ∧ (length cs <= length batches)%nat).
Proof.
  revert P. induction batches as [|texts batches IH]; intros P Hwf Hb.
  { simpl. repeat split; try done. exists []. split; [by rewrite app_nil_r|simpl; lia]. }
  destruct (translateMany_shape texts P Hwf Hb)
    as (Hs & Hn & Hw & Hl & Hb' & cs & Hcs & Hlen).
  unfold run_translations. simpl.
  fold (run_translations batches (translateMany texts P).1).
  destruct (IH (translateMany texts P).1 Hw Hb')
    as (Hs2 & Hn2 & Hw2 & Hl2 & Hb2 & cs2 & Hcs2 & Hlen2).
  split; [congruence|]. split; [congruence|]. split; [done|].
  split; [congruence|]. split; [done|].
  exists (cs ++ cs2). rewrite Hcs2, Hcs, <- app_assoc. split; [done|].
  rewrite length_app. lia.
Qed.

Lemma translations_keep_the_plugin_in_shape_witness :
  within_limit (lru (run_translations [["Hello"]; ["Hello"; "World"]] c1_plugin))
  ∧ exists cs,
      calls (run_translations [["Hello"]; ["Hello"; "World"]] c1_plugin) = [] ++ cs
      ∧ (length cs <= 2)%nat.
Proof.
  destruct (translations_keep_the_plugin_in_shape [["Hello"]; ["Hello"; "World"]]
              c1_plugin) as (_ & _ & _ & _ & Hb & Hcs).
  - apply new_wf.
  - unfold within_limit. simpl. lia.
  - split; [exact Hb|exact Hcs].
Defined.

(** X11. When the Provider has answered a call and every value stored for
    a miss is non-empty, every text of a later list that was a miss of
    that call, or that already had a non-empty value in the persistent
    cache, is served from the caches: the later call invokes no Provider
    and returns a non-empty string for each text. *)
Theorem answered_texts_are_served_from_cache (texts texts2 : list string)
    (P : Plugin) (translated : list JS.val) :
  LRU.wf (lru P) ->
  Settings.offlineOnly (settings P) = false ->
  provider P (length (calls P))
    (missTexts_of texts (s_missIdx (lookup_of P texts)))
    (src_of P) (tgt_of P) = Returns translated ->
  (forall j idx t, s_missIdx (lookup_of P texts) !! j = Some idx ->
     texts !! idx = Some t ->
     JS.truthy (JS.nullish (JS.index translated j) (JS.str t)) = true) ->
  (forall t, t ∈ texts2 ->
     (exists idx, idx ∈ s_missIdx (lookup_of P texts) ∧ texts !! idx = Some t)
     ∨ JS.truthy (DiskCache.get (key_of P t) (diskCache P)) = true) ->
  calls (translateMany texts2 (translateMany texts P).1).1
  = calls (translateMany texts P).1
  ∧ length (translateMany texts2 (translateMany texts P).1).2 = length texts2
  ∧ forall i t, texts2 !! i = Some t ->
      exists v, (translateMany texts2 (translateMany texts P).1).2 !! i = Some v
                ∧ JS.truthy v = true.
Proof.
  intros Hwf Hoff Hret Hdst Hcover.
  destruct (lookup_missIdx_facts P texts) as (Hnd & Hrange & Hlen).
  destruct (lookup_inv P texts Hwf) as (Hwfs & _ & _).
  set (P1 := (translateMany texts P).1).
  assert (Hkey : forall t, key_of P1 t = key_of P t).
  { intros t. unfold key_of, src_of, tgt_of, P1.
    pose proof (translateMany_settings texts P) as Hs. rewrite Hs.
    unfold translateMany. destruct (decide _); [done|].
    destruct (Settings.offlineOnly _); [done|]. by destruct (provider P _ _ _ _). }
  assert (Hwf1 : LRU.wf (lru P1)).
  { destruct (decide (s_missIdx (lookup_of P texts) = [])) as [Hnil|Hne].
    - unfold P1. by rewrite translateMany_no_miss.
    - unfold P1. rewrite (translateMany_returns texts P translated Hne Hoff Hret).
      cbv zeta. cbn [fst lru with_caches]. by apply store_lru_inv. }
  assert (Hdisk1 : forall t, t ∈ texts2 ->
            JS.truthy (DiskCache.get (key_of P1 t) (diskCache P1)) = true).
  { intros t Ht. rewrite Hkey.
    destruct (decide (s_missIdx (lookup_of P texts) = [])) as [Hnil|Hne].
    { unfold P1. rewrite translateMany_no_miss by done. cbn [fst diskCache with_caches].
      destruct (Hcover t Ht) as [(idx & Hin & _)|Hd]; [|done].
      rewrite Hnil in Hin. by apply elem_of_nil in Hin. }
    unfold P1. rewrite (translateMany_returns texts P translated Hne Hoff Hret).
    cbv zeta. cbn [fst diskCache with_caches].
    destruct (store_truthy (key_of P <$> texts) translated
                (missTexts_of texts (s_missIdx (lookup_of P texts)))
                (s_missIdx (lookup_of P texts)) 0
                (StoreState (s_lru (lookup_of P texts)) (diskCache P)
                            (s_out (lookup_of P texts)))) as [Hkeep Hnew].
    { intros n Hn. destruct (lookup_lt_is_Some_2 _ n Hn) as [idx Hidx].
      assert (Hlt : (idx < length texts)%nat).
      { rewrite Forall_forall in Hrange. apply Hrange.
        by eapply list_elem_of_lookup_2. }
      destruct (lookup_lt_is_Some_2 texts idx Hlt) as [t' Ht'].
      unfold dst_of. simpl.
      replace (JS.index (missTexts_of texts (s_missIdx (lookup_of P texts))) n)
        with (JS.str t').
      - by eapply Hdst.
      - symmetry. unfold missTexts_of, JS.index at 1.
        rewrite list_lookup_fmap, Hidx. simpl. by apply index_str. }
    destruct (Hcover t Ht) as [(idx & Hin & Hidx)|Hd].
    - apply list_elem_of_lookup in Hin as [n Hn].
      specialize (Hnew n idx Hn). unfold key_at in Hnew.
      by rewrite list_lookup_fmap, Hidx in Hnew.
    - by apply Hkeep. }
  pose proof (disk_truthy_no_miss P1 texts2 Hdisk1) as Hnil.
  split; [|split].
  - rewrite translateMany_calls, Hnil. done.
  - apply translateMany_length.
  - intros i t Ht.
    destruct (lookup_slot P1 texts2 i t Hwf1 Ht) as [Hin|(Hnin & v & Hv & Htr & _)].
    + rewrite Hnil in Hin. by apply elem_of_nil in Hin.
    + exists v. by rewrite translateMany_hit_slot.
Qed.

Lemma answered_texts_are_served_from_cache_witness :
  calls (translateMany ["Hello"] (translateMany ["Hello"] c1_plugin).1).1
  = calls (translateMany ["Hello"] c1_plugin).1.
Proof.
  destruct (answered_texts_are_served_from_cache ["Hello"] ["Hello"] c1_plugin
              [JS.str "annyeong"]) as [Hcalls _].
  - apply new_wf.
  - reflexivity.
  - reflexivity.
  - intros j idx t Hj Ht.
    assert (Hm : s_missIdx (lookup_of c1_plugin ["Hello"]) = [0%nat])
      by (vm_compute; reflexivity).
    rewrite Hm in Hj. destruct j as [|j]; [|done].
    inversion Hj; subst idx. inversion Ht; subst t. reflexivity.
  - intros t Ht. apply list_elem_of_singleton in Ht. subst t.
    left. exists 0%nat. split; [|reflexivity].
    assert (Hm : s_missIdx (lookup_of c1_plugin ["Hello"]) = [0%nat])
      by (vm_compute; reflexivity).
    rewrite Hm. by left.
  - exact Hcalls.
Defined.


(** ** [translateAndCache] and the pre-translation *)

Section TranslateAndCache.

Implicit Types (P : Plugin) (texts : list string).

(** The loop of [translateAndCache] is the write-back loop of
    [translateMany] run over every index. *)
Lemma cache_all_store texts translated keys : forall n i c d out,
  (i + n)%nat = length keys ->
  cache_all texts translated i (drop i keys) c d
  = (w_lru (store keys translated (JS.str <$> texts) (seq i n) i (StoreState c d out)),
     w_disk (store keys translated (JS.str <$> texts) (seq i n) i (StoreState c d out))).
Proof.
  induction n as [|n IH]; intros i c d out Hlen.
  - rewrite drop_ge by lia. done.
  - destruct (lookup_lt_is_Some_2 keys i) as [k Hk]; [lia|].
    rewrite (drop_S _ _ _ Hk). cbn [cache_all seq store]. rewrite Hk. cbn [default].
    unfold dst_of. apply IH. lia.
Qed.

Lemma cache_all_dom texts translated keys : forall i c d,
  (forall k, is_Some (DiskCache.map d !! k) ->
     is_Some (DiskCache.map (cache_all texts translated i keys c d).2 !! k))
  ∧ (forall k, k ∈ keys ->
       is_Some (DiskCache.map (cache_all texts translated i keys c d).2 !! k)).
Proof.
  induction keys as [|k0 keys IH]; intros i c d.
  { split; [done|]. intros k Hk. by apply elem_of_nil in Hk. }
  cbn [cache_all].
  set (dst := JS.nullish _ _).
  destruct (IH (S i) (LRU.set k0 dst c) (DiskCache.set k0 dst d)) as [IH1 IH2].
  assert (Hset : forall k, is_Some (DiskCache.map d !! k) ∨ k = k0 ->
                   is_Some (DiskCache.map (DiskCache.set k0 dst d) !! k)).
  { intros k Hk. unfold DiskCache.set. simpl.
    destruct (decide (k0 = k)) as [->|Hne].
    - rewrite lookup_insert_eq. eauto.
    - rewrite lookup_insert_ne by done. destruct Hk; [done|congruence]. }
  split.
  - intros k Hk. apply IH1, Hset. by left.
  - intros k Hk. apply elem_of_cons in Hk as [->|Hk].
    + apply IH1, Hset. by right.
    + by apply IH2.
Qed.

(** What [translateAndCache] leaves of the plugin, whatever the Provider
    does. *)
Lemma translateAndCache_frame write_ok texts P :
  settings (translateAndCache write_ok texts P).1.1 = settings P
  ∧ providerName (translateAndCache write_ok texts P).1.1 = providerName P
  ∧ provider (translateAndCache write_ok texts P).1.1 = provider P
  ∧ calls (translateAndCache write_ok texts P).1.1
    = calls P ++ [Call (JS.str <$> texts) (src_of P) (tgt_of P)]
  ∧ (forall k, is_Some (DiskCache.map (diskCache P) !! k) ->
       is_Some (DiskCache.map (diskCache (translateAndCache write_ok texts P).1.1) !! k))
  ∧ (forall translated, (translateAndCache write_ok texts P).1.2 = inr translated ->
       forall t, t ∈ texts ->
         is_Some (DiskCache.map (diskCache (translateAndCache write_ok texts P).1.1)
                    !! key_of P t)).
Proof.
  unfold translateAndCache.
  change (JS.str_or (Settings.sourceLang (settings P)) "auto") with (src_of P).
  change (JS.str_or (Settings.targetLang (settings P)) "ko") with (tgt_of P).
  change (fingerprint (providerName P) (src_of P) (tgt_of P)) with (key_of P).
  destruct (provider P _ _ _ _) as [e|translated].
  { cbn. repeat split; try done. }
  destruct (cache_all_dom texts translated (key_of P <$> texts) 0 (lru P) (diskCache P))
    as [Hkeep Hnew].
  destruct (cache_all texts translated 0 (key_of P <$> texts) (lru P) (diskCache P))
    as [c d] eqn:Hc.
  simpl in Hkeep, Hnew.
  assert (Hmap : DiskCache.map (DiskCache.flush write_ok d).1 = DiskCache.map d).
  { unfold DiskCache.flush. by destruct (DiskCache.dirty d). }
  destruct (DiskCache.flush write_ok d) as [d' io]. simpl in Hmap.
  cbn. rewrite Hmap. repeat split; try done.
  intros tr _ t Ht. apply Hnew. apply list_elem_of_fmap. by exists t.
Qed.

End TranslateAndCache.

(** X12. [translateAndCache] consults no cache: it invokes the Provider
    once with all its texts.  When the Provider returns, every text gets
    [translated[i] ?? texts[i]] under its fingerprint in the persistent
    cache (the last text of a fingerprint wins) and in the memory cache
    when the texts from this one on number at most its limit; the store
    is then flushed at once and is clean, and the Provider's array is
    returned as it is.  When the Provider throws, the error is passed on
    and no cache is touched. *)
Theorem translateAndCache_stores_every_text (write_ok : bool)
    (texts : list string) (P : Plugin) :
  LRU.wf (lru P) ->
  calls (translateAndCache write_ok texts P).1.1
  = calls P ++ [Call (JS.str <$> texts) (src_of P) (tgt_of P)]
  ∧ (forall e,
       provider P (length (calls P)) (JS.str <$> texts) (src_of P) (tgt_of P)
       = Throws e ->
       translateAndCache write_ok texts P
       = (with_caches P (lru P) (diskCache P)
            (calls P ++ [Call (JS.str <$> texts) (src_of P) (tgt_of P)]),
          inl e, []))
  ∧ (forall translated,
       provider P (length (calls P)) (JS.str <$> texts) (src_of P) (tgt_of P)
       = Returns translated ->
       (translateAndCache write_ok texts P).1.2 = inr translated
       ∧ DiskCache.dirty (diskCache (translateAndCache write_ok texts P).1.1) = false
       ∧ (texts ≠ [] ->
          (translateAndCache write_ok texts P).2
          = DiskCache.Write (DiskCache.path (diskCache P))
              (DiskCache.map (diskCache (translateAndCache write_ok texts P).1.1))
              :: (if write_ok then [] else [DiskCache.ConsoleError "cache write fail"]))
       ∧ forall i t, texts !! i = Some t ->
           (forall i' t', (i < i')%nat -> texts !! i' = Some t' ->
              key_of P t' ≠ key_of P t) ->
           DiskCache.get (key_of P t) (diskCache (translateAndCache write_ok texts P).1.1)
           = JS.nullish (JS.index translated i) (JS.str t)
           ∧ (Z.of_nat (length texts - i) <= LRU.limit (lru P) ->
              mem (lru (translateAndCache write_ok texts P).1.1) (key_of P t)
              = JS.nullish (JS.index translated i) (JS.str t))).
Proof.
  intros Hwf.
  split; [apply translateAndCache_frame|]. split.
  { intros e He. unfold translateAndCache.
    change (JS.str_or (Settings.sourceLang (settings P)) "auto") with (src_of P).
    change (JS.str_or (Settings.targetLang (settings P)) "ko") with (tgt_of P).
    by rewrite He. }
  intros translated Hret. unfold translateAndCache.
  change (JS.str_or (Settings.sourceLang (settings P)) "auto") with (src_of P).
  change (JS.str_or (Settings.targetLang (settings P)) "ko") with (tgt_of P).
  change (fingerprint (providerName P) (src_of P) (tgt_of P)) with (key_of P).
  rewrite Hret.
  set (keys := key_of P <$> texts).
  set (s0 := StoreState (lru P) (diskCache P) (replicate (length texts) JS.undefined)).
  pose proof (cache_all_store texts translated keys (length keys) 0 (lru P)
                (diskCache P) (replicate (length texts) JS.undefined) eq_refl) as Hca.
  rewrite drop_0 in Hca. rewrite Hca. fold s0.
  set (w := store keys translated (JS.str <$> texts) (seq 0 (length keys)) 0 s0).
  assert (Hlk : length keys = length texts) by (unfold keys; by rewrite length_fmap).
  assert (Hdirty : texts ≠ [] -> DiskCache.dirty (w_disk w) = true).
  { intros Hne. apply store_dirty. right. rewrite Hlk.
    destruct texts; [done|]. simpl. done. }
  assert (Hpath : DiskCache.path (w_disk w) = DiskCache.path (diskCache P)).
  { unfold w.
    assert (Hs0 : DiskCache.path (w_disk s0) = DiskCache.path (diskCache P)) by done.
    revert Hs0. generalize s0. generalize (seq 0 (length keys)). generalize 0%nat.
    intros j l. revert j. induction l as [|idx l IH]; intros j s Hs; [done|].
    cbn [store]. apply IH. done. }
  unfold DiskCache.flush.
  destruct (DiskCache.dirty (w_disk w)) eqn:Hd; cbn [negb fst snd diskCache lru with_caches DiskCache.dirty DiskCache.map].
  all: split; [done|]; split; [done|]; split.
  1: { intros _. by rewrite Hpath. }
  2: { intros Hne. specialize (Hdirty Hne). congruence. }
  all: intros i t Ht Hlater;
    assert (Hseq : seq 0 (length keys) !! i = Some i)
      by (apply lookup_seq; split; [done|]; rewrite Hlk; by eapply lookup_lt_Some);
    assert (Hkey : forall j x, texts !! j = Some x -> key_at keys j = key_of P x)
      by (intros j x Hx; unfold key_at, keys; by rewrite list_lookup_fmap, Hx);
    assert (Hlater' : forall n' idx', (i < n')%nat ->
              seq 0 (length keys) !! n' = Some idx' ->
              key_at keys idx' ≠ key_at keys i)
      by (intros n' idx' Hlt Hn'; apply lookup_seq in Hn' as [-> Hn'];
          simpl in *; rewrite Hlk in Hn';
          destruct (lookup_lt_is_Some_2 texts n' Hn') as [t' Ht'];
          rewrite (Hkey _ _ Ht'), (Hkey _ _ Ht); by eapply Hlater);
    assert (Hdst : dst_of translated (JS.str <$> texts) (0 + i)
                   = JS.nullish (JS.index translated i) (JS.str t))
      by (unfold dst_of; simpl; f_equal; by apply index_str);
    rewrite <- (Hkey _ _ Ht), <- Hdst; split;
    [ unfold DiskCache.get; cbn [DiskCache.map];
      first [ apply (store_disk keys translated (JS.str <$> texts) _ 0 s0 i i Hseq Hlater')
            | exact (store_disk keys translated (JS.str <$> texts) _ 0 s0 i i Hseq Hlater') ]
    | intros Hroom; apply store_lru; [done|done|done|];
      cbn [s0 w_lru]; rewrite length_seq, Hlk; done ].
Qed.

Lemma translateAndCache_stores_every_text_witness :
  calls (translateAndCache true ["Hello"] c6_plugin_hit).1.1
  = [Call [JS.str "Hello"] "auto" "ko"].
Proof.
  destruct (translateAndCache_stores_every_text true ["Hello"] c6_plugin_hit)
    as [Hcalls _].
  - apply new_wf.
  - exact Hcalls.
Defined.


Section Pretranslation.

Implicit Types (P : Plugin) (arr : list string).






End Pretranslation.



(** ** The dispatcher over whole runs *)

Section DispatcherRuns.

Import TranslateQueue.

Implicit Types (d : t) (tr : list event) (tasks : list task) (ins : list input).

Lemma invoked_app tr1 tr2 : invoked (tr1 ++ tr2) = invoked tr1 ++ invoked tr2.
Proof. unfold invoked. apply bind_app. Qed.

Lemma resolved_app tr1 tr2 : resolved (tr1 ++ tr2) = resolved tr1 ++ resolved tr2.
Proof. unfold resolved. apply omap_app. Qed.

Lemma enqueued_app ins1 ins2 : enqueued (ins1 ++ ins2) = enqueued ins1 ++ enqueued ins2.
Proof. unfold enqueued. apply omap_app. Qed.

Lemma enqueued_resumes n : enqueued (replicate n Resume) = [].
Proof. induction n as [|n IH]; [done|]. exact IH. Qed.

Lemma resolutions_facts translated : forall tasks,
  length translated = length tasks ->
  resolved (resolutions translated tasks) = pid <$> tasks
  ∧ invoked (resolutions translated tasks) = []
  ∧ Forall (fun e => quiet e = true) (resolutions translated tasks)
  ∧ forall bs, Forall (batch_within bs) (resolutions translated tasks).
Proof.
  induction translated as [|v tr IH]; intros [|tk tasks] Hlen; simpl in Hlen; try lia.
  { repeat split; try done; try constructor. }
  destruct (IH tasks ltac:(lia)) as (H1 & H2 & H3 & H4).
  unfold resolutions in *. cbn [zip_with].
  split; [cbn; f_equal; exact H1|]. split; [exact H2|].
  split; [by constructor|]. intros bs. constructor; [exact I|apply H4].
Qed.

Lemma exec_app translate ins1 ins2 d :
  exec translate (ins1 ++ ins2) d
  = ((exec translate ins2 (exec translate ins1 d).1).1,
     (exec translate ins1 d).2 ++ (exec translate ins2 (exec translate ins1 d).1).2).
Proof.
  revert d. induction ins1 as [|i ins1 IH]; intros d.
  { simpl. by destruct (exec translate ins2 d). }
  cbn [exec app]. destruct (step translate i d) as [d1 e1].
  rewrite IH. destruct (exec translate ins1 d1) as [d2 e2]. cbn [fst snd].
  destruct (exec translate ins2 d2) as [d3 e3]. cbn [fst snd].
  by rewrite app_assoc.
Qed.

(** The top of the loop hands out a prefix of the queue and keeps the
    rest. *)
Lemma loop_top_accounts iv bs d :
  invoked (loop_top iv bs d).2 ++ (text <$> queue (loop_top iv bs d).1)
  = text <$> queue d
  ∧ resolved (loop_top iv bs d).2 ++ (pid <$> awaiting (loop_top iv bs d).1)
      ++ (pid <$> queue (loop_top iv bs d).1)
    = pid <$> queue d
  ∧ Forall (fun e => quiet e = true) (loop_top iv bs d).2
  ∧ Forall (batch_within bs) (loop_top iv bs d).2.
Proof.
  unfold loop_top. destruct (queue d) as [|tk q] eqn:Hq.
  { cbn. repeat split; constructor. }
  unfold splice0. cbv zeta. cbn [fst snd queue awaiting suspended].
  set (c := Z.to_nat (Z.max 0 bs)).
  split. { unfold invoked. cbn [mbind list_bind]. rewrite app_nil_r, <- fmap_app.
           by rewrite take_drop. }
  split. { cbn [resolved omap list_omap app]. rewrite <- fmap_app. by rewrite take_drop. }
  split. { by repeat constructor. }
  repeat constructor. cbn. rewrite length_fmap, length_take. fold c. lia.
Qed.

(** One step of the dispatcher of the plugin loses no task, settles the
    batch in flight in order and rejects nothing. *)
Lemma step_accounts st i d :
  dispatcher_ok st d ->
  invoked (step plugin_translate i d).2 ++ (text <$> queue (step plugin_translate i d).1)
  = (text <$> queue d) ++ (text <$> enqueued [i])
  ∧ resolved (step plugin_translate i d).2
      ++ (pid <$> awaiting (step plugin_translate i d).1)
      ++ (pid <$> queue (step plugin_translate i d).1)
    = (pid <$> awaiting d) ++ (pid <$> queue d) ++ (pid <$> enqueued [i])
  ∧ Forall (fun e => quiet e = true) (step plugin_translate i d).2
  ∧ Forall (batch_within (batchSize (Settings.rateLimit st))) (step plugin_translate i d).2.
Proof.
  intros [Hst Hd]. destruct i as [tk|]; cbn [step].
  - unfold enqueue, run. cbn [running plugin queue suspended enqueued omap list_omap].
    destruct (running d) eqn:Hrun.
    + cbn [fst snd queue awaiting suspended]. unfold awaiting.
      rewrite !fmap_app. repeat split; try constructor.
    + destruct (suspended d) as [|iv bs tasks|iv bs] eqn:Hs;
        [|destruct Hd as [Hd _]; congruence|destruct Hd as [Hd _]; congruence].
      destruct Hd as [_ Hq]. rewrite Hst.
      destruct (loop_top_accounts (interval (rps (Settings.rateLimit st)))
                  (batchSize (Settings.rateLimit st))
                  (mk (plugin d) (queue d ++ [tk]) true NoFrame))
        as (H1 & H2 & H3 & H4).
      assert (Haw : awaiting d = []) by (unfold awaiting; by rewrite Hs).
      rewrite Haw, H1, H2.
      split; [cbn; by rewrite Hq|]. split; [cbn; by rewrite Hq|]. done.

  - cbn [enqueued omap list_omap fmap list_fmap]. rewrite !app_nil_r.
    unfold resume. destruct (suspended d) as [|iv bs tasks|iv bs] eqn:Hs.
    + cbn [fst snd]. unfold awaiting. rewrite Hs. repeat split; constructor.
    + unfold plugin_translate.
      pose proof (translateMany_length (text <$> tasks) (plugin d)) as Hlen.
      rewrite length_fmap in Hlen.
      destruct (translateMany (text <$> tasks) (plugin d)) as [P' out]. simpl in Hlen.
      rewrite (resolve_each_same_length out tasks Hlen).
      destruct (resolutions_facts out tasks Hlen) as (H1 & H2 & H3 & H4).
      cbn [fst snd queue awaiting suspended]. unfold awaiting at 1.
      cbn [suspended]. rewrite invoked_app, resolved_app, H1, H2.
      cbn. rewrite !app_nil_r. unfold awaiting. rewrite Hs.
      split; [done|]. split; [done|]. split.
      * apply Forall_app. split; [done|by repeat constructor].
      * apply Forall_app. split; [apply H4|by repeat constructor].
    + destruct Hd as (_ & _ & Hbs). subst bs.
      destruct (loop_top_accounts iv (batchSize (Settings.rateLimit st)) d)
        as (H1 & H2 & H3 & H4).
      unfold awaiting at 2. rewrite Hs. done.
Qed.

Lemma exec_accounts st ins : forall d,
  dispatcher_ok st d ->
  invoked (exec plugin_translate ins d).2 ++ (text <$> queue (exec plugin_translate ins d).1)
  = (text <$> queue d) ++ (text <$> enqueued ins)
  ∧ resolved (exec plugin_translate ins d).2
      ++ (pid <$> awaiting (exec plugin_translate ins d).1)
      ++ (pid <$> queue (exec plugin_translate ins d).1)
    = (pid <$> awaiting d) ++ (pid <$> queue d) ++ (pid <$> enqueued ins)
  ∧ Forall (fun e => quiet e = true) (exec plugin_translate ins d).2
  ∧ Forall (batch_within (batchSize (Settings.rateLimit st))) (exec plugin_translate ins d).2.
Proof.
  induction ins as [|i ins IH]; intros d Hd.
  { cbn. rewrite !app_nil_r. repeat split; constructor. }
  destruct (step_ok st i d Hd) as (Hd1 & _).
  destruct (step_accounts st i d Hd) as (H1 & H2 & H3 & H4).
  cbn [exec]. destruct (step plugin_translate i d) as [d1 e1]. cbn [fst snd] in *.
  destruct (IH d1 Hd1) as (H5 & H6 & H7 & H8).
  destruct (exec plugin_translate ins d1) as [d2 e2]. cbn [fst snd] in *.
  change (i :: ins) with ([i] ++ ins). rewrite enqueued_app, !fmap_app.
  rewrite invoked_app, resolved_app.
  split. { rewrite <- app_assoc, H5, app_assoc, H1. by rewrite <- app_assoc. }
  split. { rewrite <- app_assoc, H6, !app_assoc.
           rewrite <- (app_assoc (resolved e1)), H2. by rewrite !app_assoc. }
  split; by apply Forall_app.
Qed.

(** With a batch size of at least 1 every wake-up of the loop brings it
    nearer to its end. *)
Lemma resume_progress st d :
  dispatcher_ok st d -> 1 <= batchSize (Settings.rateLimit st) ->
  suspended d ≠ NoFrame ->
  (remaining (resume plugin_translate d).1 < remaining d)%nat.
Proof.
  intros [Hst Hd] Hbs Hne. unfold resume, remaining at 2.
  destruct (suspended d) as [|iv bs tasks|iv bs] eqn:Hs; [done| |].
  - destruct (plugin_translate (text <$> tasks) (plugin d)) as [P' r].
    unfold remaining. cbn [fst suspended queue]. lia.
  - destruct Hd as (_ & _ & ->). unfold loop_top.
    destruct (queue d) as [|tk q]; [unfold remaining; cbn; lia|].
    unfold splice0. cbv zeta. unfold remaining. cbn [fst suspended queue].
    rewrite length_drop. cbn [length]. lia.
Qed.

Lemma drain st : forall m d,
  dispatcher_ok st d -> 1 <= batchSize (Settings.rateLimit st) ->
  (remaining d <= m)%nat ->
  exists n, (n <= m)%nat
    ∧ suspended (exec plugin_translate (replicate n Resume) d).1 = NoFrame.
Proof.
  induction m as [|m IH]; intros d Hd Hbs Hm.
  { exists 0%nat. split; [done|]. cbn. unfold remaining in Hm.
    destruct (suspended d); [done|lia|lia]. }
  destruct (suspended d) as [|iv bs tasks|iv bs] eqn:Hs.
  { exists 0%nat. split; [lia|done]. }
  all: destruct (step_ok st Resume d Hd) as (Hd1 & _); cbn [step] in Hd1;
    pose proof (resume_progress st d Hd Hbs ltac:(congruence)) as Hlt;
    destruct (IH (resume plugin_translate d).1 Hd1 Hbs ltac:(lia)) as (n & Hn & Hidle);
    exists (S n); (split; [lia|]);
    cbn [replicate exec step];
    destruct (resume plugin_translate d) as [d1 e1]; cbn [fst] in Hidle;
    destruct (exec plugin_translate (replicate n Resume) d1) as [d2 e2]; exact Hidle.
Qed.

(** With a batch size of 0 or less the loop hands out empty batches. *)
Lemma step_stalls st i d :
  dispatcher_ok st d -> batchSize (Settings.rateLimit st) <= 0 ->
  awaiting d = [] ->
  awaiting (step plugin_translate i d).1 = []
  ∧ calls (plugin (step plugin_translate i d).1) = calls (plugin d)
  ∧ (queue (step plugin_translate i d).1 ≠ [] -> running (step plugin_translate i d).1 = true).
Proof.
  intros Hd Hbs Haw.
  destruct (step_ok st i d Hd) as ([_ Hd1] & _).
  assert (Hrun : queue (step plugin_translate i d).1 ≠ [] ->
                 running (step plugin_translate i d).1 = true).
  { intros Hq. destruct (suspended (step plugin_translate i d).1);
      [by destruct Hd1|by destruct Hd1|by destruct Hd1]. }
  split; [|split; [|exact Hrun]]; clear Hrun Hd1.
  - destruct Hd as [Hst Hd]. destruct i as [tk|]; cbn [step].
    + unfold enqueue, run. cbn [running plugin queue suspended].
      destruct (running d) eqn:Hrun; [exact Haw|].
      unfold loop_top. cbn [queue]. destruct (queue d ++ [tk]) eqn:Hq; [done|].
      unfold splice0. cbv zeta. rewrite Hst.
      replace (Z.to_nat (Z.max 0 (batchSize (Settings.rateLimit st)))) with 0%nat by lia.
      done.
    + unfold resume. destruct (suspended d) as [|iv bs tasks|iv bs] eqn:Hs.
      * exact Haw.
      * by destruct (plugin_translate (text <$> tasks) (plugin d)).
      * destruct Hd as (_ & _ & ->). unfold loop_top.
        destruct (queue d) eqn:Hq; [done|].
        unfold splice0. cbv zeta.
        replace (Z.to_nat (Z.max 0 (batchSize (Settings.rateLimit st)))) with 0%nat by lia.
        done.
  - destruct i as [tk|]; cbn [step].
    + unfold enqueue, run. cbn [running plugin queue suspended].
      destruct (running d); [done|]. unfold loop_top. cbn [queue plugin].
      destruct (queue d ++ [tk]); [done|]. unfold splice0. done.
    + unfold resume. unfold awaiting in Haw.
      destruct (suspended d) as [|iv bs tasks|iv bs] eqn:Hs; [done| |].
      * subst tasks. unfold plugin_translate. cbn [fmap list_fmap].
        pose proof (translateMany_calls [] (plugin d)) as Hc.
        destruct (translateMany [] (plugin d)) as [P' out]. simpl in Hc.
        cbn [fst plugin]. exact Hc.
      * unfold loop_top. destruct (queue d); [done|]. unfold splice0. done.
Qed.

Lemma exec_stalls st ins : forall d,
  dispatcher_ok st d -> batchSize (Settings.rateLimit st) <= 0 ->
  awaiting d = [] ->
  awaiting (exec plugin_translate ins d).1 = []
  ∧ calls (plugin (exec plugin_translate ins d).1) = calls (plugin d).
Proof.
  induction ins as [|i ins IH]; intros d Hd Hbs Haw; [done|].
  destruct (step_ok st i d Hd) as (Hd1 & _).
  destruct (step_stalls st i d Hd Hbs Haw) as (H1 & H2 & _).
  cbn [exec]. destruct (step plugin_translate i d) as [d1 e1]. cbn [fst snd] in *.
  destruct (IH d1 Hd1 Hbs H1) as (H3 & H4).
  destruct (exec plugin_translate ins d1) as [d2 e2]. cbn [fst snd] in *.
  split; [done|congruence].
Qed.

End DispatcherRuns.

(** X14. In every run of the plugin's dispatcher, whatever the order of
    arrivals and wake-ups: the texts handed to [translateMany] followed by
    those still queued are the texts that arrived, in their order; the
    promises resolved, those of the batch in flight and those queued are
    the promises that arrived, in their order, so that none is settled
    twice and none overtakes another; no promise is rejected and no error
    logged; no call carries more than [max(0, batchSize)] texts; and an
    idle dispatcher has resolved everything. *)
Theorem requests_are_served_in_order (P0 : Plugin) (ins : list TranslateQueue.input) :
  invoked (TranslateQueue.exec plugin_translate ins (TranslateQueue.new P0)).2
    ++ (TranslateQueue.text
          <$> TranslateQueue.queue
                (TranslateQueue.exec plugin_translate ins (TranslateQueue.new P0)).1)
  = TranslateQueue.text <$> enqueued ins
  ∧ resolved (TranslateQueue.exec plugin_translate ins (TranslateQueue.new P0)).2
      ++ (TranslateQueue.pid
            <$> awaiting (TranslateQueue.exec plugin_translate ins (TranslateQueue.new P0)).1)
      ++ (TranslateQueue.pid
            <$> TranslateQueue.queue
                  (TranslateQueue.exec plugin_translate ins (TranslateQueue.new P0)).1)
    = TranslateQueue.pid <$> enqueued ins
  ∧ Forall (fun e => quiet e = true)
      (TranslateQueue.exec plugin_translate ins (TranslateQueue.new P0)).2
  ∧ Forall (batch_within (batchSize (Settings.rateLimit (settings P0))))
      (TranslateQueue.exec plugin_translate ins (TranslateQueue.new P0)).2
  ∧ (TranslateQueue.running
       (TranslateQueue.exec plugin_translate ins (TranslateQueue.new P0)).1 = false ->
     resolved (TranslateQueue.exec plugin_translate ins (TranslateQueue.new P0)).2
     = TranslateQueue.pid <$> enqueued ins).
Proof.
  destruct (exec_accounts (settings P0) ins (TranslateQueue.new P0) (new_ok P0))
    as (H1 & H2 & H3 & H4).
  destruct (exec_ok (settings P0) ins (TranslateQueue.new P0) (new_ok P0))
    as ([_ Hok] & _).
  split; [exact H1|]. split; [exact H2|]. split; [exact H3|]. split; [exact H4|].
  intros Hidle.
  etransitivity; [|exact H2]. unfold awaiting.
  destruct (TranslateQueue.suspended
              (TranslateQueue.exec plugin_translate ins (TranslateQueue.new P0)).1).
  - destruct Hok as [_ ->]. by rewrite !app_nil_r.
  - destruct Hok as [Hr _]. congruence.
  - destruct Hok as [Hr _]. congruence.
Qed.

(** X15. With a batch size of at least 1, once no more requests arrive
    the loop comes to its end within [2 * n + 2] wake-ups for [n] requests,
    and by then every request has been handed to [translateMany] and
    resolved, each once and in the order of arrival. *)
Theorem queue_drains_when_arrivals_stop (P0 : Plugin) (ins : list TranslateQueue.input) :
  1 <= batchSize (Settings.rateLimit (settings P0)) ->
  exists n, (n <= 2 * length (enqueued ins) + 2)%nat
    ∧ TranslateQueue.running
        (TranslateQueue.exec plugin_translate (ins ++ replicate n TranslateQueue.Resume)
           (TranslateQueue.new P0)).1 = false
    ∧ TranslateQueue.queue
        (TranslateQueue.exec plugin_translate (ins ++ replicate n TranslateQueue.Resume)
           (TranslateQueue.new P0)).1 = []
    ∧ invoked
        (TranslateQueue.exec plugin_translate (ins ++ replicate n TranslateQueue.Resume)
           (TranslateQueue.new P0)).2 = TranslateQueue.text <$> enqueued ins
    ∧ resolved
        (TranslateQueue.exec plugin_translate (ins ++ replicate n TranslateQueue.Resume)
           (TranslateQueue.new P0)).2 = TranslateQueue.pid <$> enqueued ins.
Proof.
  intros Hbs.
  destruct (exec_ok (settings P0) ins (TranslateQueue.new P0) (new_ok P0)) as (Hd1 & _).
  destruct (exec_accounts (settings P0) ins (TranslateQueue.new P0) (new_ok P0))
    as (_ & Hacc & _).
  set (d1 := (TranslateQueue.exec plugin_translate ins (TranslateQueue.new P0)).1) in *.
  assert (Hbound : (remaining d1 <= 2 * length (enqueued ins) + 2)%nat).
  { apply (f_equal length) in Hacc. cbn in Hacc.
    rewrite !length_app, !length_fmap in Hacc.
    unfold remaining. destruct (TranslateQueue.suspended d1); lia. }
  destruct (drain (settings P0) _ d1 Hd1 Hbs Hbound) as (n & Hn & Hidle).
  exists n. split; [exact Hn|].
  pose proof (exec_app plugin_translate ins (replicate n TranslateQueue.Resume)
                (TranslateQueue.new P0)) as Happ. fold d1 in Happ.
  destruct (exec_ok (settings P0) (ins ++ replicate n TranslateQueue.Resume)
              (TranslateQueue.new P0) (new_ok P0)) as ([_ Hok] & _).
  destruct (exec_accounts (settings P0) (ins ++ replicate n TranslateQueue.Resume)
              (TranslateQueue.new P0) (new_ok P0)) as (H1 & H2 & _).
  rewrite enqueued_app, enqueued_resumes, app_nil_r in H1, H2.
  assert (Hs : TranslateQueue.suspended
                 (TranslateQueue.exec plugin_translate
                    (ins ++ replicate n TranslateQueue.Resume) (TranslateQueue.new P0)).1
               = TranslateQueue.NoFrame) by (by rewrite Happ).
  unfold awaiting in H2. rewrite Hs in Hok, H2. destruct Hok as [Hrun Hq].
  rewrite Hq in H1, H2. cbn in H1, H2. rewrite !app_nil_r in H1, H2. done.
Qed.

Lemma queue_drains_when_arrivals_stop_witness :
  exists n, (n <= 8)%nat
    ∧ resolved
        (TranslateQueue.exec plugin_translate
           (three_requests ++ replicate n TranslateQueue.Resume)
           (TranslateQueue.new (fresh DEFAULT_SETTINGS answering))).2
      = [0; 1; 2]%nat.
Proof.
  destruct (queue_drains_when_arrivals_stop (fresh DEFAULT_SETTINGS answering)
              three_requests) as (n & Hn & _ & _ & _ & Hres).
  - vm_compute. discriminate.
  - exists n. split; [exact Hn|exact Hres].
Defined.

(** X16. With a batch size of 0 or less (the settings field refuses such
    a value, a settings file can hold one) the loop hands out only empty
    batches: in every run no request is resolved, none leaves the queue,
    the Provider is never invoked, and the loop keeps running as long as
    a request is queued. *)
Theorem nonpositive_batch_size_serves_nothing (P0 : Plugin)
    (ins : list TranslateQueue.input) :
  batchSize (Settings.rateLimit (settings P0)) <= 0 ->
  resolved (TranslateQueue.exec plugin_translate ins (TranslateQueue.new P0)).2 = []
  ∧ invoked (TranslateQueue.exec plugin_translate ins (TranslateQueue.new P0)).2 = []
  ∧ TranslateQueue.queue (TranslateQueue.exec plugin_translate ins (TranslateQueue.new P0)).1
    = enqueued ins
  ∧ calls (TranslateQueue.plugin
             (TranslateQueue.exec plugin_translate ins (TranslateQueue.new P0)).1)
    = calls P0
  ∧ (enqueued ins ≠ [] ->
     TranslateQueue.running
       (TranslateQueue.exec plugin_translate ins (TranslateQueue.new P0)).1 = true).
Proof.
  intros Hbs.
  destruct (exec_accounts (settings P0) ins (TranslateQueue.new P0) (new_ok P0))
    as (H1 & H2 & _ & H4).
  destruct (exec_stalls (settings P0) ins (TranslateQueue.new P0) (new_ok P0) Hbs eq_refl)
    as (Haw & Hcalls).
  destruct (exec_ok (settings P0) ins (TranslateQueue.new P0) (new_ok P0))
    as ([_ Hok] & _).
  set (r := TranslateQueue.exec plugin_translate ins (TranslateQueue.new P0)) in *.
  assert (Hinv : invoked r.2 = []).
  { clear -H4 Hbs. induction r.2 as [|e tr IH]; [done|].
    apply Forall_cons in H4 as [He Htr]. unfold invoked. cbn [mbind list_bind].
    fold (invoked tr). rewrite (IH Htr), app_nil_r.
    destruct e as [ts| | | |]; try done. unfold batch_within in He.
    replace (Z.to_nat (Z.max 0 (batchSize (Settings.rateLimit (settings P0)))))
      with 0%nat in He by lia.
    destruct ts; [done|simpl in He; lia]. }
  rewrite Hinv in H1. cbn in H1. rewrite Haw in H2. cbn in H2.
  assert (Hq : TranslateQueue.queue r.1 = enqueued ins).
  { assert (Hlen : length (TranslateQueue.queue r.1) = length (enqueued ins)).
    { apply (f_equal length) in H1. by rewrite !length_fmap in H1. }
    assert (Hres : resolved r.2 = []).
    { apply (f_equal length) in H2. rewrite length_app, !length_fmap in H2.
      apply length_zero_iff_nil. lia. }
    rewrite Hres in H2. cbn in H2.
    apply list_eq. intros j.
    pose proof (f_equal (fun l => l !! j) H1) as Ht.
    pose proof (f_equal (fun l => l !! j) H2) as Hp.
    cbv beta in Ht, Hp.
    rewrite !list_lookup_fmap in Ht. rewrite !list_lookup_fmap in Hp.
    destruct (TranslateQueue.queue r.1 !! j) as [[t1 p1]|],
             (enqueued ins !! j) as [[t2 p2]|]; simpl in *; congruence. }
  split. { apply (f_equal length) in H2. rewrite length_app, !length_fmap in H2.
           rewrite Hq in H2. apply length_zero_iff_nil. lia. }
  split; [exact Hinv|]. split; [exact Hq|]. split; [exact Hcalls|].
  intros Hne. rewrite <- Hq in Hne.
  destruct (TranslateQueue.suspended r.1); [by destruct Hok|by destruct Hok|by destruct Hok].
Qed.

Lemma nonpositive_batch_size_serves_nothing_witness :
  resolved
    (TranslateQueue.exec plugin_translate
       (three_requests ++ replicate 6 TranslateQueue.Resume)
       (TranslateQueue.new (fresh zero_batch_settings answering))).2 = []
  ∧ length
      (TranslateQueue.queue
         (TranslateQueue.exec plugin_translate
            (three_requests ++ replicate 6 TranslateQueue.Resume)
            (TranslateQueue.new (fresh zero_batch_settings answering))).1) = 3%nat.
Proof.
  destruct (nonpositive_batch_size_serves_nothing (fresh zero_batch_settings answering)
              (three_requests ++ replicate 6 TranslateQueue.Resume))
    as (Hres & _ & Hq & _).
  - vm_compute. discriminate.
  - split; [exact Hres|]. rewrite Hq. reflexivity.
Defined.


(** ** Snapshots, renders and restores *)

Section Restore.

Implicit Types (el : Dom.element) (ws : list dom_write) (a : string).

Lemma snapshot_attr el a :
  (if Dom.hasAttribute a el then Dom.getAttribute a el else None)
  = Dom.attributes el !! a.
Proof.
  unfold Dom.hasAttribute, Dom.getAttribute.
  destruct (Dom.attributes el !! a) eqn:E; case_bool_decide as H; try done.
  exfalso. apply H. eauto.
Qed.

Lemma written_snoc ws w a :
  written (ws ++ [w]) a
  = match writes w a with Some v => Some v | None => written ws a end.
Proof. unfold written. by rewrite foldl_app. Qed.

Lemma written_other ws a :
  a ≠ "title" -> a ≠ "aria-label" -> written ws a = None.
Proof.
  intros H1 H2. induction ws as [|w ws IH] using rev_ind; [done|].
  rewrite written_snoc, IH.
  destruct w as [src dst mode|attr dst mode]; cbn [writes].
  - destruct (String.eqb_spec a "title"); [done|]. by rewrite andb_false_r.
  - destruct (String.eqb_spec a (attr_string attr)) as [->|]; [|done].
    by destruct attr.
Qed.

Lemma apply_write_text w el :
  forall a, a ≠ "data-autotranslated" ->
    Dom.attributes (apply_write w el) !! a
    = match writes w a with Some v => Some v | None => Dom.attributes el !! a end.
Proof.
  intros a Ha. destruct w as [src dst mode|attr dst mode]; cbn [apply_write writes].
  - unfold render. cbn [Dom.setAttribute Dom.attributes].
    rewrite lookup_insert_ne by done.
    destruct (String.eqb_spec mode "inline") as [->|Hi]; [done|].
    destruct (String.eqb_spec mode "tooltip") as [->|Ht]; [|done].
    cbn [Dom.setAttribute Dom.attributes andb].
    destruct (String.eqb_spec a "title") as [->|Hne].
    + by rewrite lookup_insert_eq.
    + by rewrite lookup_insert_ne.
  - unfold write_attribute. cbn [Dom.setAttribute Dom.attributes].
    rewrite lookup_insert_ne by done.
    destruct (String.eqb_spec mode "tooltip") as [->|Ht].
    + destruct attr; cbn;
        match goal with
        | |- context [String.eqb a ?x] =>
            destruct (String.eqb_spec a x) as [->|Hne];
            [by rewrite lookup_insert_eq|by rewrite lookup_insert_ne]
        end.
    + cbn. destruct (String.eqb_spec a (attr_string attr)) as [->|Hne];
        [by rewrite lookup_insert_eq|by rewrite lookup_insert_ne].
Qed.

(** After any passes the entry is the snapshot of the element as it was
    before the first, and each attribute holds what was last written to
    it. *)
Lemma passes_inv el ws :
  (ws ≠ [] -> (foldl pass (el, None) ws).2 = snapshotElement el None)
  ∧ (ws = [] -> foldl pass (el, None) ws = (el, None))
  ∧ forall a, a ≠ "data-autotranslated" ->
      Dom.attributes (foldl pass (el, None) ws).1 !! a
      = match written ws a with Some v => Some v | None => Dom.attributes el !! a end.
Proof.
  induction ws as [|w ws IH] using rev_ind.
  { repeat split; try done. }
  destruct IH as (IH1 & IH2 & IH3). rewrite foldl_app. cbn [foldl].
  split; [|split].
  - intros _. unfold pass at 1. cbn [snd].
    destruct ws as [|w0 ws0].
    + by rewrite IH2.
    + rewrite IH1 by done. done.
  - intros H. by destruct ws.
  - intros a Ha. unfold pass at 1. cbn [fst].
    rewrite apply_write_text by done. rewrite written_snoc.
    destruct (writes w a); [done|]. by apply IH3.
Qed.

End Restore.

(** X17. Take an element through any passes of the plugin, each a
    snapshot followed by a [render] or an attribute write, and restore it.
    Its text is the text it had before the first pass, however often it
    was rewritten since: the first snapshot is the one kept.  The mark
    [data-autotranslated] is gone.  Every other attribute the element had
    at the first pass has its value of then.  An attribute it did not
    have keeps the last value a pass gave it: the [title] that tooltip
    mode puts on an element without one stays after the restore. *)
Theorem restore_brings_back_the_first_snapshot (el : Dom.element)
    (ws : list dom_write) :
  ws ≠ [] ->
  Dom.innerText (restoreElement (foldl pass (el, None) ws).1 (foldl pass (el, None) ws).2)
  = Dom.innerText el
  ∧ forall a,
      Dom.attributes
        (restoreElement (foldl pass (el, None) ws).1 (foldl pass (el, None) ws).2) !! a
      = if decide (a = "data-autotranslated") then None
        else match Dom.attributes el !! a with
             | Some v => Some v
             | None => written ws a
             end.
Proof.
  intros Hne. destruct (passes_inv el ws) as (Hsnap & _ & Hattrs).
  rewrite (Hsnap Hne). unfold snapshotElement. rewrite !snapshot_attr.
  set (el' := (foldl pass (el, None) ws).1) in *.
  unfold restoreElement. cbn [Dom.text Dom.title Dom.ariaLabel].
  split.
  { destruct (Dom.attributes el !! "title"), (Dom.attributes el !! "aria-label"); done. }
  intros a. destruct (decide (a = "data-autotranslated")) as [->|Ha].
  { cbn [Dom.removeAttribute Dom.attributes]. by rewrite lookup_delete_eq. }
  cbn [Dom.removeAttribute Dom.attributes]. rewrite lookup_delete_ne by done.
  specialize (Hattrs a Ha).
  destruct (decide (a = "title")) as [->|Ht];
    [|destruct (decide (a = "aria-label")) as [->|Hl]].
  - destruct (Dom.attributes el !! "title") as [v|] eqn:E1,
             (Dom.attributes el !! "aria-label") as [v'|] eqn:E2;
      cbn [Dom.setAttribute Dom.setInnerText Dom.attributes];
      rewrite ?lookup_insert_ne by done; rewrite ?lookup_insert_eq; try done;
      rewrite Hattrs; by destruct (written ws "title").
  - destruct (Dom.attributes el !! "title") as [v|] eqn:E1,
             (Dom.attributes el !! "aria-label") as [v'|] eqn:E2;
      cbn [Dom.setAttribute Dom.setInnerText Dom.attributes];
      rewrite ?lookup_insert_eq; try done;
      rewrite ?lookup_insert_ne by done;
      rewrite Hattrs; by destruct (written ws "aria-label").
  - rewrite (written_other ws a Ht Hl) in *.
    destruct (Dom.attributes el !! "title") as [v|] eqn:E1,
             (Dom.attributes el !! "aria-label") as [v'|] eqn:E2;
      cbn [Dom.setAttribute Dom.setInnerText Dom.attributes];
      rewrite ?lookup_insert_ne by done;
      rewrite Hattrs; by destruct (Dom.attributes el !! a).
Qed.

Lemma restore_brings_back_the_first_snapshot_witness :
  Dom.innerText
    (restoreElement
       (foldl pass (plain_button, None)
          [RenderText "Save" "Speichern" "replace"; RenderText "Speichern" "Speichern" "tooltip"]).1
       (foldl pass (plain_button, None)
          [RenderText "Save" "Speichern" "replace"; RenderText "Speichern" "Speichern" "tooltip"]).2)
  = "Save".
Proof.
  destruct (restore_brings_back_the_first_snapshot plain_button
              [RenderText "Save" "Speichern" "replace"; RenderText "Speichern" "Speichern" "tooltip"])
    as [Htext _].
  - discriminate.
  - exact Htext.
Defined.

(** ** Generations *)

Lemma bumpGeneration_mod g : bumpGeneration g mod 2 ^ 32 = (g + 1) mod 2 ^ 32.
Proof.
  unfold bumpGeneration, ToInt32.
  replace ((g + 2 ^ 31) mod 2 ^ 32 - 2 ^ 31 + 1)
    with ((g + 2 ^ 31) mod 2 ^ 32 + (1 - 2 ^ 31)) by lia.
  rewrite Zplus_mod_idemp_l. f_equal. lia.
Qed.

Lemma bumps_mod n g :
  Nat.iter n bumpGeneration g mod 2 ^ 32 = (g + Z.of_nat n) mod 2 ^ 32.
Proof.
  induction n as [|n IH].
  { change (Nat.iter 0 bumpGeneration g) with g. f_equal. lia. }
  change (Nat.iter (S n) bumpGeneration g)
    with (bumpGeneration (Nat.iter n bumpGeneration g)).
  rewrite bumpGeneration_mod.
  rewrite <- Zplus_mod_idemp_l, IH, Zplus_mod_idemp_l. f_equal. lia.
Qed.

(** X18. A bump always changes the generation: after any number of
    bumps from 1 to 2^32 - 1 the generation differs from the one a pass
    has read before its [await], so that the pass renders none of its
    targets when the translations come back.  A pass that no bump has
    overtaken renders every target that is not under
    [data-autotrans-ignore], with [out[i]] or, when that is empty, the
    text itself.  On a generation in the 32-bit range a bump adds 1, and a
    bumped generation lies between -2^31 + 1 and 2^31. *)
Theorem stale_pass_renders_nothing (g : Z) (n : nat) (mode : string)
    (targets : list target) :
  (0 < n)%nat -> Z.of_nat n < 2 ^ 32 ->
  Nat.iter n bumpGeneration g ≠ g
  ∧ render_results g (Nat.iter n bumpGeneration g) mode targets = t_el <$> targets
  ∧ render_results g g mode targets
    = (fun t => if t_ignored t then t_el t
                else render (t_el t) (t_src t) (dst_text (t_out t) (t_src t)) mode)
      <$> targets
  ∧ (- 2 ^ 31 <= g < 2 ^ 31 -> bumpGeneration g = g + 1)
  ∧ - 2 ^ 31 < bumpGeneration g <= 2 ^ 31.
Proof.
  intros Hn0 Hn.
  assert (Hne : Nat.iter n bumpGeneration g ≠ g).
  { intros Heq. pose proof (bumps_mod n g) as Hm. rewrite Heq in Hm.
    assert (H0 : Z.of_nat n mod 2 ^ 32 = 0).
    { replace (Z.of_nat n) with ((g + Z.of_nat n) - g) by lia.
      rewrite Zminus_mod, <- Hm, Z.sub_diag. done. }
    rewrite Z.mod_small in H0 by lia. lia. }
  split; [exact Hne|]. split; [|split; [|split]].
  - destruct targets as [|t ts]; [done|]. cbn [render_results].
    destruct (Z.eqb_spec g (Nat.iter n bumpGeneration g)) as [Heq|_]; [congruence|done].
  - induction targets as [|t ts IH]; [done|]. cbn [render_results].
    rewrite Z.eqb_refl. cbn [negb]. by rewrite IH.
  - intros Hr. unfold bumpGeneration, ToInt32. rewrite Z.mod_small by lia. lia.
  - unfold bumpGeneration, ToInt32.
    pose proof (Z.mod_pos_bound (g + 2 ^ 31) (2 ^ 32) ltac:(lia)). lia.
Qed.

Lemma stale_pass_renders_nothing_witness :
  render_results 0 (Nat.iter 2 bumpGeneration 0) "replace"
    [Target plain_button false "Save" (JS.str "Speichern")]
  = [plain_button].
Proof.
  destruct (stale_pass_renders_nothing 0 2 "replace"
              [Target plain_button false "Save" (JS.str "Speichern")])
    as (_ & Hstale & _).
  - lia.
  - vm_compute. reflexivity.
  - exact Hstale.
Defined.


(** ** What a call of [batch] costs *)

Section BatchCost.

Import TranslateQueue.

Implicit Types (d : t) (texts : list string).











End BatchCost.




(** ** The rate setting *)


